(** * CG_Labs: rasterisation, clipping, colour conversion and the 3D letter pipeline

    A shallow embedding of the algorithmic core of the five labs:

    - [Lab1]: RGB <-> CMYK conversion (Lab_1/app.py), over exact rationals;
    - [Lab3]: Bresenham line rasterisation (Lab_3/app.py), over integers;
    - [Lab4]: Liang-Barsky and Sutherland-Hodgman clipping (Lab_4/app.py),
      over exact rationals;
    - [Lab5]: vector primitives, mesh builder, transform, shading and depth
      sort of the letter renderer (Lab_5/app.py), over the real numbers.

    Python floats are read as exact numbers ([Q] where only field operations
    and comparisons occur, [R] where [math.cos], [math.sin] and [math.sqrt]
    occur).  Python exceptions (ZeroDivisionError, IndexError, ValueError)
    are the [None] of an option result, unless the function itself returns
    [None] as a value, which is then said at the definition. *)

From Stdlib Require Import String Ascii.
From Stdlib Require HexString.
From Stdlib Require Import ZArith QArith Qround Qabs Reals Lra Lia Psatz.
From Stdlib Require Import List Bool Permutation Sorted.
Import ListNotations.

(* ================================================================== *)
(** * Python conventions shared by the labs *)
(* ================================================================== *)

Module Py.

(** Sequencing of computations that may raise. *)
Definition bind {A B : Type} (m : option A) (k : A -> option B) : option B :=
  match m with
  | Some a => k a
  | None => None
  end.

(** [seq[i]] for a Python [int] index: a negative index counts from the
    end, and an index outside [-len, len) raises IndexError. *)
Definition index {A : Type} (l : list A) (i : Z) : option A :=
  let n := Z.of_nat (length l) in
  if (0 <=? i)%Z then nth_error l (Z.to_nat i)
  else if (- n <=? i)%Z then nth_error l (Z.to_nat (n + i))
  else None.

(** [for x in xs: acc = body(acc, x)] where the body may raise. *)
Fixpoint for_each {A S : Type} (xs : list A) (body : S -> A -> option S)
         (acc : S) : option S :=
  match xs with
  | [] => Some acc
  | x :: rest => bind (body acc x) (for_each rest body)
  end.

(** [[f(x) for x in xs]] where [f] may raise. *)
Fixpoint map_opt {A B : Type} (f : A -> option B) (xs : list A)
  : option (list B) :=
  match xs with
  | [] => Some []
  | x :: rest =>
      bind (f x) (fun y => bind (map_opt f rest) (fun ys => Some (y :: ys)))
  end.

(** Comparison [a < b] of exact rationals. *)
Definition Qltb (a b : Q) : bool := negb (Qle_bool b a).

(** Python's [max] and [min] return the first of the extremal arguments:
    the running value changes only when the next one is strictly larger
    (smaller). *)
Definition max (a b : Q) : Q := if Qltb a b then b else a.
Definition min (a b : Q) : Q := if Qltb b a then b else a.

(** The same over the reals. *)
Definition maxR (a b : R) : R := if Rlt_dec a b then b else a.
Definition minR (a b : R) : R := if Rlt_dec b a then b else a.

(** [round(x)] of a float: nearest integer, a tie goes to the even one. *)
Definition round (x : Q) : Z :=
  let f := Qfloor x in
  let d := (x - inject_Z f)%Q in
  if Qltb d (1 # 2) then f
  else if Qltb (1 # 2) d then (f + 1)%Z
  else if Z.even f then f else (f + 1)%Z.

(** [int(x)] of a float: truncation towards zero. *)
Definition int (x : R) : Z :=
  if Rle_dec 0 x then Int_part x else (- Int_part (- x))%Z.

(** [int(x)] of a float held as a rational: truncation towards zero. *)
Definition intQ (x : Q) : Z :=
  if Qle_bool 0 x then Qfloor x else Qceiling x.

(** [x % m] of floats: the remainder has the sign of [m]. *)
Definition fmod (x m : Q) : Q := (x - m * inject_Z (Qfloor (x / m)))%Q.

(** Float division over the rationals: ZeroDivisionError on a zero divisor. *)
Definition divQ (a b : Q) : option Q :=
  if Qeq_bool b 0 then None else Some (a / b)%Q.

End Py.

Notation "x <- m ;; k" := (Py.bind m (fun x => k))
  (at level 61, m at next level, right associativity).

(* ================================================================== *)
(** * Lab 1: colour models *)
(* ================================================================== *)

Module Lab1.
Local Open Scope Q_scope.

(** The dictionaries built by the conversions have fixed keys. *)
Record CMYK : Type := { c : Q; m : Q; y : Q; k : Q }.
Record RGB : Type := { r : Z; g : Z; b : Z }.

Definition clamp (value min_value max_value : Q) : Q :=
  Py.max min_value (Py.min max_value value).

(** Both divisions are by a non-zero number: the constant 255, and
    [1 - k] behind the guard [k == 1]. *)
Definition rgb_to_cmyk (r g b : Q) : CMYK :=
  let r1 := r / 255 in
  let g1 := g / 255 in
  let b1 := b / 255 in
  let k := 1 - Py.max (Py.max r1 g1) b1 in
  if Qeq_bool k 1 then {| c := 0; m := 0; y := 0; k := 100 |}
  else
    let c := ((1 - r1 - k) / (1 - k)) * 100 in
    let m := ((1 - g1 - k) / (1 - k)) * 100 in
    let y := ((1 - b1 - k) / (1 - k)) * 100 in
    {| c := c; m := m; y := y; k := k * 100 |}.

Definition cmyk_to_rgb (c m y k : Q) : RGB :=
  let c1 := clamp c 0 100 / 100 in
  let m1 := clamp m 0 100 / 100 in
  let y1 := clamp y 0 100 / 100 in
  let k1 := clamp k 0 100 / 100 in
  {| r := Py.round (255 * (1 - c1) * (1 - k1));
     g := Py.round (255 * (1 - m1) * (1 - k1));
     b := Py.round (255 * (1 - y1) * (1 - k1)) |}.

Record HLS : Type := { h : Q; l : Q; s : Q }.

(** The dictionary [{"r": .., "g": .., "b": ..}] with float values, as
    [rgb_to_hex] receives it. *)
Record RGBf : Type := { fr : Q; fg : Q; fb : Q }.

(** Upper-case hexadecimal digits of a natural number. *)
Definition upper_digit (ch : ascii) : ascii :=
  if Ascii.eqb ch "a" then "A"%char
  else if Ascii.eqb ch "b" then "B"%char
  else if Ascii.eqb ch "c" then "C"%char
  else if Ascii.eqb ch "d" then "D"%char
  else if Ascii.eqb ch "e" then "E"%char
  else if Ascii.eqb ch "f" then "F"%char
  else ch.

Fixpoint upper (str : string) : string :=
  match str with
  | EmptyString => EmptyString
  | String ch rest => String (upper_digit ch) (upper rest)
  end.

Definition hexX (n : N) : string :=
  match n with
  | N0 => "0"%string
  | Npos p => upper (HexString.Raw.of_pos p ""%string)
  end.

(** [f"{n:02X}"]. *)
Definition format_02X (n : Z) : string :=
  if (n <? 0)%Z then String.append "-" (hexX (Z.to_N (- n)))
  else
    let str := hexX (Z.to_N n) in
    if (String.length str <? 2)%nat then String.append "0" str else str.

Definition rgb_to_hex (rgb : RGBf) : string :=
  let r := Py.intQ (fr rgb) in
  let g := Py.intQ (fg rgb) in
  let b := Py.intQ (fb rgb) in
  String.append "#"
    (String.append (format_02X r)
       (String.append (format_02X g) (format_02X b))).

(** [None] is the ZeroDivisionError of one of the two variable divisors. *)
Definition rgb_to_hls (r g b : Q) : option HLS :=
  let r1 := r / 255 in
  let g1 := g / 255 in
  let b1 := b / 255 in
  let max_v := Py.max (Py.max r1 g1) b1 in
  let min_v := Py.min (Py.min r1 g1) b1 in
  let l := (max_v + min_v) / 2 in
  if Qeq_bool max_v min_v then Some {| h := 0; l := l * 100; s := 0 |}
  else
    let d := max_v - min_v in
    s <- Py.divQ d (1 - Qabs (2 * l - 1)) ;;
    h <- (if Qeq_bool max_v r1 then
            q <- Py.divQ (g1 - b1) d ;;
            Some (q + (if Py.Qltb g1 b1 then 6 else 0))
          else if Qeq_bool max_v g1 then
            q <- Py.divQ (b1 - r1) d ;; Some (q + 2)
          else
            q <- Py.divQ (r1 - g1) d ;; Some (q + 4)) ;;
    Some {| h := Py.fmod (h * 60) 360; l := l * 100; s := s * 100 |}.

Definition hue_to_rgb (p q t : Q) : Q :=
  let t := if Py.Qltb t 0 then t + 1 else t in
  let t := if Py.Qltb 1 t then t - 1 else t in
  if Py.Qltb t (1 / 6) then p + (q - p) * 6 * t
  else if Py.Qltb t (1 / 2) then q
  else if Py.Qltb t (2 / 3) then p + (q - p) * (2 / 3 - t) * 6
  else p.

Definition hls_to_rgb (h l s : Q) : RGB :=
  let h1 := Py.fmod (Py.fmod h 360 + 360) 360 / 360 in
  let l1 := clamp l 0 100 / 100 in
  let s1 := clamp s 0 100 / 100 in
  if Qeq_bool s1 0 then
    let val := Py.round (l1 * 255) in
    {| r := val; g := val; b := val |}
  else
    let q := if Py.Qltb l1 (1 / 2) then l1 * (1 + s1)
             else l1 + s1 - l1 * s1 in
    let p := 2 * l1 - q in
    let r := hue_to_rgb p q (h1 + 1 / 3) in
    let g := hue_to_rgb p q h1 in
    let b := hue_to_rgb p q (h1 - 1 / 3) in
    {| r := Py.round (r * 255); g := Py.round (g * 255);
       b := Py.round (b * 255) |}.

End Lab1.


(* ================================================================== *)
(** * Lab 2: window size of the local thresholds *)
(* ================================================================== *)

Module Lab2.
Local Open Scope Z_scope.

(** [blk = max(3, block_size | 1)], as [adaptive_gaussian], [sauvola] and
    [apply_methods] compute it before calling into OpenCV. *)
Definition blk (block_size : Z) : Z := Z.max 3 (Z.lor block_size 1).

End Lab2.

(* ================================================================== *)
(** * Lab 3: Bresenham line *)
(* ================================================================== *)

Module Lab3.
Local Open Scope Z_scope.

Definition Point : Type := Z * Z.

(** The [while True] loop of [bresenham_line].  One unit of [fuel] is one
    iteration; [None] means the fuel ran out before the [break]. *)
Fixpoint bresenham_loop (fuel : nat) (x1 y1 dx dy sx sy : Z)
         (x0 y0 err : Z) (pts : list Point) : option (list Point) :=
  match fuel with
  | O => None
  | S fuel' =>
      let pts := pts ++ [(x0, y0)] in
      if (x0 =? x1) && (y0 =? y1) then Some pts
      else
        let e2 := 2 * err in
        let '(err, x0) :=
          if e2 >? - dy then (err - dy, x0 + sx) else (err, x0) in
        let '(err, y0) :=
          if e2 <? dx then (err + dx, y0 + sy) else (err, y0) in
        bresenham_loop fuel' x1 y1 dx dy sx sy x0 y0 err pts
  end.

Definition bresenham_line (fuel : nat) (p0 p1 : Point)
  : option (list Point) :=
  let '(x0, y0) := p0 in
  let '(x1, y1) := p1 in
  let dx := Z.abs (x1 - x0) in
  let dy := Z.abs (y1 - y0) in
  let sx := if x0 <? x1 then 1 else -1 in
  let sy := if y0 <? y1 then 1 else -1 in
  let err := dx - dy in
  bresenham_loop fuel x1 y1 dx dy sx sy x0 y0 err [].

(** Iterations the loop needs: one per emitted point, and never more than
    one point per unit of horizontal plus vertical distance. *)
Definition enough_fuel (p0 p1 : Point) : nat :=
  S (Z.to_nat (Z.abs (fst p1 - fst p0) + Z.abs (snd p1 - snd p0))).

(** [range(n)]. *)
Definition range (n : Z) : list Z := map Z.of_nat (seq 0 (Z.to_nat n)).

(** [not pts or pts[-1] != p]. *)
Definition is_new (pts : list Point) (p : Point) : bool :=
  match rev pts with
  | [] => true
  | (lx, ly) :: _ => negb ((lx =? fst p) && (ly =? snd p))
  end.

(** The parameter [t = i / steps] and the sample are floats, read as exact
    rationals; [steps] is not zero where the division is reached. *)
Definition step_line (p0 p1 : Point) : list Point :=
  let '(x0, y0) := p0 in
  let '(x1, y1) := p1 in
  let dx := x1 - x0 in
  let dy := y1 - y0 in
  let steps := Z.max (Z.abs dx) (Z.abs dy) in
  if steps =? 0 then [(x0, y0)]
  else
    fold_left
      (fun pts i =>
         let t := (inject_Z i / inject_Z steps)%Q in
         let x := Py.round (inject_Z x0 + inject_Z dx * t)%Q in
         let y := Py.round (inject_Z y0 + inject_Z dy * t)%Q in
         if is_new pts (x, y) then pts ++ [(x, y)] else pts)
      (range (steps + 1)) [].

(** The loop state of [dda_line] is the pair of float accumulators and the
    point list. *)
Definition dda_line (p0 p1 : Point) : list Point :=
  let '(x0, y0) := p0 in
  let '(x1, y1) := p1 in
  let dx := x1 - x0 in
  let dy := y1 - y0 in
  let steps := Z.max (Z.abs dx) (Z.abs dy) in
  if steps =? 0 then [(x0, y0)]
  else
    let x_inc := (inject_Z dx / inject_Z steps)%Q in
    let y_inc := (inject_Z dy / inject_Z steps)%Q in
    snd (fold_left
           (fun '(x, y, pts) _ =>
              let px := Py.round x in
              let py := Py.round y in
              let pts := if is_new pts (px, py) then pts ++ [(px, py)]
                         else pts in
              ((x + x_inc)%Q, (y + y_inc)%Q, pts))
           (range (steps + 1)) (inject_Z x0, inject_Z y0, [])).

(** The eight mirror images [plot] appends. *)
Definition plot (cx cy px py : Z) : list Point :=
  [ (cx + px, cy + py); (cx - px, cy + py);
    (cx + px, cy - py); (cx - px, cy - py);
    (cx + py, cy + px); (cx - py, cy + px);
    (cx + py, cy - px); (cx - py, cy - px) ].

(** The [while y >= x] loop of [bresenham_circle]; one unit of fuel is one
    evaluation of the loop condition. *)
Fixpoint circle_loop (fuel : nat) (x0 y0 x y d : Z) (pts : list Point)
  : option (list Point) :=
  match fuel with
  | O => None
  | S fuel' =>
      if y >=? x then
        let pts := pts ++ plot x0 y0 x y in
        let '(d, y) :=
          if d <? 0 then (d + (4 * x + 6), y)
          else (d + (4 * (x - y) + 10), y - 1) in
        let x := x + 1 in
        circle_loop fuel' x0 y0 x y d pts
      else Some pts
  end.

Definition point_eqb (p q : Point) : bool :=
  (fst p =? fst q) && (snd p =? snd q).

(** "remove duplicates while preserving order": [seen] is the set, kept
    here as the list of its elements. *)
Definition remove_duplicates (pts : list Point) : list Point :=
  snd (fold_left
         (fun '(seen, uniq) p =>
            if existsb (point_eqb p) seen then (seen, uniq)
            else (p :: seen, uniq ++ [p]))
         pts ([], [])).

Definition bresenham_circle (fuel : nat) (center : Point) (radius : Z)
  : option (list Point) :=
  let '(x0, y0) := center in
  let x := 0 in
  let y := radius in
  let d := 3 - 2 * radius in
  pts <- circle_loop fuel x0 y0 x y d [] ;;
  Some (remove_duplicates pts).

(** ** The grid on the canvas *)

(** A [create_rectangle] call: left, top, right, bottom. *)
Definition Box : Type := Z * Z * Z * Z.

(** [RasterApp._canvas_size] for the values the variables [cell], [cols]
    and [rows] hold. *)
Definition _canvas_size (cell cols rows : Z) : Z * Z :=
  let '(c, r) := (cols, rows) in
  (c * cell + 1, r * cell + 1).

(** [RasterApp._to_canvas]. *)
Definition _to_canvas (cell cols rows : Z) (p : Point) : Box :=
  let '(x, y) := p in
  if (x <? 0) || (y <? 0) || (x >=? cols) || (y >=? rows)
  then (-1, -1, -1, -1)
  else
    let left := x * cell + 1 in
    let top := (rows - 1 - y) * cell + 1 in
    (left, top, left + cell - 1, top + cell - 1).

(** [RasterApp._draw_points]: the rectangles created, in order; all of
    them in the one colour passed in. *)
Definition _draw_points (cell cols rows : Z) (pts : list Point) : list Box :=
  fold_left
    (fun canvas p =>
       let '(x1, y1, x2, y2) := _to_canvas cell cols rows p in
       if x1 =? -1 then canvas
       else canvas ++ [(x1, y1, x2, y2)])
    pts [].

End Lab3.

(* ================================================================== *)
(** * Lab 4: clipping *)
(* ================================================================== *)

Module Lab4.
Local Open Scope Q_scope.

Definition Point : Type := Q * Q.
Definition Segment : Type := Q * Q * Q * Q.
Definition Rect : Type := Q * Q * Q * Q.

(** ** Liang-Barsky *)

(** The [for pi, qi in zip(p, q)] loop.  [None] is the function's own
    [return None]; the division is guarded by [pi == 0] and cannot raise. *)
Fixpoint liang_barsky_loop (pq : list (Q * Q)) (u1 u2 : Q)
  : option (Q * Q) :=
  match pq with
  | [] => Some (u1, u2)
  | (pi, qi) :: rest =>
      if Qeq_bool pi 0 then
        if Py.Qltb qi 0 then None else liang_barsky_loop rest u1 u2
      else
        let t := - qi / pi in
        let '(u1, u2) :=
          if Py.Qltb pi 0 then (Py.max u1 t, u2) else (u1, Py.min u2 t) in
        if Py.Qltb u2 u1 then None else liang_barsky_loop rest u1 u2
  end.

Definition liang_barsky (rect : Rect) (seg : Segment) : option Segment :=
  let '(xmin, ymin, xmax, ymax) := rect in
  let '(x0, y0, x1, y1) := seg in
  let dx := x1 - x0 in
  let dy := y1 - y0 in
  let p := [- dx; dx; - dy; dy] in
  let q := [x0 - xmin; xmax - x0; y0 - ymin; ymax - y0] in
  match liang_barsky_loop (combine p q) 0 1 with
  | None => None
  | Some (u1, u2) =>
      Some (x0 + u1 * dx, y0 + u1 * dy, x0 + u2 * dx, y0 + u2 * dy)
  end.

(** The textbook parameter [t = qi / pi], for comparison with the source's
    [t = -qi / pi]. *)
Fixpoint textbook_loop (pq : list (Q * Q)) (u1 u2 : Q) : option (Q * Q) :=
  match pq with
  | [] => Some (u1, u2)
  | (pi, qi) :: rest =>
      if Qeq_bool pi 0 then
        if Py.Qltb qi 0 then None else textbook_loop rest u1 u2
      else
        let t := qi / pi in
        let '(u1, u2) :=
          if Py.Qltb pi 0 then (Py.max u1 t, u2) else (u1, Py.min u2 t) in
        if Py.Qltb u2 u1 then None else textbook_loop rest u1 u2
  end.

Definition liang_barsky_textbook (rect : Rect) (seg : Segment)
  : option Segment :=
  let '(xmin, ymin, xmax, ymax) := rect in
  let '(x0, y0, x1, y1) := seg in
  let dx := x1 - x0 in
  let dy := y1 - y0 in
  let p := [- dx; dx; - dy; dy] in
  let q := [x0 - xmin; xmax - x0; y0 - ymin; ymax - y0] in
  match textbook_loop (combine p q) 0 1 with
  | None => None
  | Some (u1, u2) =>
      Some (x0 + u1 * dx, y0 + u1 * dy, x0 + u2 * dx, y0 + u2 * dy)
  end.

(** Equality of segments and points up to the value of their rationals. *)
Definition seg_eq (s t : Segment) : Prop :=
  let '(a, b, c, d) := s in
  let '(a', b', c', d') := t in
  a == a' /\ b == b' /\ c == c' /\ d == d'.

Definition pt_eq (p q : Point) : Prop :=
  fst p == fst q /\ snd p == snd q.

(** ** Sutherland-Hodgman *)

Inductive Edge : Type := left | right | bottom | top.

Definition inside (clip_rect : Rect) (p : Point) (edge : Edge) : bool :=
  let '(xmin, ymin, xmax, ymax) := clip_rect in
  let '(x, y) := p in
  match edge with
  | left => Qle_bool xmin x
  | right => Qle_bool x xmax
  | bottom => Qle_bool ymin y
  | top => Qle_bool y ymax
  end.

(** Float division: ZeroDivisionError on a zero divisor. *)
Definition div (a b : Q) : option Q :=
  if Qeq_bool b 0 then None else Some (a / b).

Definition intersect (clip_rect : Rect) (p1 p2 : Point) (edge : Edge)
  : option Point :=
  let '(xmin, ymin, xmax, ymax) := clip_rect in
  let '(x1, y1) := p1 in
  let '(x2, y2) := p2 in
  if Qeq_bool x1 x2 && Qeq_bool y1 y2 then Some p1
  else
    match edge with
    | left | right =>
        let x_edge := match edge with left => xmin | _ => xmax end in
        t <- div (x_edge - x1) (x2 - x1) ;;
        Some (x_edge, y1 + t * (y2 - y1))
    | bottom | top =>
        let y_edge := match edge with bottom => ymin | _ => ymax end in
        t <- div (y_edge - y1) (y2 - y1) ;;
        Some (x1 + t * (x2 - x1), y_edge)
    end.

(** Body of [for i in range(len(poly))] in [clip]; [out] is the list
    being appended to. *)
Definition clip_step (clip_rect : Rect) (poly : list Point) (edge : Edge)
           (out : list Point) (i : nat) : option (list Point) :=
  cur <- Py.index poly (Z.of_nat i) ;;
  prev <- Py.index poly (Z.of_nat i - 1) ;;
  let cur_in := inside clip_rect cur edge in
  let prev_in := inside clip_rect prev edge in
  if cur_in then
    out <- (if negb prev_in
            then x <- intersect clip_rect prev cur edge ;; Some (out ++ [x])
            else Some out) ;;
    Some (out ++ [cur])
  else if prev_in then
    x <- intersect clip_rect prev cur edge ;; Some (out ++ [x])
  else Some out.

Definition clip (clip_rect : Rect) (poly : list Point) (edge : Edge)
  : option (list Point) :=
  match poly with
  | [] => Some []
  | _ =>
      Py.for_each (seq 0 (length poly)) (clip_step clip_rect poly edge) []
  end.

Definition sutherland_hodgman (subject : list Point) (clip_rect : Rect)
  : option (list Point) :=
  Py.for_each [left; right; bottom; top]
              (fun res edge => clip clip_rect res edge) subject.

(** [l] is [m] read from another starting vertex. *)
Definition rotation_of {A : Type} (l m : list A) : Prop :=
  exists k, l = skipn k m ++ firstn k m.

End Lab4.

(* ================================================================== *)
(** * Lab 5: the 3D letter *)
(* ================================================================== *)

Module Lab5.
Local Open Scope R_scope.

Definition Vec3 : Type := R * R * R.

(** A face is a tuple of vertex indices (Python [int]s). *)
Definition Face : Type := list Z.

(** [math.sqrt] raises ValueError below zero; [/] raises
    ZeroDivisionError on a zero divisor. *)
Definition math_sqrt (x : R) : option R :=
  if Rlt_dec x 0 then None else Some (sqrt x).

Definition div (a b : R) : option R :=
  if Req_dec_T b 0 then None else Some (a / b).

(** [range(n)] and [range(a, b)]. *)
Definition range (n : Z) : list Z := map Z.of_nat (seq 0 (Z.to_nat n)).
Definition range2 (a b : Z) : list Z := map (fun i => (a + i)%Z) (range (b - a)).

(** ** Vector primitives *)

Definition rotate (v : Vec3) (rx ry rz : R) : Vec3 :=
  let '(x, y, z) := v in
  let cx := cos rx in let sx := sin rx in
  let cy := cos ry in let sy := sin ry in
  let cz := cos rz in let sz := sin rz in
  let '(y, z) := (y * cx - z * sx, y * sx + z * cx) in
  let '(x, z) := (x * cy + z * sy, - x * sy + z * cy) in
  let '(x, y) := (x * cz - y * sz, x * sz + y * cz) in
  (x, y, z).

Definition add (v t : Vec3) : Vec3 :=
  let '(v0, v1, v2) := v in
  let '(t0, t1, t2) := t in
  (v0 + t0, v1 + t1, v2 + t2).

Definition scale (v : Vec3) (s : R) : Vec3 :=
  let '(v0, v1, v2) := v in
  (v0 * s, v1 * s, v2 * s).

Definition normal (a b c : Vec3) : option Vec3 :=
  let '(a0, a1, a2) := a in
  let '(b0, b1, b2) := b in
  let '(c0, c1, c2) := c in
  let ux := b0 - a0 in let uy := b1 - a1 in let uz := b2 - a2 in
  let vx := c0 - a0 in let vy := c1 - a1 in let vz := c2 - a2 in
  let nx := uy * vz - uz * vy in
  let ny := uz * vx - ux * vz in
  let nz := ux * vy - uy * vx in
  s <- math_sqrt (nx * nx + ny * ny + nz * nz) ;;
  let length := if Req_dec_T s 0 then 1 else s in
  x <- div nx length ;;
  y <- div ny length ;;
  z <- div nz length ;;
  Some (x, y, z).

Definition project (v : Vec3) (angle : R) : Vec3 :=
  let ca := cos angle in
  let sa := sin angle in
  let '(x, y, z) := v in
  let x_cam := x * ca + z * sa in
  let z_cam := - x * sa + z * ca in
  (x_cam, y, z_cam).

(** ** Shading *)

(** Lower-case hexadecimal digits of a natural number. *)
Definition hex (n : N) : string :=
  match n with
  | N0 => "0"%string
  | Npos p => HexString.Raw.of_pos p ""%string
  end.

(** [f"{n:02x}"]: lower-case hexadecimal, zero-padded to two characters,
    the sign counting as one. *)
Definition format_02x (n : Z) : string :=
  if (n <? 0)%Z then String.append "-" (hex (Z.to_N (- n)))
  else
    let s := hex (Z.to_N n) in
    if (String.length s <? 2)%nat then String.append "0" s else s.

Definition default_light : Vec3 := (0.5, 0.7, 1.0).

Definition shade (color : Z * Z * Z) (n : Vec3) (light : Vec3)
  : string :=
  let '(n0, n1, n2) := n in
  let '(l0, l1, l2) := light in
  let dot := Py.maxR 0.2 (Py.minR 1.0 (n0 * l0 + n1 * l1 + n2 * l2)) in
  let chan (c : Z) : Z := Z.min 255 (Py.int (IZR c * dot)) in
  let '(c0, c1, c2) := color in
  let r := chan c0 in
  let g := chan c1 in
  let b := chan c2 in
  String.append "#"
    (String.append (format_02x r)
       (String.append (format_02x g) (format_02x b))).

(** ** Mesh builder *)

Definition build_letter_r (depth : R) : list Vec3 * list Face :=
  let contour : list (R * R) :=
    [ (0.0, 0.0); (0.0, 8.0); (5.2, 8.0); (5.6, 7.2);
      (5.6, 5.2); (2.4, 5.2); (5.6, 3.0); (3.4, 0.0) ] in
  let inner : list (R * R) :=
    [ (1.2, 6.9); (1.2, 5.6); (3.6, 5.6); (3.6, 6.9) ] in
  let verts : list Vec3 :=
    flat_map (fun z =>
                map (fun '(x, y) => (x, y, z)) contour
                ++ map (fun '(x, y) => (x, y, z)) inner)
             [0.0; depth] in
  let n_contour := Z.of_nat (length contour) in
  let n_inner := Z.of_nat (length inner) in
  let outer_sides : list Face :=
    map (fun i =>
           let a := i in
           let b := ((i + 1) mod n_contour)%Z in
           [a; b; b + n_contour; a + n_contour]%Z)
        (range n_contour) in
  let inner_sides : list Face :=
    map (fun i =>
           let a_front := (n_contour + i)%Z in
           let b_front := (n_contour + (i + 1) mod n_inner)%Z in
           let a_back := (n_contour + n_inner + n_contour + i)%Z in
           let b_back :=
             (n_contour + n_inner + n_contour + (i + 1) mod n_inner)%Z in
           [b_back; a_back; a_front; b_front])
        (range n_inner) in
  let front : list Face :=
    [ range n_contour; range2 n_contour (n_contour + n_inner) ] in
  let back_start := (n_contour + n_inner)%Z in
  let back_inner_start := (back_start + n_contour)%Z in
  let back : list Face :=
    [ map (fun i => (back_start + i)%Z) (range n_contour);
      map (fun i => (back_inner_start + i)%Z) (range n_inner) ] in
  (verts, outer_sides ++ inner_sides ++ front ++ back).

(** ** The application state and the pipeline *)

Module Transform.
Record t : Type :=
  { tx : R; ty : R; tz : R; rx : R; ry : R; rz : R; scale : R }.
End Transform.

(** The fields of [LetterApp] the pipeline reads; [width] and [height]
    are what the canvas reports for its size. *)
Record LetterApp : Type :=
  { transform : Transform.t;
    cam_angle : R;
    base_verts : list Vec3;
    faces : list Face;
    width : Z;
    height : Z }.

(** [min(xs)] and [max(xs)] of a list: ValueError when it is empty. *)
Definition min_list (xs : list R) : option R :=
  match xs with
  | [] => None
  | x :: rest => Some (fold_left Py.minR rest x)
  end.

Definition max_list (xs : list R) : option R :=
  match xs with
  | [] => None
  | x :: rest => Some (fold_left Py.maxR rest x)
  end.

Definition _center_model (verts : list Vec3) : option (list Vec3) :=
  let xs := map (fun v => fst (fst v)) verts in
  let ys := map (fun v => snd (fst v)) verts in
  let zs := map (fun v => snd v) verts in
  xlo <- min_list xs ;; xhi <- max_list xs ;;
  ylo <- min_list ys ;; yhi <- max_list ys ;;
  zlo <- min_list zs ;; zhi <- max_list zs ;;
  let cx := (xlo + xhi) / 2 in
  let cy := (ylo + yhi) / 2 in
  let cz := (zlo + zhi) / 2 in
  Some (map (fun '(x, y, z) => (x - cx, y - cy, z - cz)) verts).

Definition transform_vertices (self : LetterApp) : list Vec3 :=
  let t := transform self in
  fold_left
    (fun verts v =>
       let vv := scale v (Transform.scale t) in
       let vv := rotate vv (Transform.rx t) (Transform.ry t) (Transform.rz t) in
       let vv := add vv (Transform.tx t * Transform.scale t,
                         Transform.ty t * Transform.scale t,
                         Transform.tz t * Transform.scale t) in
       let vv := project vv (cam_angle self) in
       verts ++ [vv])
    (base_verts self) [].

(** [faces_sorted.sort(key=lambda x: x[0], reverse=True)]: the library
    sort is stable and orders by the key alone, largest first; elements
    with equal keys keep their order.  Insertion from the right end of
    the list does exactly that. *)
Fixpoint insert_reverse {A : Type} (key : A -> R) (x : A) (l : list A)
  : list A :=
  match l with
  | [] => [x]
  | y :: l' =>
      if Rlt_dec (key x) (key y) then y :: insert_reverse key x l'
      else x :: y :: l'
  end.

Fixpoint sort_reverse {A : Type} (key : A -> R) (l : list A) : list A :=
  match l with
  | [] => []
  | x :: l' => insert_reverse key x (sort_reverse key l')
  end.

(** [sum(zs) / len(zs)] for [zs = [verts[idx][2] for idx in face]]. *)
Definition face_depth (verts : list Vec3) (face : Face) : option R :=
  zs <- Py.map_opt (fun idx => v <- Py.index verts idx ;; Some (snd v)) face ;;
  div (fold_left Rplus zs 0) (INR (length zs)).

(** The list [faces_sorted], after the sort. *)
Definition faces_sorted (verts : list Vec3) (faces : list Face)
  : option (list (R * Face)) :=
  keyed <- Py.map_opt (fun face => d <- face_depth verts face ;;
                                   Some (d, face)) faces ;;
  Some (sort_reverse fst keyed).

Definition base_color : Z * Z * Z := (228, 87, 46)%Z.

(** The shading normal of one face, as [render] computes it. *)
Definition face_normal (verts : list Vec3) (face : Face) : option Vec3 :=
  if (3 <=? length face)%nat then
    a <- Py.index verts (nth 0 face 0%Z) ;;
    b <- Py.index verts (nth 1 face 0%Z) ;;
    c <- Py.index verts (nth 2 face 0%Z) ;;
    normal a b c
  else Some (0, 0, 1).

Definition face_fill (verts : list Vec3) (face : Face)
  : option string :=
  n <- face_normal verts face ;;
  Some (shade base_color n default_light).

(** One [create_polygon] call: the flat coordinate list and the fill. *)
Definition Polygon : Type := list R * string.

(** Body of the drawing loop of [render] for one face. *)
Definition draw_face (cx cy : R) (verts : list Vec3) (face : Face)
  : option Polygon :=
  pts2d <- Py.map_opt
             (fun idx => v <- Py.index verts idx ;;
                         let '(x, y, z) := v in Some (cx + x, cy - y))
             face ;;
  fill <- face_fill verts face ;;
  let coords := flat_map (fun '(px, py) => [px; py]) pts2d in
  Some (coords, fill).

(** [render]: the polygons handed to the canvas, in drawing order. *)
Definition render (self : LetterApp) : option (list Polygon) :=
  let w := width self in
  let h := height self in
  let cx := IZR w / 2 in
  let cy := IZR h / 2 in
  let verts := transform_vertices self in
  sorted <- faces_sorted verts (faces self) ;;
  Py.map_opt (fun '(_, face) => draw_face cx cy verts face) sorted.

Definition init_transform : Transform.t :=
  {| Transform.tx := 0.0; Transform.ty := 0.0; Transform.tz := 0.0;
     Transform.rx := 0.3; Transform.ry := -0.8; Transform.rz := 0.0;
     Transform.scale := 55.0 |}.

(** [LetterApp.__init__], for a canvas reporting the size [w] x [h]. *)
Definition init (w h : Z) : option LetterApp :=
  let '(verts, faces) := build_letter_r 1.2 in
  centered <- _center_model verts ;;
  Some {| transform := init_transform; cam_angle := 0.6;
          base_verts := centered; faces := faces;
          width := w; height := h |}.

End Lab5.

(* ================================================================== *)
(** * Vocabulary of the properties *)
(* ================================================================== *)

Module Lab3Spec.
Import Lab3.
Local Open Scope Z_scope.

(** The loop state [(x0, y0, err)] of a line towards [(x1, y1)] with
    extents [dx], [dy] and directions [sx], [sy], when [rx] horizontal and
    [ry] vertical unit steps remain. *)
Definition at_distance (x1 y1 dx dy sx sy rx ry x0 y0 err : Z) : Prop :=
  0 <= rx <= dx /\ 0 <= ry <= dy /\
  x1 = x0 + sx * rx /\ y1 = y0 + sy * ry /\
  err = dx - dy + rx * dy - ry * dx.

(** The sample [step_line] takes at step [i] of [steps]. *)
Definition sample (x0 y0 dx dy steps i : Z) : Point :=
  (Py.round (inject_Z x0 + inject_Z dx * (inject_Z i / inject_Z steps))%Q,
   Py.round (inject_Z y0 + inject_Z dy * (inject_Z i / inject_Z steps))%Q).

(** No two neighbours in the list are the same point. *)
Fixpoint no_repeat (l : list Point) : Prop :=
  match l with
  | p :: (q :: _) as rest => p <> q /\ no_repeat rest
  | _ => True
  end.

(** [q] is one of the eight grid neighbours of [p]. *)
Definition neighbour (p q : Point) : Prop :=
  Z.abs (fst q - fst p) <= 1 /\ Z.abs (snd q - snd p) <= 1 /\ p <> q.

Fixpoint chain (l : list Point) : Prop :=
  match l with
  | p :: (q :: _) as rest => neighbour p q /\ chain rest
  | _ => True
  end.

(** [p] lies in the bounding box of [p0] and [p1]. *)
Definition in_box (p0 p1 p : Point) : Prop :=
  Z.min (fst p0) (fst p1) <= fst p <= Z.max (fst p0) (fst p1) /\
  Z.min (snd p0) (snd p1) <= snd p <= Z.max (snd p0) (snd p1).

(** Condition evaluations the circle loop needs for a radius. *)
Definition circle_fuel (radius : Z) : nat := S (Z.to_nat (radius + 1)).

(** The squared distance of [p] from the centre misses the squared radius
    by at most the radius. *)
Definition on_circle (center : Point) (radius : Z) (p : Point) : Prop :=
  let a := fst p - fst center in
  let b := snd p - snd center in
  Z.abs (a * a + b * b - radius * radius) <= radius.

(** [l] holds, with every point, its mirror images in both axes through
    the centre and in the diagonal. *)
Definition mirrored (center : Point) (l : list Point) : Prop :=
  forall a b,
    In (fst center + a, snd center + b) l ->
    In (fst center - a, snd center + b) l /\
    In (fst center + a, snd center - b) l /\
    In (fst center + b, snd center + a) l.

(** The loop state of the circle: [d] is the decision value of the
    midpoint test at [(x, y)] for radius [r]. *)
Definition circle_state (r x y d : Z) : Prop :=
  0 <= x /\ y <= r /\
  d = 2 * ((x + 1) * (x + 1)) + y * y + (y - 1) * (y - 1) - 2 * (r * r) /\
  4 * x - 4 * y + 3 <= d /\
  (x <= y -> d <= 4 * x + 3).

(** The point is a cell of the grid. *)
Definition in_grid (cols rows : Z) (p : Point) : bool :=
  (0 <=? fst p) && (fst p <? cols) && (0 <=? snd p) && (snd p <? rows).

(** The box is a square of [cell] pixels a side that lies on a canvas of
    the given size, off its first pixel row and column. *)
Definition cell_on_canvas (cell : Z) (size : Z * Z) (b : Box) : Prop :=
  let '(x1, y1, x2, y2) := b in
  let '(w, h) := size in
  1 <= x1 /\ x2 = x1 + cell - 1 /\ x2 < w /\
  1 <= y1 /\ y2 = y1 + cell - 1 /\ y2 < h.

(** Two boxes share no pixel. *)
Definition apart (a b : Box) : Prop :=
  let '(a1, a2, a3, a4) := a in
  let '(b1, b2, b3, b4) := b in
  a3 < b1 \/ b3 < a1 \/ a4 < b2 \/ b4 < a2.

End Lab3Spec.

Module Lab5Spec.
Import Lab5.
Local Open Scope R_scope.

(** Euclidean length. *)
Definition norm (v : Vec3) : R :=
  let '(x, y, z) := v in sqrt (x * x + y * y + z * z).

(** Cross product of the edge vectors [b - a] and [c - a]. *)
Definition edge_cross (a b c : Vec3) : Vec3 :=
  let '(a0, a1, a2) := a in
  let '(b0, b1, b2) := b in
  let '(c0, c1, c2) := c in
  ((b1 - a1) * (c2 - a2) - (b2 - a2) * (c1 - a1),
   (b2 - a2) * (c0 - a0) - (b0 - a0) * (c2 - a2),
   (b0 - a0) * (c1 - a1) - (b1 - a1) * (c0 - a0)).

(** The three axis rotations, each on its own. *)
Definition rotate_x (v : Vec3) (a : R) : Vec3 :=
  let '(x, y, z) := v in (x, y * cos a - z * sin a, y * sin a + z * cos a).

Definition rotate_y (v : Vec3) (a : R) : Vec3 :=
  let '(x, y, z) := v in (x * cos a + z * sin a, y, - x * sin a + z * cos a).

Definition rotate_z (v : Vec3) (a : R) : Vec3 :=
  let '(x, y, z) := v in (x * cos a - y * sin a, x * sin a + y * cos a, z).

(** A vertex in model space: scaled, rotated and translated, not yet
    seen through the camera. *)
Definition model_vertex (t : Transform.t) (v : Vec3) : Vec3 :=
  add (rotate (scale v (Transform.scale t))
              (Transform.rx t) (Transform.ry t) (Transform.rz t))
      (Transform.tx t * Transform.scale t,
       Transform.ty t * Transform.scale t,
       Transform.tz t * Transform.scale t).

(** A vertex in model space, in coordinates: every component times the
    scale; the turn about X, then about Y, then about Z, each of the
    result of the one before; then each translation offset, times the
    scale, added to its component. *)
Definition model_space (t : Transform.t) (v : Vec3) : Vec3 :=
  let s := Transform.scale t in
  let '(x, y, z) := v in
  let '(x, y, z) := (x * s, y * s, z * s) in
  let '(x, y, z) :=
    (x,
     y * cos (Transform.rx t) - z * sin (Transform.rx t),
     y * sin (Transform.rx t) + z * cos (Transform.rx t)) in
  let '(x, y, z) :=
    (x * cos (Transform.ry t) + z * sin (Transform.ry t),
     y,
     - x * sin (Transform.ry t) + z * cos (Transform.ry t)) in
  let '(x, y, z) :=
    (x * cos (Transform.rz t) - y * sin (Transform.rz t),
     x * sin (Transform.rz t) + y * cos (Transform.rz t),
     z) in
  (x + Transform.tx t * s, y + Transform.ty t * s, z + Transform.tz t * s).

(** The turn of the camera about the vertical axis, in coordinates. *)
Definition camera_turn (a : R) (v : Vec3) : Vec3 :=
  let '(x, y, z) := v in
  (x * cos a + z * sin a, y, - x * sin a + z * cos a).

(** The projected vertex of the pipeline, in coordinates. *)
Definition pipeline_vertex (t : Transform.t) (a : R) (v : Vec3) : Vec3 :=
  camera_turn a (model_space t v).

(** Arithmetic mean of the depth (third) components of the vertices a face
    indexes. *)
Definition mean_depth (verts : list Vec3) (face : Face) : R :=
  fold_right Rplus 0
             (map (fun idx => snd (nth (Z.to_nat idx) verts (0, 0, 0))) face)
  / INR (length face).

(** Data-model invariant of a mesh: no face is empty and every index is
    a position of the vertex list. *)
Definition valid_index (n : nat) (idx : Z) : Prop :=
  (0 <= idx < Z.of_nat n)%Z.

Definition valid_mesh (n : nat) (faces : list Face) : bool :=
  forallb (fun face =>
             negb (Nat.eqb (length face) 0)
             && forallb (fun idx => (0 <=? idx)%Z && (idx <? Z.of_nat n)%Z)
                        face)
          faces.

(** Elements with their position in the list. *)
Definition tagged {A : Type} (l : list A) : list (nat * A) :=
  combine (seq 0 (length l)) l.

Definition tkey {A : Type} (key : A -> R) (p : nat * A) : R := key (snd p).

(** [p] is drawn before [q]: its key is larger, or the keys are equal and
    it came first. *)
Definition before {A : Type} (key : A -> R) (p q : nat * A) : Prop :=
  key (snd p) > key (snd q) \/
  (key (snd p) = key (snd q) /\ (fst p < fst q)%nat).

(** The letter of depth 1.2 with its bounding box centred at the origin. *)
Definition centered_letter : list Vec3 :=
  map (fun '(x, y, z) => (x - 2.8, y - 4, z - 0.6))
      (fst (build_letter_r 1.2)).

(** The application showing the letter under transform [t] from camera
    angle [cam]. *)
Definition letter_app (t : Transform.t) (cam : R) : LetterApp :=
  {| transform := t; cam_angle := cam;
     base_verts := centered_letter; faces := snd (build_letter_r 1.2);
     width := 900; height := 640 |}.

(** No rotation, no translation, scale 55. *)
Definition upright : Transform.t :=
  {| Transform.tx := 0; Transform.ty := 0; Transform.tz := 0;
     Transform.rx := 0; Transform.ry := 0; Transform.rz := 0;
     Transform.scale := 55 |}.

(** The cap of the hole on the front of the letter. *)
Definition hole_cap : Face := range2 8 12.

(** What [render] draws, face by face: one polygon per face of the mesh,
    a face with a larger mean projected depth before one with a smaller,
    faces of equal mean depth in mesh order. *)
Definition painter_order (self : LetterApp) : Prop :=
  let verts := map (pipeline_vertex (transform self) (cam_angle self))
                   (base_verts self) in
  let cx := IZR (width self) / 2 in
  let cy := IZR (height self) / 2 in
  exists (order : list nat) (drawn : list Polygon),
    Permutation order (seq 0 (length (faces self))) /\
    render self = Some drawn /\
    Forall2 (fun p poly =>
               exists face, nth_error (faces self) p = Some face /\
                            draw_face cx cy verts face = Some poly)
            order drawn /\
    forall i j p q fp fq,
      nth_error order i = Some p -> nth_error order j = Some q ->
      nth_error (faces self) p = Some fp ->
      nth_error (faces self) q = Some fq ->
      mean_depth verts fp > mean_depth verts fq \/
      (mean_depth verts fp = mean_depth verts fq /\ (p < q)%nat) ->
      (i < j)%nat.

(** The vector pointing the other way. *)
Definition opposite (v : Vec3) : Vec3 := scale v (-1).

(** The three coordinates of a vector. *)
Definition coord_x (v : Vec3) : R := fst (fst v).
Definition coord_y (v : Vec3) : R := snd (fst v).
Definition coord_z (v : Vec3) : R := snd v.

(** The middle of the range of a coordinate over the vertices is [0]. *)
Definition centred (coord : Vec3 -> R) (verts : list Vec3) : Prop :=
  exists lo hi, min_list (map coord verts) = Some lo
                /\ max_list (map coord verts) = Some hi
                /\ lo + hi = 0.

(** What Python accepts as an index of a sequence of length [n]. *)
Definition indexable (n : nat) (idx : Z) : Prop :=
  (- Z.of_nat n <= idx < Z.of_nat n)%Z.

(** A face [render] can draw: not empty, and all indices accepted. *)
Definition drawable (n : nat) (face : Face) : Prop :=
  face <> [] /\ Forall (indexable n) face.

End Lab5Spec.

Module Lab4Spec.
Import Lab4.
Local Open Scope Q_scope.

(** The point lies in the closed clip rectangle. *)
Definition in_rect (rect : Rect) (p : Point) : Prop :=
  forall edge, inside rect p edge = true.

(** The rectangle has positive width and height. *)
Definition proper (rect : Rect) : Prop :=
  let '(xmin, ymin, xmax, ymax) := rect in xmin < xmax /\ ymin < ymax.



(** Integer coordinates of at most a million in absolute value: the
    program's floats hold them, and their differences, exactly. *)
Definition grid_coordinates (l : list Z) : Prop :=
  Forall (fun n => (Z.abs n <= 1000000)%Z) l.



Definition segment_of (x0 y0 x1 y1 : Z) : Segment :=
  (inject_Z x0, inject_Z y0, inject_Z x1, inject_Z y1).

Definition rect_of (xmin ymin xmax ymax : Z) : Rect :=
  (inject_Z xmin, inject_Z ymin, inject_Z xmax, inject_Z ymax).

End Lab4Spec.

Module Lab1Spec.
Import Lab1.

(** A two-character code that reads back, as a hexadecimal numeral, to the
    number it was printed from. *)
Definition byte_code_ok (n : Z) : bool :=
  (String.length (format_02X n) =? 2)%nat
  && (Z.of_N (HexString.Raw.to_N (format_02X n) 0%N) =? n)%Z.

End Lab1Spec.

(* ================================================================== *)
(** * Facts about the Python conventions *)
(* ================================================================== *)

Module PyFacts.

Lemma for_each_invariant {A S : Type} (P : S -> Prop) (xs : list A)
      (body : S -> A -> option S) :
  (forall acc x, In x xs -> P acc ->
                 exists acc', body acc x = Some acc' /\ P acc') ->
  forall acc, P acc -> exists r, Py.for_each xs body acc = Some r /\ P r.
Proof.
  induction xs as [|x xs IH]; intros Hbody acc Hacc; cbn [Py.for_each].
  - now exists acc.
  - destruct (Hbody acc x (or_introl eq_refl) Hacc) as (acc' & -> & Hacc').
    cbn [Py.bind]. apply IH; [|assumption].
    intros a z Hz. apply Hbody. now right.
Qed.

Lemma map_opt_Forall2 {A B : Type} (f : A -> option B) (xs : list A) :
  forall ys, Py.map_opt f xs = Some ys ->
             Forall2 (fun x y => f x = Some y) xs ys.
Proof.
  induction xs as [|x xs IH]; cbn [Py.map_opt]; intros ys H.
  - injection H as <-. constructor.
  - destruct (f x) as [y|] eqn:Ey; [|discriminate]. cbn [Py.bind] in H.
    destruct (Py.map_opt f xs) as [ys'|]; [|discriminate].
    cbn [Py.bind] in H. injection H as <-. constructor; auto.
Qed.

Lemma Forall2_map_opt {A B : Type} (f : A -> option B) (xs : list A)
      (ys : list B) :
  Forall2 (fun x y => f x = Some y) xs ys -> Py.map_opt f xs = Some ys.
Proof.
  induction 1 as [|x y xs ys Hxy _ IH]; cbn [Py.map_opt]; [reflexivity|].
  now rewrite Hxy, IH.
Qed.

Lemma map_opt_defined {A B : Type} (f : A -> option B) (xs : list A) :
  (forall x, In x xs -> exists y, f x = Some y) ->
  exists ys, Py.map_opt f xs = Some ys.
Proof.
  induction xs as [|x xs IH]; intro Hf; cbn [Py.map_opt].
  - now eexists.
  - destruct (Hf x (or_introl eq_refl)) as [y ->].
    destruct IH as [ys ->]; [intros z Hz; apply Hf; now right|].
    now eexists.
Qed.

Lemma index_nonneg {A : Type} (l : list A) (i : nat) :
  Py.index l (Z.of_nat i) = nth_error l i.
Proof.
  unfold Py.index.
  destruct (0 <=? Z.of_nat i)%Z eqn:E; [|apply Z.leb_gt in E; lia].
  now rewrite Nat2Z.id.
Qed.

(** [l[i - 1]] is the cyclic predecessor of [l[i]]. *)
Lemma index_pred {A : Type} (l : list A) (i : nat) :
  (i < length l)%nat ->
  Py.index l (Z.of_nat i - 1)
  = nth_error l (if Nat.eqb i 0 then length l - 1 else i - 1).
Proof.
  intro Hi. unfold Py.index. destruct i as [|i].
  - cbn [Nat.eqb Z.of_nat Z.sub Z.add Z.opp Z.leb Z.compare].
    destruct (- Z.of_nat (length l) <=? -1)%Z eqn:E;
      [|apply Z.leb_gt in E; lia].
    f_equal. lia.
  - destruct (0 <=? Z.of_nat (S i) - 1)%Z eqn:E;
      [|apply Z.leb_gt in E; lia].
    cbn [Nat.eqb]. f_equal. lia.
Qed.

Lemma index_in_range {A : Type} (l : list A) (idx : Z) :
  (0 <= idx < Z.of_nat (length l))%Z ->
  Py.index l idx = nth_error l (Z.to_nat idx)
  /\ exists v, nth_error l (Z.to_nat idx) = Some v.
Proof.
  intro H. rewrite <- (Z2Nat.id idx) at 1 by lia.
  rewrite index_nonneg. split; [reflexivity|].
  destruct (nth_error l (Z.to_nat idx)) eqn:E; [now eexists|].
  apply nth_error_None in E. lia.
Qed.

Local Open Scope Q_scope.

Lemma Qltb_lt (a b : Q) : Py.Qltb a b = true <-> a < b.
Proof.
  unfold Py.Qltb. rewrite negb_true_iff.
  split; intro H.
  - apply Qnot_le_lt. intro Hle. apply Qle_bool_iff in Hle. congruence.
  - destruct (Qle_bool b a) eqn:E; [|reflexivity].
    apply Qle_bool_iff in E. exfalso. apply (Qlt_not_le _ _ H E).
Qed.

Lemma Qltb_ge (a b : Q) : Py.Qltb a b = false <-> b <= a.
Proof.
  unfold Py.Qltb. rewrite negb_false_iff. apply Qle_bool_iff.
Qed.

Lemma max_cases (a b : Q) :
  (Py.max a b = a /\ b <= a) \/ (Py.max a b = b /\ a < b).
Proof.
  unfold Py.max. destruct (Py.Qltb a b) eqn:E.
  - right. split; [reflexivity | now apply Qltb_lt].
  - left. split; [reflexivity | now apply Qltb_ge].
Qed.

Lemma min_cases (a b : Q) :
  (Py.min a b = a /\ a <= b) \/ (Py.min a b = b /\ b < a).
Proof.
  unfold Py.min. destruct (Py.Qltb b a) eqn:E.
  - right. split; [reflexivity | now apply Qltb_lt].
  - left. split; [reflexivity | now apply Qltb_ge].
Qed.

(** Rounding a float that holds an integer value gives that integer. *)
Lemma round_integer (x : Q) (n : Z) : x == inject_Z n -> Py.round x = n.
Proof.
  intro Hx. unfold Py.round.
  assert (Hf : Qfloor x = n) by (rewrite Hx; apply Qfloor_Z).
  rewrite Hf.
  assert (Hd : Py.Qltb (x - inject_Z n) (1 # 2) = true).
  { apply Qltb_lt. rewrite Hx. unfold Qminus. rewrite Qplus_opp_r.
    reflexivity. }
  now rewrite Hd.
Qed.

End PyFacts.

(* ================================================================== *)
(** * Lab 1: the colour round trip *)
(* ================================================================== *)

Module Lab1_proofs.
Import Lab1 PyFacts.
Local Open Scope Q_scope.

Lemma clamp_inside (v : Q) : 0 <= v <= 100 -> clamp v 0 100 == v.
Proof.
  intros [Hlo Hhi]. unfold clamp.
  destruct (min_cases 100 v) as [[-> Hm]|[-> Hm]];
    destruct (max_cases 0 100) as [[E ?]|[E ?]];
    destruct (max_cases 0 v) as [[E' ?]|[E' ?]]; rewrite ?E, ?E';
    try reflexivity; try lra.
Qed.

(** One channel of the round trip: [x] is the channel and [mx] the
    largest channel, both already divided by 255. *)
Lemma channel_roundtrip (x mx : Q) :
  0 <= x <= mx -> 0 < mx <= 1 ->
  let k := 1 - mx in
  let c := ((1 - x - k) / (1 - k)) * 100 in
  255 * (1 - clamp c 0 100 / 100) * (1 - clamp (k * 100) 0 100 / 100)
  == 255 * x.
Proof.
  intros Hx Hmx k c.
  assert (Hk : 1 - k == mx) by (unfold k; ring).
  assert (Hmx0 : ~ mx == 0) by lra.
  assert (Hc : c == (mx - x) / mx * 100).
  { unfold c. rewrite Hk. unfold k. field. exact Hmx0. }
  assert (Hq : 0 <= (mx - x) / mx <= 1).
  { split.
    - apply Qle_shift_div_l; lra.
    - apply Qle_shift_div_r; lra. }
  rewrite (clamp_inside c) by (rewrite Hc; lra).
  rewrite (clamp_inside (k * 100)) by (unfold k; lra).
  rewrite Hc. unfold k. field. exact Hmx0.
Qed.

Lemma max3_bounds (a b c : Q) :
  let mx := Py.max (Py.max a b) c in
  a <= mx /\ b <= mx /\ c <= mx /\ (mx = a \/ mx = b \/ mx = c).
Proof.
  cbv zeta.
  destruct (max_cases a b) as [[-> ?]|[-> ?]];
    [destruct (max_cases a c) as [[-> ?]|[-> ?]]
    |destruct (max_cases b c) as [[-> ?]|[-> ?]]];
    repeat split; auto; lra.
Qed.

Lemma byte_unit (n : Z) :
  (0 <= n <= 255)%Z -> 0 <= inject_Z n / 255 <= 1.
Proof.
  intros [Hlo Hhi].
  assert (0 <= inject_Z n).
  { change 0 with (inject_Z 0). now rewrite <- Zle_Qle. }
  assert (inject_Z n <= 255).
  { change 255 with (inject_Z 255). now rewrite <- Zle_Qle. }
  split.
  - apply Qle_shift_div_l; lra.
  - apply Qle_shift_div_r; lra.
Qed.

(** C10.  For integer channels [r], [g], [b] between 0 and 255, converting
    to CMYK with [rgb_to_cmyk] and back with [cmyk_to_rgb] returns exactly
    the channels started from, over exact rationals with Python's
    rounding to the nearest integer. *)
Theorem rgb_cmyk_roundtrip (r g b : Z) :
  (0 <= r <= 255)%Z -> (0 <= g <= 255)%Z -> (0 <= b <= 255)%Z ->
  let cmyk := rgb_to_cmyk (inject_Z r) (inject_Z g) (inject_Z b) in
  cmyk_to_rgb (c cmyk) (m cmyk) (y cmyk) (k cmyk)
  = {| Lab1.r := r; Lab1.g := g; Lab1.b := b |}.
Proof.
  intros Hr Hg Hb. cbv zeta. unfold rgb_to_cmyk.
  pose proof (byte_unit r Hr) as Hr1.
  pose proof (byte_unit g Hg) as Hg1.
  pose proof (byte_unit b Hb) as Hb1.
  set (r1 := inject_Z r / 255) in *.
  set (g1 := inject_Z g / 255) in *.
  set (b1 := inject_Z b / 255) in *.
  destruct (max3_bounds r1 g1 b1) as (Lr & Lg & Lb & Hmx).
  set (mx := Py.max (Py.max r1 g1) b1) in *.
  assert (Hmx1 : 0 <= mx <= 1)
    by (destruct Hmx as [->|[->| ->]]; assumption).
  assert (Hback : forall n : Z, 255 * (inject_Z n / 255) == inject_Z n).
  { intro n. field. }
  destruct (Qeq_bool (1 - mx) 1) eqn:Hk.
  - (* black: every channel is zero *)
    apply Qeq_bool_iff in Hk.
    assert (Hz : forall n : Z, 0 <= inject_Z n / 255 <= mx -> n = 0%Z).
    { intros n Hn. assert (E : inject_Z n == 0).
      { rewrite <- (Hback n). lra. }
      unfold Qeq in E. simpl in E. lia. }
    rewrite (Hz r), (Hz g), (Hz b) by (split; tauto).
    reflexivity.
  - apply Qeq_bool_neq in Hk.
    assert (Hpos : 0 < mx <= 1) by lra.
    cbn [c m y k]. unfold cmyk_to_rgb. f_equal.
    + apply round_integer. rewrite <- (Hback r).
      apply channel_roundtrip; [split; tauto|assumption].
    + apply round_integer. rewrite <- (Hback g).
      apply channel_roundtrip; [split; tauto|assumption].
    + apply round_integer. rewrite <- (Hback b).
      apply channel_roundtrip; [split; tauto|assumption].
Qed.

Lemma rgb_cmyk_roundtrip_orange :
  let cmyk := rgb_to_cmyk (inject_Z 228) (inject_Z 87) (inject_Z 46) in
  cmyk_to_rgb (c cmyk) (m cmyk) (y cmyk) (k cmyk)
  = {| r := 228; g := 87; b := 46 |}.
Proof. apply (rgb_cmyk_roundtrip 228 87 46); lia. Defined.

End Lab1_proofs.

(* ================================================================== *)
(** * Lab 3: Bresenham reaches the endpoint *)
(* ================================================================== *)

Module Lab3_proofs.
Import Lab3 Lab3Spec.
Local Open Scope Z_scope.

Section Loop.
Variables x1 y1 dx dy sx sy : Z.
Hypothesis sx_unit : sx = 1 \/ sx = -1.
Hypothesis sy_unit : sy = 1 \/ sy = -1.

(** From a state with [rx + ry] unit steps left, the loop stops within
    [rx + ry + 1] iterations, and what it appends starts at the current
    point and ends at the endpoint. *)
Lemma bresenham_loop_reaches :
  forall (fuel : nat) (rx ry x0 y0 err : Z) (pts : list Point),
    at_distance x1 y1 dx dy sx sy rx ry x0 y0 err ->
    (Z.to_nat (rx + ry) < fuel)%nat ->
    exists mid,
      bresenham_loop fuel x1 y1 dx dy sx sy x0 y0 err pts
      = Some (pts ++ (x0, y0) :: mid) /\
      exists init, (x0, y0) :: mid = init ++ [(x1, y1)].
Proof.
  induction fuel as [|fuel IH]; intros rx ry x0 y0 err pts Hinv Hfuel.
  - lia.
  - destruct Hinv as (Hrx & Hry & Hx & Hy & Herr).
    cbn [bresenham_loop].
    destruct ((x0 =? x1) && (y0 =? y1)) eqn:Hend.
    + apply andb_true_iff in Hend as [Ex Ey].
      apply Z.eqb_eq in Ex, Ey. subst x0 y0.
      exists []. split; [reflexivity | now exists []].
    + assert (Hpos : 0 < rx \/ 0 < ry).
      { apply andb_false_iff in Hend as [E|E]; apply Z.eqb_neq in E; nia. }
      destruct (2 * err >? - dy) eqn:Hx2; destruct (2 * err <? dx) eqn:Hy2;
        rewrite Z.gtb_ltb in Hx2;
        rewrite ?Z.ltb_lt, ?Z.ltb_ge in Hx2, Hy2.
      * (* a diagonal step *)
        assert (0 < rx) by nia.
        assert (0 < ry) by nia.
        destruct (IH (rx - 1) (ry - 1) (x0 + sx) (y0 + sy)
                     (err - dy + dx) (pts ++ [(x0, y0)]))
          as (mid & Hrun & init & Hlast).
        { unfold at_distance. repeat split; try lia; nia. }
        { lia. }
        exists ((x0 + sx, y0 + sy) :: mid). split.
        -- rewrite Hrun, <- app_assoc. reflexivity.
        -- exists ((x0, y0) :: init). now rewrite Hlast.
      * (* a horizontal step *)
        assert (0 < rx) by nia.
        destruct (IH (rx - 1) ry (x0 + sx) y0 (err - dy)
                     (pts ++ [(x0, y0)]))
          as (mid & Hrun & init & Hlast).
        { unfold at_distance. repeat split; try lia; nia. }
        { lia. }
        exists ((x0 + sx, y0) :: mid). split.
        -- rewrite Hrun, <- app_assoc. reflexivity.
        -- exists ((x0, y0) :: init). now rewrite Hlast.
      * (* a vertical step *)
        assert (0 < ry) by nia.
        destruct (IH rx (ry - 1) x0 (y0 + sy) (err + dx)
                     (pts ++ [(x0, y0)]))
          as (mid & Hrun & init & Hlast).
        { unfold at_distance. repeat split; try lia; nia. }
        { lia. }
        exists ((x0, y0 + sy) :: mid). split.
        -- rewrite Hrun, <- app_assoc. reflexivity.
        -- exists ((x0, y0) :: init). now rewrite Hlast.
      * (* the loop cannot stall *)
        exfalso. nia.
Qed.
End Loop.

(** More fuel does not change a result. *)
Lemma bresenham_loop_fuel (x1 y1 dx dy sx sy : Z) :
  forall (n m : nat) (x0 y0 err : Z) (pts out : list Point),
    bresenham_loop n x1 y1 dx dy sx sy x0 y0 err pts = Some out ->
    (n <= m)%nat ->
    bresenham_loop m x1 y1 dx dy sx sy x0 y0 err pts = Some out.
Proof.
  induction n as [|n IH]; intros m x0 y0 err pts out Hrun Hle;
    [discriminate|].
  destruct m as [|m]; [lia|]. cbn [bresenham_loop] in *.
  destruct ((x0 =? x1) && (y0 =? y1)); [assumption|].
  destruct (2 * err >? - dy), (2 * err <? dx);
    (apply IH; [assumption|lia]).
Qed.

Lemma bresenham_line_reaches (p0 p1 : Point) :
  exists mid,
    bresenham_line (enough_fuel p0 p1) p0 p1 = Some (p0 :: mid) /\
    exists init, p0 :: mid = init ++ [p1].
Proof.
  destruct p0 as [x0 y0], p1 as [x1 y1].
  unfold enough_fuel, bresenham_line. cbn [fst snd].
  set (dx := Z.abs (x1 - x0)). set (dy := Z.abs (y1 - y0)).
  set (sx := if x0 <? x1 then 1 else -1).
  set (sy := if y0 <? y1 then 1 else -1).
  assert (Hsx : sx = 1 \/ sx = -1) by (subst sx; destruct (x0 <? x1); auto).
  assert (Hsy : sy = 1 \/ sy = -1) by (subst sy; destruct (y0 <? y1); auto).
  apply (bresenham_loop_reaches x1 y1 dx dy sx sy Hsx Hsy
           (S (Z.to_nat (dx + dy))) dx dy x0 y0 (dx - dy) []); [|lia].
  unfold at_distance. subst dx dy sx sy.
  destruct (x0 <? x1) eqn:Ex; destruct (y0 <? y1) eqn:Ey;
    rewrite ?Z.ltb_lt, ?Z.ltb_ge in Ex, Ey;
    repeat split; lia.
Qed.

(** C7.  For all integer endpoints the loop of [bresenham_line] stops:
    any fuel of at least [|dx| + |dy| + 1] iterations gives one and the
    same point list, which starts with [p0] and ends with [p1]; and the
    line from (0,0) to (5,0) is exactly the six points (0,0) .. (5,0),
    without repetition. *)
Theorem bresenham_line_endpoints :
  (forall p0 p1 : Point,
      exists pts : list Point,
        (forall fuel, (enough_fuel p0 p1 <= fuel)%nat ->
                      bresenham_line fuel p0 p1 = Some pts) /\
        (exists rest, pts = p0 :: rest) /\
        (exists init, pts = init ++ [p1])) /\
  (forall fuel, (6 <= fuel)%nat ->
                bresenham_line fuel (0, 0) (5, 0)
                = Some [(0, 0); (1, 0); (2, 0); (3, 0); (4, 0); (5, 0)]) /\
  NoDup [(0, 0); (1, 0); (2, 0); (3, 0); (4, 0); (5, 0)].
Proof.
  assert (Hmono : forall p0 p1 n m out,
             bresenham_line n p0 p1 = Some out -> (n <= m)%nat ->
             bresenham_line m p0 p1 = Some out).
  { intros [x0 y0] [x1 y1] n m out. unfold bresenham_line.
    apply bresenham_loop_fuel. }
  split; [|split].
  - intros p0 p1.
    destruct (bresenham_line_reaches p0 p1) as (mid & Hrun & Hlast).
    exists (p0 :: mid). split; [|split; [now exists mid | exact Hlast]].
    intros fuel Hfuel. exact (Hmono _ _ _ _ _ Hrun Hfuel).
  - intros fuel Hfuel. apply (Hmono _ _ 6%nat); [reflexivity|exact Hfuel].
  - repeat constructor; cbn; intuition congruence.
Qed.

End Lab3_proofs.

(* ================================================================== *)
(** * Lab 4: clipping *)
(* ================================================================== *)

Module Lab4_proofs.
Import Lab4 PyFacts.
Local Open Scope Q_scope.

(** ** Liang-Barsky *)

(** C1.  What [liang_barsky] returns on the two segments of the claim:
    the diagonal (0,0)-(10,10) against (2,2,8,8), which crosses the
    rectangle, is rejected, as is (-5,-5)-(-1,-1) against (0,0,10,10),
    which lies outside of it. *)
Theorem liang_barsky_on_examples :
  liang_barsky (2, 2, 8, 8) (0, 0, 10, 10) = None /\
  liang_barsky (0, 0, 10, 10) (-5, -5, -1, -1) = None.
Proof. split; reflexivity. Qed.

(** With the textbook parameter [qi / pi] both segments come out as the
    claim has them. *)
Lemma liang_barsky_textbook_on_examples :
  (exists s, liang_barsky_textbook (2, 2, 8, 8) (0, 0, 10, 10) = Some s
             /\ seg_eq s (2, 2, 8, 8)) /\
  liang_barsky_textbook (0, 0, 10, 10) (-5, -5, -1, -1) = None.
Proof.
  split; [|reflexivity].
  eexists. split; [reflexivity|]. cbv. repeat split.
Qed.

(** The rejection is not particular to the diagonal: a segment that
    starts strictly inside the rectangle and is not vertical is always
    rejected. *)
Lemma liang_barsky_rejects_from_inside
      (xmin ymin xmax ymax x0 y0 x1 y1 : Q) :
  xmin < x0 -> x0 < xmax -> ~ x1 == x0 ->
  liang_barsky (xmin, ymin, xmax, ymax) (x0, y0, x1, y1) = None.
Proof.
  intros Hlo Hhi Hdx. unfold liang_barsky.
  cbn [combine liang_barsky_loop].
  assert (Hz : forall a, ~ a == 0 -> Qeq_bool a 0 = false).
  { intros a Ha. destruct (Qeq_bool a 0) eqn:E; [|reflexivity].
    apply Qeq_bool_iff in E. contradiction. }
  rewrite (Hz (- (x1 - x0))) by lra.
  rewrite (Hz (x1 - x0)) by lra.
  destruct (Py.Qltb (- (x1 - x0)) 0) eqn:Hdir.
  - (* left to right: the right edge empties the interval *)
    apply Qltb_lt in Hdir.
    destruct (Py.Qltb 1 (Py.max 0 (- (x0 - xmin) / - (x1 - x0)))); [reflexivity|].
    assert (Hneg : Py.Qltb (x1 - x0) 0 = false) by (apply Qltb_ge; lra).
    rewrite Hneg.
    assert (Ht : - (xmax - x0) / (x1 - x0) < 0).
    { apply Qlt_shift_div_r; lra. }
    assert (Hu1 : 0 <= Py.max 0 (- (x0 - xmin) / - (x1 - x0))).
    { destruct (max_cases 0 (- (x0 - xmin) / - (x1 - x0))) as [[-> _]|[-> ?]]; lra. }
    assert (Hu2 : Py.min 1 (- (xmax - x0) / (x1 - x0)) < 0).
    { destruct (min_cases 1 (- (xmax - x0) / (x1 - x0))) as [[-> ?]|[-> _]]; lra. }
    assert (Hcut : Py.Qltb (Py.min 1 (- (xmax - x0) / (x1 - x0)))
                           (Py.max 0 (- (x0 - xmin) / - (x1 - x0))) = true).
    { apply Qltb_lt. lra. }
    now rewrite Hcut.
  - (* right to left: the left edge empties the interval *)
    apply Qltb_ge in Hdir.
    assert (Ht : - (x0 - xmin) / - (x1 - x0) < 0).
    { apply Qlt_shift_div_r; lra. }
    assert (Hu2 : Py.min 1 (- (x0 - xmin) / - (x1 - x0)) < 0).
    { destruct (min_cases 1 (- (x0 - xmin) / - (x1 - x0))) as [[-> ?]|[-> _]]; lra. }
    assert (Hcut : Py.Qltb (Py.min 1 (- (x0 - xmin) / - (x1 - x0))) 0 = true).
    { apply Qltb_lt. exact Hu2. }
    now rewrite Hcut.
Qed.

(** ** Sutherland-Hodgman *)

Lemma qdiv_defined (a b : Q) : ~ b == 0 -> div a b = Some (a / b).
Proof.
  intro Hb. unfold div. destruct (Qeq_bool b 0) eqn:E; [|reflexivity].
  apply Qeq_bool_iff in E. contradiction.
Qed.

Lemma Qle_bool_differs_l (a u v : Q) :
  Qle_bool a u <> Qle_bool a v -> ~ v - u == 0.
Proof.
  intros Hne Hz. apply Hne.
  assert (E : u == v) by lra.
  destruct (Qle_bool a u) eqn:E1, (Qle_bool a v) eqn:E2; try reflexivity.
  - apply Qle_bool_iff in E1. rewrite E in E1. apply Qle_bool_iff in E1.
    congruence.
  - apply Qle_bool_iff in E2. rewrite <- E in E2. apply Qle_bool_iff in E2.
    congruence.
Qed.

Lemma Qle_bool_differs_r (a u v : Q) :
  Qle_bool u a <> Qle_bool v a -> ~ v - u == 0.
Proof.
  intros Hne Hz. apply Hne.
  assert (E : u == v) by lra.
  destruct (Qle_bool u a) eqn:E1, (Qle_bool v a) eqn:E2; try reflexivity.
  - apply Qle_bool_iff in E1. rewrite E in E1. apply Qle_bool_iff in E1.
    congruence.
  - apply Qle_bool_iff in E2. rewrite <- E in E2. apply Qle_bool_iff in E2.
    congruence.
Qed.

(** [intersect] is only called for two points on different sides of the
    edge, and there its divisor is not zero. *)
Lemma intersect_defined (rect : Rect) (p1 p2 : Point) (edge : Edge) :
  inside rect p1 edge <> inside rect p2 edge ->
  exists x, intersect rect p1 p2 edge = Some x.
Proof.
  destruct rect as [[[xmin ymin] xmax] ymax], p1 as [x1 y1], p2 as [x2 y2].
  intro Hside. unfold intersect.
  destruct (Qeq_bool x1 x2 && Qeq_bool y1 y2); [now eexists|].
  destruct edge; cbn [inside] in Hside;
    (rewrite qdiv_defined
      by eauto using Qle_bool_differs_l, Qle_bool_differs_r);
    cbn [Py.bind]; now eexists.
Qed.

Lemma clip_step_defined (rect : Rect) (poly : list Point) (edge : Edge)
      (out : list Point) (i : nat) :
  (i < length poly)%nat ->
  exists out', clip_step rect poly edge out i = Some out'.
Proof.
  intro Hi. unfold clip_step.
  rewrite index_nonneg, index_pred by assumption.
  set (j := if Nat.eqb i 0 then _ else _).
  assert (Hj : (j < length poly)%nat)
    by (subst j; destruct (Nat.eqb i 0); lia).
  destruct (nth_error poly i) as [cur|] eqn:Ecur;
    [|apply nth_error_None in Ecur; lia].
  destruct (nth_error poly j) as [prev|] eqn:Eprev;
    [|apply nth_error_None in Eprev; lia].
  cbn [Py.bind].
  destruct (inside rect cur edge) eqn:Hc, (inside rect prev edge) eqn:Hp;
    cbn [negb Py.bind]; try now eexists.
  - destruct (intersect_defined rect prev cur edge) as [x ->]; [congruence|].
    cbn [Py.bind]. now eexists.
  - destruct (intersect_defined rect prev cur edge) as [x ->]; [congruence|].
    cbn [Py.bind]. now eexists.
Qed.

(** A pass never raises. *)
Lemma clip_defined (rect : Rect) (poly : list Point) (edge : Edge) :
  exists out, clip rect poly edge = Some out.
Proof.
  unfold clip. destruct poly as [|p poly]; [now eexists|].
  destruct (for_each_invariant (fun _ => True)
              (seq 0 (length (p :: poly)))
              (clip_step rect (p :: poly) edge)) with (acc := @nil Point)
    as (r & Hr & _); [|exact I|now exists r].
  intros acc i Hi _. apply in_seq in Hi.
  destruct (clip_step_defined rect (p :: poly) edge acc i) as [o Ho]; [lia|].
  now exists o.
Qed.

(** A pass that finds every vertex outside its edge returns the empty
    polygon. *)
Lemma clip_all_outside (rect : Rect) (poly : list Point) (edge : Edge) :
  (forall p, In p poly -> inside rect p edge = false) ->
  clip rect poly edge = Some [].
Proof.
  intro Hout. unfold clip. destruct poly as [|p poly]; [reflexivity|].
  destruct (for_each_invariant (fun out => out = [])
              (seq 0 (length (p :: poly)))
              (clip_step rect (p :: poly) edge)) with (acc := @nil Point)
    as (r & Hr & ->); [|reflexivity|exact Hr].
  intros acc i Hi ->. apply in_seq in Hi. exists []. split; [|reflexivity].
  unfold clip_step.
  rewrite index_nonneg, index_pred by lia.
  set (j := if Nat.eqb i 0 then _ else _).
  assert (Hj : (j < length (p :: poly))%nat)
    by (subst j; destruct (Nat.eqb i 0); cbn [length] in *; lia).
  destruct (nth_error (p :: poly) i) as [cur|] eqn:Ecur;
    [|apply nth_error_None in Ecur; lia].
  destruct (nth_error (p :: poly) j) as [prev|] eqn:Eprev;
    [|apply nth_error_None in Eprev; lia].
  cbn [Py.bind].
  rewrite (Hout cur) by (eapply nth_error_In; eassumption).
  rewrite (Hout prev) by (eapply nth_error_In; eassumption).
  reflexivity.
Qed.

(** C8.  [sutherland_hodgman] never raises and is the four passes left,
    right, bottom, top, each applied to the polygon the previous one
    returned; a pass that finds all vertices of its polygon outside its
    edge returns the empty list, and once a pass has returned the empty
    list so does the function; the square (0,0),(10,0),(10,10),(0,10)
    clipped against (2,2,8,8) is the square (2,2),(8,2),(8,8),(2,8) read
    from another starting vertex. *)
Theorem sutherland_hodgman_passes :
  (forall (subject : list Point) (rect : Rect),
      exists p1 p2 p3 p4,
        clip rect subject left = Some p1 /\
        clip rect p1 right = Some p2 /\
        clip rect p2 bottom = Some p3 /\
        clip rect p3 top = Some p4 /\
        sutherland_hodgman subject rect = Some p4 /\
        (subject = [] \/ p1 = [] \/ p2 = [] \/ p3 = [] -> p4 = [])) /\
  (forall (rect : Rect) (poly : list Point) (edge : Edge),
      (forall p, In p poly -> inside rect p edge = false) ->
      clip rect poly edge = Some []) /\
  (exists res square,
      sutherland_hodgman [(0, 0); (10, 0); (10, 10); (0, 10)] (2, 2, 8, 8)
      = Some res /\
      Forall2 pt_eq res square /\
      rotation_of square [(2, 2); (8, 2); (8, 8); (2, 8)]).
Proof.
  split; [|split].
  - intros subject rect.
    destruct (clip_defined rect subject left) as [p1 H1].
    destruct (clip_defined rect p1 right) as [p2 H2].
    destruct (clip_defined rect p2 bottom) as [p3 H3].
    destruct (clip_defined rect p3 top) as [p4 H4].
    exists p1, p2, p3, p4. repeat split; try assumption.
    + unfold sutherland_hodgman. cbn [Py.for_each].
      rewrite H1. cbn [Py.bind]. rewrite H2. cbn [Py.bind].
      rewrite H3. cbn [Py.bind]. rewrite H4. reflexivity.
    + assert (Hnil : forall e, clip rect [] e = Some [])
        by reflexivity.
      intros [->|[->|[->| ->]]].
      * rewrite Hnil in H1. injection H1 as <-.
        rewrite Hnil in H2. injection H2 as <-.
        rewrite Hnil in H3. injection H3 as <-.
        rewrite Hnil in H4. now injection H4 as <-.
      * rewrite Hnil in H2. injection H2 as <-.
        rewrite Hnil in H3. injection H3 as <-.
        rewrite Hnil in H4. now injection H4 as <-.
      * rewrite Hnil in H3. injection H3 as <-.
        rewrite Hnil in H4. now injection H4 as <-.
      * rewrite Hnil in H4. now injection H4 as <-.
  - exact clip_all_outside.
  - eexists. exists [(2, 8); (2, 2); (8, 2); (8, 8)].
    split; [vm_compute; reflexivity|]. split.
    + repeat constructor.
    + exists 3%nat. reflexivity.
Qed.

End Lab4_proofs.

(* ================================================================== *)
(** * Lab 5: vector primitives *)
(* ================================================================== *)

Module Lab5_vectors.
Import Lab5 Lab5Spec.
Local Open Scope R_scope.

Lemma sum_squares_nonneg (x y z : R) : 0 <= x * x + y * y + z * z.
Proof. nra. Qed.

Lemma sum_squares_zero (x y z : R) :
  x * x + y * y + z * z = 0 -> x = 0 /\ y = 0 /\ z = 0.
Proof. intro H. repeat split; nra. Qed.

Lemma math_sqrt_sum_squares (x y z : R) :
  math_sqrt (x * x + y * y + z * z) = Some (sqrt (x * x + y * y + z * z)).
Proof.
  unfold math_sqrt. destruct (Rlt_dec _ 0) as [H|H]; [|reflexivity].
  pose proof (sum_squares_nonneg x y z). lra.
Qed.

Lemma rdiv_defined (a b : R) : b <> 0 -> div a b = Some (a / b).
Proof.
  intro H. unfold div. destruct (Req_dec_T b 0); [contradiction|reflexivity].
Qed.

(** [normal] never raises: the square root is of a sum of squares and the
    divisor is never zero. *)
Lemma normal_closed_form (a b c : Vec3) :
  let '(nx, ny, nz) := edge_cross a b c in
  let s := norm (edge_cross a b c) in
  let len := if Req_dec_T s 0 then 1 else s in
  normal a b c = Some (nx / len, ny / len, nz / len).
Proof.
  destruct a as [[a0 a1] a2], b as [[b0 b1] b2], c as [[c0 c1] c2].
  cbn [edge_cross norm]. unfold normal.
  rewrite math_sqrt_sum_squares. cbn [Py.bind].
  set (s := sqrt _).
  assert (Hlen : (if Req_dec_T s 0 then 1 else s) <> 0).
  { destruct (Req_dec_T s 0); lra. }
  rewrite !rdiv_defined by exact Hlen. reflexivity.
Qed.

Lemma normal_defined (a b c : Vec3) : exists n, normal a b c = Some n.
Proof.
  pose proof (normal_closed_form a b c) as H.
  destruct (edge_cross a b c) as [[nx ny] nz]. cbv zeta in H.
  eexists. exact H.
Qed.

Lemma normal_of_zero_cross (a b c : Vec3) :
  norm (edge_cross a b c) = 0 -> normal a b c = Some (0, 0, 0).
Proof.
  pose proof (normal_closed_form a b c) as Hn.
  destruct (edge_cross a b c) as [[nx ny] nz] eqn:Ecross.
  cbv zeta in Hn. intro Hz. rewrite Hn.
  destruct (Req_dec_T _ 0) as [_|Hne]; [|contradiction].
  cbn [norm] in Hz. apply sqrt_eq_0 in Hz; [|apply sum_squares_nonneg].
  apply sum_squares_zero in Hz as (-> & -> & ->).
  do 3 f_equal; lra.
Qed.

Lemma normal_of_nonzero_cross (a b c : Vec3) :
  norm (edge_cross a b c) <> 0 ->
  exists n, normal a b c = Some n /\ norm n = 1 /\
            n = scale (edge_cross a b c) (/ norm (edge_cross a b c)).
Proof.
  pose proof (normal_closed_form a b c) as Hn.
  destruct (edge_cross a b c) as [[nx ny] nz] eqn:Ecross.
  cbv zeta in Hn. intro Hnz. rewrite Hn.
  destruct (Req_dec_T _ 0) as [Hz|_]; [contradiction|].
  eexists. split; [reflexivity|]. split.
  - cbn [norm] in *. set (s := sqrt _) in *.
    assert (Hs : s * s = nx * nx + ny * ny + nz * nz).
    { apply sqrt_sqrt, sum_squares_nonneg. }
    replace (nx / s * (nx / s) + ny / s * (ny / s) + nz / s * (nz / s))
      with 1.
    + apply sqrt_1.
    + rewrite <- (Rinv_r (s * s)) at 1 by nra. rewrite Hs at 1.
      field. exact Hnz.
  - cbn [scale]. reflexivity.
Qed.

(** C3, as the code has it.  [normal] never raises.  When the cross
    product of [b - a] and [c - a] has length zero it returns the zero
    vector (0,0,0); otherwise it returns that cross product divided by
    its length, a vector of length one. *)
Theorem normal_degenerate_or_unit (a b c : Vec3) :
  (norm (edge_cross a b c) = 0 -> normal a b c = Some (0, 0, 0)) /\
  (norm (edge_cross a b c) <> 0 ->
   exists n, normal a b c = Some n /\ norm n = 1 /\
             n = scale (edge_cross a b c) (/ norm (edge_cross a b c))).
Proof.
  split; [apply normal_of_zero_cross | apply normal_of_nonzero_cross].
Qed.

(** The collinear points (0,0,0), (1,0,0), (2,0,0): the cross product
    has length zero and [normal] returns (0,0,0), not (0,0,1). *)
Lemma normal_collinear_is_zero :
  norm (edge_cross (0, 0, 0) (1, 0, 0) (2, 0, 0)) = 0 /\
  normal (0, 0, 0) (1, 0, 0) (2, 0, 0) = Some (0, 0, 0) /\
  normal (0, 0, 0) (1, 0, 0) (2, 0, 0) <> Some (0, 0, 1).
Proof.
  assert (Hz : norm (edge_cross (0, 0, 0) (1, 0, 0) (2, 0, 0)) = 0).
  { cbn [edge_cross norm]. rewrite <- sqrt_0. f_equal. lra. }
  assert (Hn : normal (0, 0, 0) (1, 0, 0) (2, 0, 0) = Some (0, 0, 0)).
  { apply normal_of_zero_cross. exact Hz. }
  repeat split; [exact Hz|exact Hn|].
  rewrite Hn. intro H. injection H as H. lra.
Qed.

(** The triangle (0,0,0), (1,0,0), (0,1,0) has the unit normal (0,0,1). *)
Lemma normal_of_xy_triangle :
  exists n, normal (0, 0, 0) (1, 0, 0) (0, 1, 0) = Some n /\ norm n = 1 /\
            n = scale (edge_cross (0, 0, 0) (1, 0, 0) (0, 1, 0))
                      (/ norm (edge_cross (0, 0, 0) (1, 0, 0) (0, 1, 0))).
Proof.
  apply (normal_degenerate_or_unit (0, 0, 0) (1, 0, 0) (0, 1, 0)).
  cbn [edge_cross norm].
  match goal with |- sqrt ?e <> 0 => replace e with 1 by lra end.
  rewrite sqrt_1. lra.
Defined.

Lemma project_norm (v : Vec3) (a : R) : norm (project v a) = norm v.
Proof.
  destruct v as [[x y] z]. cbn [project norm].
  f_equal. pose proof (sin2_cos2 a) as H. unfold Rsqr in H.
  replace (x * x + y * y + z * z)
    with ((x * x + z * z) * (sin a * sin a + cos a * cos a) + y * y)
    by (rewrite H; ring).
  ring.
Qed.

(** C9.  [project] keeps the second component and the Euclidean length
    of every vector, for every angle. *)
Theorem project_rigid (v : Vec3) (a : R) :
  snd (fst (project v a)) = snd (fst v) /\ norm (project v a) = norm v.
Proof.
  destruct v as [[x y] z]. cbn [project fst snd norm].
  split; [reflexivity|].
  f_equal. pose proof (sin2_cos2 a) as H. unfold Rsqr in H.
  replace (x * x + y * y + z * z)
    with ((x * x + z * z) * (sin a * sin a + cos a * cos a) + y * y)
    by (rewrite H; ring).
  ring.
Qed.

Lemma rotate_sequential (v : Vec3) (rx ry rz : R) :
  rotate v rx ry rz = rotate_z (rotate_y (rotate_x v rx) ry) rz.
Proof. destruct v as [[x y] z]. reflexivity. Qed.

End Lab5_vectors.

(* ================================================================== *)
(** * Lab 5: the stable descending sort *)
(* ================================================================== *)

Module Lab5_sort.
Import Lab5 Lab5Spec.
Local Open Scope R_scope.

Section Perm.
Context {A : Type} (key : A -> R).

Lemma insert_reverse_perm (x : A) (l : list A) :
  Permutation (insert_reverse key x l) (x :: l).
Proof.
  induction l as [|y l IH]; cbn [insert_reverse]; [reflexivity|].
  destruct (Rlt_dec (key x) (key y)); [|reflexivity].
  rewrite IH. apply perm_swap.
Qed.

Lemma sort_reverse_perm (l : list A) : Permutation (sort_reverse key l) l.
Proof.
  induction l as [|x l IH]; cbn [sort_reverse]; [reflexivity|].
  rewrite insert_reverse_perm. now constructor.
Qed.
End Perm.

Section Stable.
Context {A : Type} (key : A -> R).

Lemma before_asym (p q : nat * A) : before key p q -> before key q p -> False.
Proof. unfold before. intros [H|[H H']] [G|[G G']]; try lra; lia. Qed.

Lemma before_irrefl (p : nat * A) : ~ before key p p.
Proof. intro H. exact (before_asym p p H H). Qed.

Lemma insert_reverse_sorted (x : nat * A) (s : list (nat * A)) :
  StronglySorted (before key) s ->
  Forall (fun y => (fst x < fst y)%nat) s ->
  StronglySorted (before key) (insert_reverse (tkey key) x s).
Proof.
  induction 1 as [|y s Hs IH Hy]; intro Htag; cbn [insert_reverse].
  - constructor; constructor.
  - inversion Htag as [|? ? Hxy Hxs]; subst.
    destruct (Rlt_dec (tkey key x) (tkey key y)) as [Hlt|Hge].
    + constructor; [now apply IH|].
      rewrite insert_reverse_perm. constructor; [|assumption].
      left. unfold tkey in Hlt. lra.
    + assert (Hbxy : before key x y).
      { unfold before, tkey in *.
        destruct (Rtotal_order (key (snd x)) (key (snd y))) as [?|[?|?]];
          [lra|right; split; assumption|left; lra]. }
      constructor; [now constructor|].
      constructor; [assumption|].
      rewrite Forall_forall in *. intros z Hz.
      specialize (Hy z Hz). specialize (Hxs z Hz).
      unfold before, tkey in *.
      destruct Hy as [?|[? ?]]; destruct Hbxy as [?|[? ?]];
        try (left; lra). right. split; [lra|assumption].
Qed.

Lemma sort_reverse_sorted (l : list (nat * A)) :
  StronglySorted (fun p q => (fst p < fst q)%nat) l ->
  StronglySorted (before key) (sort_reverse (tkey key) l).
Proof.
  induction 1 as [|x l Hl IH Hx]; cbn [sort_reverse]; [constructor|].
  apply insert_reverse_sorted; [assumption|].
  rewrite Forall_forall in *. intros y Hy. apply Hx.
  eapply Permutation_in; [apply sort_reverse_perm|exact Hy].
Qed.

(** The sort looks at keys only: tags ride along. *)
Lemma insert_reverse_untag (x : nat * A) (s : list (nat * A)) :
  map snd (insert_reverse (tkey key) x s)
  = insert_reverse key (snd x) (map snd s).
Proof.
  induction s as [|y s IH]; cbn [insert_reverse map]; [reflexivity|].
  unfold tkey at 1 2. destruct (Rlt_dec (key (snd x)) (key (snd y))).
  - cbn [map]. now rewrite IH.
  - reflexivity.
Qed.

Lemma sort_reverse_untag (l : list (nat * A)) :
  map snd (sort_reverse (tkey key) l) = sort_reverse key (map snd l).
Proof.
  induction l as [|x l IH]; cbn [sort_reverse map]; [reflexivity|].
  now rewrite insert_reverse_untag, IH.
Qed.

Lemma StronglySorted_nth (R' : nat * A -> nat * A -> Prop)
      (l : list (nat * A)) :
  StronglySorted R' l ->
  forall i j p q, (i < j)%nat -> nth_error l i = Some p ->
                  nth_error l j = Some q -> R' p q.
Proof.
  induction 1 as [|x l Hl IH Hx]; intros i j p q Hij Hp Hq.
  - destruct i; discriminate.
  - destruct j as [|j]; [lia|]. cbn [nth_error] in Hq.
    destruct i as [|i]; cbn [nth_error] in Hp.
    + injection Hp as <-. rewrite Forall_forall in Hx.
      apply Hx. eapply nth_error_In; eassumption.
    + apply (IH i j); [lia|assumption|assumption].
Qed.

Lemma tagged_from_sorted (l : list A) (n : nat) :
  StronglySorted (fun p q : nat * A => (fst p < fst q)%nat)
                 (combine (seq n (length l)) l).
Proof.
  revert n. induction l as [|x l IH]; intro n; cbn [length seq combine];
    constructor; [apply IH|].
  rewrite Forall_forall. intros [k y] Hin. apply in_combine_l in Hin.
  apply in_seq in Hin. cbn [fst]. lia.
Qed.

Lemma tagged_from_lookup (l : list A) (n : nat) (p : nat * A) :
  In p (combine (seq n (length l)) l) ->
  (n <= fst p)%nat /\ nth_error l (fst p - n) = Some (snd p).
Proof.
  revert n. induction l as [|x l IH]; intros n Hin;
    cbn [length seq combine] in Hin.
  - contradiction.
  - destruct Hin as [<-|Hin].
    + cbn [fst snd]. rewrite Nat.sub_diag. split; [lia|reflexivity].
    + apply IH in Hin as [Hle Hnth]. split; [lia|].
      replace (fst p - n)%nat with (S (fst p - S n)) by lia. exact Hnth.
Qed.

Lemma tagged_map_snd (l : list A) (n : nat) :
  map snd (combine (seq n (length l)) l) = l.
Proof.
  revert n. induction l as [|x l IH]; intro n;
    cbn [length seq combine map]; [reflexivity|now rewrite IH].
Qed.

Lemma tagged_map_fst (l : list A) (n : nat) :
  map fst (combine (seq n (length l)) l) = seq n (length l).
Proof.
  revert n. induction l as [|x l IH]; intro n;
    cbn [length seq combine map]; [reflexivity|now rewrite IH].
Qed.

(** The stable descending sort, as a reordering of positions. *)
Lemma sort_reverse_order (l : list A) :
  exists order : list nat,
    Permutation order (seq 0 (length l)) /\
    Forall2 (fun p x => nth_error l p = Some x) order (sort_reverse key l) /\
    forall i j p q x z,
      nth_error order i = Some p -> nth_error order j = Some q ->
      nth_error l p = Some x -> nth_error l q = Some z ->
      key x > key z \/ (key x = key z /\ (p < q)%nat) ->
      (i < j)%nat.
Proof.
  set (ts := sort_reverse (tkey key) (tagged l)).
  assert (Hperm : Permutation ts (tagged l)) by apply sort_reverse_perm.
  assert (Hsorted : StronglySorted (before key) ts).
  { apply sort_reverse_sorted, tagged_from_sorted. }
  assert (Hlook : forall t, In t ts -> nth_error l (fst t) = Some (snd t)).
  { intros t Ht. eapply Permutation_in in Ht; [|exact Hperm].
    apply tagged_from_lookup in Ht as [_ Ht].
    now rewrite Nat.sub_0_r in Ht. }
  exists (map fst ts). split; [|split].
  - rewrite Hperm. unfold tagged. now rewrite tagged_map_fst.
  - replace (sort_reverse key l) with (map snd ts).
    + clear - Hlook. induction ts as [|t ts IH]; cbn [map]; constructor.
      * apply Hlook. now left.
      * apply IH. intros u Hu. apply Hlook. now right.
    + unfold ts. rewrite sort_reverse_untag. unfold tagged.
      now rewrite tagged_map_snd.
  - intros i j p q x z Hi Hj Hx Hz Hord.
    rewrite nth_error_map in Hi, Hj.
    destruct (nth_error ts i) as [ti|] eqn:Eti; [|discriminate].
    destruct (nth_error ts j) as [tj|] eqn:Etj; [|discriminate].
    cbn in Hi, Hj. injection Hi as <-. injection Hj as <-.
    pose proof (Hlook ti (nth_error_In _ _ Eti)) as Li.
    pose proof (Hlook tj (nth_error_In _ _ Etj)) as Lj.
    rewrite Hx in Li. rewrite Hz in Lj.
    injection Li as ->. injection Lj as ->.
    assert (Hb : before key ti tj) by exact Hord.
    destruct (Nat.lt_trichotomy i j) as [?|[->|Hji]]; [assumption| |].
    + exfalso. rewrite Eti in Etj. injection Etj as ->.
      exact (before_irrefl _ Hb).
    + exfalso. apply (before_asym ti tj Hb).
      eapply StronglySorted_nth; eassumption.
Qed.
End Stable.
End Lab5_sort.

(* ================================================================== *)
(** * Lab 5: mesh, transform, shading and drawing order *)
(* ================================================================== *)

Module Lab5_pipeline.
Import Lab5 Lab5Spec PyFacts Lab5_vectors Lab5_sort.
Local Open Scope R_scope.

Lemma fold_left_append_map {A B : Type} (f : A -> B) (l : list A) :
  forall acc, fold_left (fun out x => out ++ [f x]) l acc = acc ++ map f l.
Proof.
  induction l as [|x l IH]; intro acc; cbn [fold_left map].
  - now rewrite app_nil_r.
  - rewrite IH, <- app_assoc. reflexivity.
Qed.

Lemma transform_vertices_map (self : LetterApp) :
  transform_vertices self
  = map (fun v => project (model_vertex (transform self) v) (cam_angle self))
        (base_verts self).
Proof.
  unfold transform_vertices.
  exact (fold_left_append_map
           (fun v => project (model_vertex (transform self) v)
                             (cam_angle self))
           (base_verts self) []).
Qed.

Lemma project_camera_turn (v : Vec3) (a : R) : project v a = camera_turn a v.
Proof. destruct v as [[x y] z]. reflexivity. Qed.

Lemma model_vertex_model_space (t : Transform.t) (v : Vec3) :
  model_vertex t v = model_space t v.
Proof. destruct v as [[x y] z]. reflexivity. Qed.

Lemma transform_vertices_pipeline (self : LetterApp) :
  transform_vertices self
  = map (pipeline_vertex (transform self) (cam_angle self)) (base_verts self).
Proof.
  rewrite transform_vertices_map. apply map_ext. intro v.
  unfold pipeline_vertex.
  now rewrite project_camera_turn, model_vertex_model_space.
Qed.

Lemma index_map {A B : Type} (f : A -> B) (l : list A) (i : Z) :
  Py.index (map f l) i = option_map f (Py.index l i).
Proof.
  unfold Py.index. rewrite length_map.
  destruct (0 <=? i)%Z; [apply nth_error_map|].
  destruct (- Z.of_nat (length l) <=? i)%Z; [apply nth_error_map|reflexivity].
Qed.

Lemma vec3_eq (x y z x' y' z' : R) :
  x = x' -> y = y' -> z = z' -> (x, y, z) = (x', y', z').
Proof. now intros -> -> ->. Qed.

(** The camera turns cross products with the vectors. *)
Lemma edge_cross_project (a b c : Vec3) (angle : R) :
  edge_cross (project a angle) (project b angle) (project c angle)
  = project (edge_cross a b c) angle.
Proof.
  destruct a as [[a0 a1] a2], b as [[b0 b1] b2], c as [[c0 c1] c2].
  cbn [edge_cross project].
  pose proof (sin2_cos2 angle) as H. unfold Rsqr in H.
  apply vec3_eq; try ring.
  transitivity (((b2 - a2) * (c0 - a0) - (b0 - a0) * (c2 - a2))
                * (sin angle * sin angle + cos angle * cos angle));
    [ring | rewrite H; ring].
Qed.

Lemma normal_project (a b c : Vec3) (angle : R) :
  normal (project a angle) (project b angle) (project c angle)
  = option_map (fun n => project n angle) (normal a b c).
Proof.
  pose proof (normal_closed_form (project a angle) (project b angle)
                                 (project c angle)) as HL.
  pose proof (normal_closed_form a b c) as HR.
  rewrite edge_cross_project in HL.
  pose proof (project_norm (edge_cross a b c) angle) as Hnorm.
  rewrite Hnorm in HL.
  destruct (edge_cross a b c) as [[nx ny] nz].
  cbn [project] in HL. cbv zeta in HL, HR. rewrite HL, HR.
  cbn [option_map project].
  set (len := if Req_dec_T _ 0 then 1 else _).
  assert (Hlen : len <> 0) by (subst len; destruct (Req_dec_T _ 0); lra).
  apply f_equal. apply vec3_eq; field; exact Hlen.
Qed.

Lemma face_normal_camera (self : LetterApp) (face : Face) (a b c : Vec3) :
  (3 <= length face)%nat ->
  Py.index (base_verts self) (nth 0 face 0%Z) = Some a ->
  Py.index (base_verts self) (nth 1 face 0%Z) = Some b ->
  Py.index (base_verts self) (nth 2 face 0%Z) = Some c ->
  let t := transform self in
  let angle := cam_angle self in
  face_normal (transform_vertices self) face
  = normal (project (model_vertex t a) angle)
           (project (model_vertex t b) angle)
           (project (model_vertex t c) angle).
Proof.
  intros Hlen Ha Hb Hc t angle. unfold face_normal.
  apply Nat.leb_le in Hlen. rewrite Hlen.
  rewrite transform_vertices_map, !index_map, Ha, Hb, Hc. reflexivity.
Qed.

Lemma normal_along_z (a b c : Vec3) (w : R) :
  edge_cross a b c = (0, 0, w) -> w <> 0 ->
  normal a b c = Some (0, 0, w / Rabs w).
Proof.
  intros Hcross Hw. pose proof (normal_closed_form a b c) as H.
  rewrite Hcross in H. cbv zeta in H. rewrite H. cbn [norm].
  replace (0 * 0 + 0 * 0 + w * w) with (Rsqr w) by (unfold Rsqr; ring).
  rewrite sqrt_Rsqr_abs.
  destruct (Req_dec_T (Rabs w) 0) as [Hz|_].
  - apply Rabs_no_R0 in Hw. contradiction.
  - apply f_equal. apply vec3_eq; field; now apply Rabs_no_R0.
Qed.

Lemma int_floor (x : R) (n : Z) :
  IZR n <= x < IZR n + 1 -> (0 <= n)%Z -> Py.int x = n.
Proof.
  intros [Hlo Hhi] Hn. unfold Py.int.
  assert (0 <= IZR n) by (apply IZR_le in Hn; exact Hn).
  destruct (Rle_dec 0 x) as [_|Hneg]; [|lra].
  symmetry. apply Int_part_spec. lra.
Qed.

Lemma shade_dark (n0 n1 n2 : R) :
  n0 * 0.5 + n1 * 0.7 + n2 * 1.0 <= 0.2 ->
  shade base_color (n0, n1, n2) default_light = "#2d1109"%string.
Proof.
  intro Hdot. unfold shade, default_light, base_color.
  set (d := n0 * 0.5 + n1 * 0.7 + n2 * 1.0) in *.
  assert (Hd : Py.maxR 0.2 (Py.minR 1.0 d) = 0.2).
  { unfold Py.maxR, Py.minR.
    destruct (Rlt_dec d 1.0); [|lra].
    destruct (Rlt_dec 0.2 d); [lra|reflexivity]. }
  rewrite Hd.
  rewrite (int_floor (IZR 228 * 0.2) 45) by (try lra; lia).
  rewrite (int_floor (IZR 87 * 0.2) 17) by (try lra; lia).
  rewrite (int_floor (IZR 46 * 0.2) 9) by (try lra; lia).
  reflexivity.
Qed.

Lemma shade_lit (n0 n1 n2 : R) :
  1.0 <= n0 * 0.5 + n1 * 0.7 + n2 * 1.0 ->
  shade base_color (n0, n1, n2) default_light = "#e4572e"%string.
Proof.
  intro Hdot. unfold shade, default_light, base_color.
  set (d := n0 * 0.5 + n1 * 0.7 + n2 * 1.0) in *.
  assert (Hd : Py.maxR 0.2 (Py.minR 1.0 d) = 1.0).
  { unfold Py.maxR, Py.minR.
    destruct (Rlt_dec d 1.0); [lra|].
    destruct (Rlt_dec 0.2 1.0); [reflexivity|lra]. }
  rewrite Hd.
  rewrite (int_floor (IZR 228 * 1.0) 228) by (try lra; lia).
  rewrite (int_floor (IZR 87 * 1.0) 87) by (try lra; lia).
  rewrite (int_floor (IZR 46 * 1.0) 46) by (try lra; lia).
  reflexivity.
Qed.

Lemma fold_minR_spec (rest : list R) :
  forall acc,
    let m := fold_left Py.minR rest acc in
    In m (acc :: rest) /\ Forall (fun x => m <= x) (acc :: rest).
Proof.
  induction rest as [|x rest IH]; intro acc; cbn [fold_left].
  - split; [now left|]. constructor; [lra|constructor].
  - destruct (IH (Py.minR acc x)) as [Hin Hall]. cbv zeta.
    inversion Hall as [|? ? Hacc Hrest]; subst.
    assert (Hm : Py.minR acc x <= acc /\ Py.minR acc x <= x
                 /\ (Py.minR acc x = acc \/ Py.minR acc x = x)).
    { unfold Py.minR. destruct (Rlt_dec x acc); lra. }
    split.
    + destruct Hin as [Hin|Hin]; [|right; now right].
      destruct Hm as (_ & _ & [E|E]); rewrite <- Hin, E; cbn; auto.
    + constructor; [lra|]. constructor; [lra|assumption].
Qed.

Lemma fold_maxR_spec (rest : list R) :
  forall acc,
    let m := fold_left Py.maxR rest acc in
    In m (acc :: rest) /\ Forall (fun x => x <= m) (acc :: rest).
Proof.
  induction rest as [|x rest IH]; intro acc; cbn [fold_left].
  - split; [now left|]. constructor; [lra|constructor].
  - destruct (IH (Py.maxR acc x)) as [Hin Hall]. cbv zeta.
    inversion Hall as [|? ? Hacc Hrest]; subst.
    assert (Hm : acc <= Py.maxR acc x /\ x <= Py.maxR acc x
                 /\ (Py.maxR acc x = acc \/ Py.maxR acc x = x)).
    { unfold Py.maxR. destruct (Rlt_dec acc x); lra. }
    split.
    + destruct Hin as [Hin|Hin]; [|right; now right].
      destruct Hm as (_ & _ & [E|E]); rewrite <- Hin, E; cbn; auto.
    + constructor; [lra|]. constructor; [lra|assumption].
Qed.

Lemma min_list_spec (xs : list R) (m : R) :
  In m xs -> Forall (fun x => m <= x) xs -> min_list xs = Some m.
Proof.
  destruct xs as [|x rest]; [contradiction|]. intros Hin Hall.
  cbn [min_list]. f_equal.
  destruct (fold_minR_spec rest x) as [Hin' Hall']. cbv zeta in *.
  rewrite Forall_forall in Hall, Hall'.
  apply Rle_antisym; [apply Hall', Hin | apply Hall, Hin'].
Qed.

Lemma max_list_spec (xs : list R) (m : R) :
  In m xs -> Forall (fun x => x <= m) xs -> max_list xs = Some m.
Proof.
  destruct xs as [|x rest]; [contradiction|]. intros Hin Hall.
  cbn [max_list]. f_equal.
  destruct (fold_maxR_spec rest x) as [Hin' Hall']. cbv zeta in *.
  rewrite Forall_forall in Hall, Hall'.
  apply Rle_antisym; [apply Hall, Hin' | apply Hall', Hin].
Qed.

Ltac member := cbn [In]; repeat (first [left; reflexivity | right]).
Ltac bounded := repeat (apply Forall_cons; [lra|]); apply Forall_nil.

Lemma center_letter :
  _center_model (fst (build_letter_r 1.2)) = Some centered_letter.
Proof.
  unfold _center_model, centered_letter.
  cbv [build_letter_r fst snd map flat_map app].
  rewrite (min_list_spec _ 0.0); [|member|bounded].
  rewrite (max_list_spec _ 5.6); [|member|bounded].
  rewrite (min_list_spec _ 0.0); [|member|bounded].
  rewrite (max_list_spec _ 8.0); [|member|bounded].
  rewrite (min_list_spec _ 0.0); [|member|bounded].
  rewrite (max_list_spec _ 1.2); [|member|bounded].
  cbn [Py.bind]. apply f_equal.
  repeat (apply f_equal2; [apply vec3_eq; lra|]). reflexivity.
Qed.

Lemma init_state (w h : Z) :
  init w h
  = Some {| transform := init_transform; cam_angle := 0.6;
            base_verts := centered_letter;
            faces := snd (build_letter_r 1.2);
            width := w; height := h |}.
Proof.
  unfold init. pose proof center_letter as Hc.
  destruct (build_letter_r 1.2) as [verts fs]. cbn [fst snd] in *.
  now rewrite Hc.
Qed.

Lemma model_vertex_upright (v : Vec3) : model_vertex upright v = scale v 55.
Proof.
  destruct v as [[x y] z].
  cbn [model_vertex upright add rotate scale Transform.tx Transform.ty
       Transform.tz Transform.rx Transform.ry Transform.rz Transform.scale].
  rewrite cos_0, sin_0. apply vec3_eq; lra.
Qed.

Lemma face_fill_camera_aux (self : LetterApp) (face : Face) (a b c : Vec3) :
  (3 <= length face)%nat ->
  Py.index (base_verts self) (nth 0 face 0%Z) = Some a ->
  Py.index (base_verts self) (nth 1 face 0%Z) = Some b ->
  Py.index (base_verts self) (nth 2 face 0%Z) = Some c ->
  let t := transform self in
  let angle := cam_angle self in
  let verts := transform_vertices self in
  face_normal verts face
  = normal (project (model_vertex t a) angle)
           (project (model_vertex t b) angle)
           (project (model_vertex t c) angle) /\
  face_normal verts face
  = option_map (fun n => project n angle)
               (normal (model_vertex t a) (model_vertex t b)
                       (model_vertex t c)) /\
  face_fill verts face
  = option_map (fun n => shade base_color (project n angle) default_light)
               (normal (model_vertex t a) (model_vertex t b)
                       (model_vertex t c)).
Proof.
  intros Hlen Ha Hb Hc t angle verts.
  pose proof (face_normal_camera self face a b c Hlen Ha Hb Hc) as Hn.
  cbv zeta in Hn. fold t angle verts in Hn.
  split; [exact Hn|]. rewrite normal_project in Hn. split; [exact Hn|].
  unfold face_fill. rewrite Hn.
  destruct (normal _ _ _); reflexivity.
Qed.

Lemma face_fill_in_camera_space
      (self : LetterApp) (face : Face) (a b c : Vec3) :
  (3 <= length face)%nat ->
  Py.index (base_verts self) (nth 0 face 0%Z) = Some a ->
  Py.index (base_verts self) (nth 1 face 0%Z) = Some b ->
  Py.index (base_verts self) (nth 2 face 0%Z) = Some c ->
  let t := transform self in
  let angle := cam_angle self in
  let verts := transform_vertices self in
  face_normal verts face
  = normal (camera_turn angle (model_space t a))
           (camera_turn angle (model_space t b))
           (camera_turn angle (model_space t c)) /\
  face_normal verts face
  = option_map (camera_turn angle)
               (normal (model_space t a) (model_space t b)
                       (model_space t c)) /\
  face_fill verts face
  = option_map (fun n => shade base_color (camera_turn angle n) default_light)
               (normal (model_space t a) (model_space t b)
                       (model_space t c)).
Proof.
  intros Hlen Ha Hb Hc t angle verts.
  destruct (face_fill_camera_aux self face a b c Hlen Ha Hb Hc)
    as (H1 & H2 & H3).
  cbv zeta in H1, H2, H3. fold t angle verts in H1, H2, H3.
  rewrite !project_camera_turn, !model_vertex_model_space in H1.
  rewrite !model_vertex_model_space in H2, H3.
  split; [exact H1|].
  assert (E : forall (A : Type) (f : Vec3 -> A) (o : option Vec3),
             option_map (fun n => f (project n angle)) o
             = option_map (fun n => f (camera_turn angle n)) o).
  { intros A f [n|]; [|reflexivity]. cbn [option_map].
    now rewrite project_camera_turn. }
  split.
  - rewrite H2. exact (E _ (fun n => n) _).
  - rewrite H3. exact (E _ (fun n => shade base_color n default_light) _).
Qed.

(** The model-space normal of the cap of the hole of the upright letter
    points along the positive depth axis. *)
Lemma hole_cap_model_normal :
  normal (model_space upright (1.2 - 2.8, 6.9 - 4, 0.0 - 0.6))
         (model_space upright (1.2 - 2.8, 5.6 - 4, 0.0 - 0.6))
         (model_space upright (3.6 - 2.8, 5.6 - 4, 0.0 - 0.6))
  = Some (0, 0, 1).
Proof.
  rewrite <- !model_vertex_model_space, !model_vertex_upright.
  rewrite (normal_along_z _ _ _ 9438).
  - apply f_equal. apply vec3_eq; try reflexivity.
    rewrite Rabs_right by lra. field.
  - cbn [scale edge_cross]. apply vec3_eq; lra.
  - lra.
Qed.

Lemma hole_cap_fill (cam : R) :
  face_fill (transform_vertices (letter_app upright cam)) hole_cap
  = Some (shade base_color (camera_turn cam (0, 0, 1)) default_light).
Proof.
  destruct (face_fill_in_camera_space (letter_app upright cam) hole_cap
              (1.2 - 2.8, 6.9 - 4, 0.0 - 0.6)
              (1.2 - 2.8, 5.6 - 4, 0.0 - 0.6)
              (3.6 - 2.8, 5.6 - 4, 0.0 - 0.6))
    as (_ & _ & Hfill);
    [cbv; lia | reflexivity | reflexivity | reflexivity |].
  cbv zeta in Hfill. rewrite Hfill.
  cbn [transform letter_app cam_angle].
  now rewrite hole_cap_model_normal.
Qed.

(** For the upright letter the cap of the hole is filled "#e4572e" seen
    from camera angle 0 and "#2d1109" seen from camera angle -2: the
    transform is the same, the fill colour is not. *)
Lemma hole_cap_fill_changes_with_camera :
  transform (letter_app upright 0) = transform (letter_app upright (-2)) /\
  In hole_cap (faces (letter_app upright 0)) /\
  face_fill (transform_vertices (letter_app upright 0)) hole_cap
  = Some "#e4572e"%string /\
  face_fill (transform_vertices (letter_app upright (-2))) hole_cap
  = Some "#2d1109"%string.
Proof.
  split; [reflexivity|]. split; [|split].
  - cbv [letter_app faces].
    cbv [build_letter_r snd].
    do 13 right. left. reflexivity.
  - rewrite hole_cap_fill. f_equal. cbn [camera_turn].
    rewrite cos_0, sin_0. apply shade_lit. lra.
  - rewrite hole_cap_fill. f_equal. cbn [camera_turn].
    replace (-2) with (- (2)) by lra. rewrite cos_neg, sin_neg.
    pose proof PI2_3_2 as Hlo. pose proof PI_4 as Hhi.
    assert (Hs : 0 <= sin 2) by (apply sin_ge_0; lra).
    assert (Hc : cos 2 <= 0) by (apply cos_le_0; lra).
    apply shade_dark. lra.
Qed.

Lemma valid_mesh_spec (n : nat) (fs : list Face) :
  valid_mesh n fs = true ->
  forall face, In face fs -> face <> [] /\ Forall (valid_index n) face.
Proof.
  unfold valid_mesh. rewrite forallb_forall. intros H face Hin.
  specialize (H face Hin). apply andb_true_iff in H as [Hne Hidx].
  split.
  - destruct face; [discriminate|congruence].
  - rewrite forallb_forall in Hidx. apply Forall_forall. intros idx Hi.
    specialize (Hidx idx Hi). apply andb_true_iff in Hidx as [H0 H1].
    apply Z.leb_le in H0. apply Z.ltb_lt in H1. split; assumption.
Qed.

Lemma index_valid (verts : list Vec3) (idx : Z) :
  valid_index (length verts) idx -> exists v, Py.index verts idx = Some v.
Proof.
  intro H. destruct (index_in_range verts idx H) as [-> Hv]. exact Hv.
Qed.

Lemma face_depth_defined (verts : list Vec3) (face : Face) :
  face <> [] -> Forall (valid_index (length verts)) face ->
  exists d, face_depth verts face = Some d.
Proof.
  intros Hne Hidx. unfold face_depth.
  destruct (map_opt_defined
              (fun idx => v <- Py.index verts idx ;; Some (snd v)) face)
    as [zs Hzs].
  { intros idx Hin. rewrite Forall_forall in Hidx.
    destruct (index_valid verts idx (Hidx idx Hin)) as [v ->]. now eexists. }
  rewrite Hzs. cbn [Py.bind].
  apply map_opt_Forall2, Forall2_length in Hzs.
  rewrite rdiv_defined; [now eexists|].
  apply not_0_INR. destruct face; [congruence|]. cbn [length] in Hzs. lia.
Qed.

Lemma draw_face_defined (cx cy : R) (verts : list Vec3) (face : Face) :
  Forall (valid_index (length verts)) face ->
  exists poly, draw_face cx cy verts face = Some poly.
Proof.
  intro Hidx. unfold draw_face.
  destruct (map_opt_defined
              (fun idx => v <- Py.index verts idx ;;
                          let '(x, y, z) := v in Some (cx + x, cy - y)) face)
    as [pts Hpts].
  { intros idx Hin. rewrite Forall_forall in Hidx.
    destruct (index_valid verts idx (Hidx idx Hin)) as [[[x y] z] ->].
    now eexists. }
  rewrite Hpts. cbn [Py.bind].
  assert (Hfill : exists s, face_fill verts face = Some s).
  { unfold face_fill, face_normal.
    destruct (3 <=? length face)%nat eqn:Hlen; [|now eexists].
    apply Nat.leb_le in Hlen.
    assert (Hnth : forall k, (k < 3)%nat ->
               exists v, Py.index verts (nth k face 0%Z) = Some v).
    { intros k Hk. apply index_valid. rewrite Forall_forall in Hidx.
      apply Hidx, nth_In. lia. }
    destruct (Hnth 0%nat) as [a ->]; [lia|].
    destruct (Hnth 1%nat) as [b ->]; [lia|].
    destruct (Hnth 2%nat) as [c ->]; [lia|].
    cbn [Py.bind]. destruct (normal_defined a b c) as [n ->]. now eexists. }
  destruct Hfill as [s ->]. now eexists.
Qed.

(** The drawing order by the key of the sort, as [render] computes it. *)
Lemma render_order_by_key (self : LetterApp) :
  valid_mesh (length (base_verts self)) (faces self) = true ->
  let verts := transform_vertices self in
  let cx := IZR (width self) / 2 in
  let cy := IZR (height self) / 2 in
  exists (depths : list R) (order : list nat) (drawn : list Polygon),
    Forall2 (fun face d => face_depth verts face = Some d)
            (faces self) depths /\
    Permutation order (seq 0 (length (faces self))) /\
    render self = Some drawn /\
    Forall2 (fun p poly =>
               exists face, nth_error (faces self) p = Some face /\
                            draw_face cx cy verts face = Some poly)
            order drawn /\
    forall i j p q dp dq,
      nth_error order i = Some p -> nth_error order j = Some q ->
      nth_error depths p = Some dp -> nth_error depths q = Some dq ->
      dp > dq \/ (dp = dq /\ (p < q)%nat) ->
      (i < j)%nat.
Proof.
  intro Hvalid. cbv zeta.
  pose proof (valid_mesh_spec _ _ Hvalid) as Hfaces.
  set (verts := transform_vertices self).
  assert (Hlen : length verts = length (base_verts self)).
  { unfold verts. rewrite transform_vertices_map. apply length_map. }
  rewrite <- Hlen in Hfaces.
  (* the keyed list *)
  destruct (map_opt_defined
              (fun face => d <- face_depth verts face ;; Some (d, face))
              (faces self)) as [keyed Hkeyed].
  { intros face Hin. destruct (Hfaces face Hin) as [Hne Hidx].
    destruct (face_depth_defined verts face Hne Hidx) as [d ->].
    now eexists. }
  pose proof (map_opt_Forall2 _ _ _ Hkeyed) as Hk2.
  assert (Hkd : Forall2 (fun face kf => face_depth verts face = Some (fst kf)
                                       /\ snd kf = face)
                        (faces self) keyed).
  { clear - Hk2. induction Hk2 as [|face kf fs ks H _ IH]; constructor; auto.
    destruct (face_depth verts face) as [d|]; [|discriminate].
    cbn [Py.bind] in H. injection H as <-. now split. }
  destruct (sort_reverse_order fst keyed) as (order & Hperm & Hsorted & Hord).
  (* drawing *)
  assert (Hdraw : exists drawn,
             Py.map_opt (fun '(_, face) =>
                           draw_face (IZR (width self) / 2)
                                     (IZR (height self) / 2) verts face)
                        (sort_reverse fst keyed) = Some drawn).
  { apply map_opt_defined. intros [d face] Hin.
    eapply Permutation_in in Hin; [|apply sort_reverse_perm].
    apply draw_face_defined.
    assert (Hf : In face (faces self)).
    { clear - Hkd Hin. induction Hkd as [|f kf fs ks [_ H] _ IH];
        [contradiction|].
      destruct Hin as [->|Hin]; [left; now rewrite <- H|right; auto]. }
    apply Hfaces, Hf. }
  destruct Hdraw as [drawn Hdrawn].
  exists (map fst keyed), order, drawn. repeat split.
  - clear - Hkd. induction Hkd as [|f kf fs ks [H _] _ IH]; cbn [map];
      constructor; auto.
  - rewrite Hperm. now rewrite (Forall2_length Hkd).
  - unfold render. fold verts. unfold faces_sorted. rewrite Hkeyed.
    cbn [Py.bind]. exact Hdrawn.
  - apply map_opt_Forall2 in Hdrawn.
    clear - Hsorted Hdrawn Hkd. revert drawn Hdrawn.
    induction Hsorted as [|p kf order sorted Hp _ IH]; intros drawn Hdrawn;
      inversion Hdrawn as [|? poly ? drawn' Hpoly Hrest]; subst;
      constructor; [|now apply IH].
    destruct kf as [d face]. exists face. split; [|exact Hpoly].
    clear - Hp Hkd. revert p Hp.
    induction Hkd as [|f kf' fs ks [_ H] _ IH]; intros p Hp;
      destruct p; try discriminate; cbn [nth_error] in *.
    + injection Hp as ->. now rewrite <- H.
    + now apply IH.
  - intros i j p q dp dq Hi Hj Hdp Hdq Hcmp.
    rewrite nth_error_map in Hdp, Hdq.
    destruct (nth_error keyed p) as [kp|] eqn:Ekp; [|discriminate].
    destruct (nth_error keyed q) as [kq|] eqn:Ekq; [|discriminate].
    cbn in Hdp, Hdq. injection Hdp as <-. injection Hdq as <-.
    exact (Hord i j p q kp kq Hi Hj Ekp Ekq Hcmp).
Qed.

Lemma sum_fold (zs : list R) :
  fold_left Rplus zs 0 = fold_right Rplus 0 zs.
Proof.
  assert (H : forall acc, fold_left Rplus zs acc
                          = acc + fold_right Rplus 0 zs).
  { induction zs as [|z zs IH]; intro acc; cbn [fold_left fold_right].
    - ring.
    - rewrite IH. ring. }
  rewrite H. ring.
Qed.

Lemma face_depth_mean (verts : list Vec3) (face : Face) :
  face <> [] -> Forall (valid_index (length verts)) face ->
  face_depth verts face = Some (mean_depth verts face).
Proof.
  intros Hne Hidx. unfold face_depth, mean_depth.
  assert (Hzs : Py.map_opt
                  (fun idx => v <- Py.index verts idx ;; Some (snd v)) face
                = Some (map (fun idx => snd (nth (Z.to_nat idx) verts
                                                 (0, 0, 0))) face)).
  { apply Forall2_map_opt. clear Hne.
    induction Hidx as [|idx face Hi _ IH]; cbn [map]; constructor;
      [|exact IH].
    destruct (index_in_range verts idx Hi) as [-> [v Hv]]. rewrite Hv.
    cbn [Py.bind]. now rewrite (nth_error_nth _ _ _ Hv). }
  rewrite Hzs. cbn [Py.bind]. rewrite length_map, sum_fold.
  apply rdiv_defined, not_0_INR. destruct face; [congruence|discriminate].
Qed.

Lemma Forall2_lookup {A B : Type} (P : A -> B -> Prop) (l : list A)
      (l' : list B) (n : nat) (x : A) :
  Forall2 P l l' -> nth_error l n = Some x ->
  exists y, nth_error l' n = Some y /\ P x y.
Proof.
  intro H. revert n. induction H as [|a b l l' Hab _ IH]; intros [|n] Hn;
    try discriminate.
  - injection Hn as <-. now exists b.
  - now apply IH.
Qed.

(** C6.  For a mesh whose faces are non-empty and index existing
    vertices, [render] succeeds and draws one polygon per face.  The key of
    a face is the arithmetic mean of the depth components of the projected
    vertices it indexes, the sum of those components over their number: a
    face with a larger mean comes strictly before one with a smaller mean,
    and faces with equal means come in their mesh order. *)
Theorem render_painter_order (self : LetterApp) :
  valid_mesh (length (base_verts self)) (faces self) = true ->
  painter_order self.
Proof.
  intro Hvalid. unfold painter_order.
  rewrite <- transform_vertices_pipeline.
  destruct (render_order_by_key self Hvalid)
    as (depths & order & drawn & Hdepths & Hperm & Hrender & Hdrawn & Hord).
  exists order, drawn.
  split; [exact Hperm|]. split; [exact Hrender|]. split; [exact Hdrawn|].
  pose proof (valid_mesh_spec _ _ Hvalid) as Hfaces.
  assert (Hlen : length (transform_vertices self) = length (base_verts self)).
  { rewrite transform_vertices_map. apply length_map. }
  rewrite <- Hlen in Hfaces.
  assert (Hmean : forall p face,
             nth_error (faces self) p = Some face ->
             nth_error depths p
             = Some (mean_depth (transform_vertices self) face)).
  { intros p face Hp.
    destruct (Forall2_lookup _ _ _ _ _ Hdepths Hp) as (d & Hd & Hkey).
    destruct (Hfaces face (nth_error_In _ _ Hp)) as [Hne Hidx].
    rewrite (face_depth_mean _ _ Hne Hidx) in Hkey.
    injection Hkey as <-. exact Hd. }
  intros i j p q fp fq Hi Hj Hp Hq Hcmp.
  exact (Hord i j p q _ _ Hi Hj (Hmean p fp Hp) (Hmean q fq Hq) Hcmp).
Qed.

(** C2, as the code has it.  The shading normal of a face with at least
    three vertices is computed from its first three vertices after the
    camera projection.  It is the model-space normal turned by the camera
    angle [a] about the vertical axis, (x, y, z) to
    (x cos a + z sin a, y, -x sin a + z cos a), and the fill colour is the
    shade of that turned normal. *)
Theorem shading_normal_in_camera_space
        (self : LetterApp) (face : Face) (a b c : Vec3) :
  (3 <= length face)%nat ->
  Py.index (base_verts self) (nth 0 face 0%Z) = Some a ->
  Py.index (base_verts self) (nth 1 face 0%Z) = Some b ->
  Py.index (base_verts self) (nth 2 face 0%Z) = Some c ->
  let t := transform self in
  let angle := cam_angle self in
  let verts := transform_vertices self in
  face_normal verts face
  = normal (camera_turn angle (model_space t a))
           (camera_turn angle (model_space t b))
           (camera_turn angle (model_space t c)) /\
  face_normal verts face
  = option_map (camera_turn angle)
               (normal (model_space t a) (model_space t b)
                       (model_space t c)) /\
  face_fill verts face
  = option_map (fun n => shade base_color (camera_turn angle n) default_light)
               (normal (model_space t a) (model_space t b)
                       (model_space t c)).
Proof. exact (face_fill_in_camera_space self face a b c). Qed.

Lemma shading_normal_of_hole_cap :
  let self := letter_app upright (-2) in
  let a := (1.2 - 2.8, 6.9 - 4, 0.0 - 0.6) in
  let b := (1.2 - 2.8, 5.6 - 4, 0.0 - 0.6) in
  let c := (3.6 - 2.8, 5.6 - 4, 0.0 - 0.6) in
  face_normal (transform_vertices self) hole_cap
  = normal (camera_turn (-2) (model_space upright a))
           (camera_turn (-2) (model_space upright b))
           (camera_turn (-2) (model_space upright c)) /\
  face_normal (transform_vertices self) hole_cap
  = option_map (camera_turn (-2))
               (normal (model_space upright a) (model_space upright b)
                       (model_space upright c)) /\
  face_fill (transform_vertices self) hole_cap
  = option_map (fun n => shade base_color (camera_turn (-2) n) default_light)
               (normal (model_space upright a) (model_space upright b)
                       (model_space upright c)).
Proof.
  apply (shading_normal_in_camera_space (letter_app upright (-2)) hole_cap);
    [cbv; lia | reflexivity | reflexivity | reflexivity].
Defined.

(** C4.  Every projected vertex is
    [project (rotate (scale v s) rx ry rz + (tx*s, ty*s, tz*s)) angle]
    of its base vertex [v]; [rotate] is the rotation about X, then about
    Y, then about Z, each applied to the result of the one before;
    [scale] multiplies and [add] adds component by component, so each
    translation offset is multiplied by the scale before it is added; and
    [project] is the turn about the vertical axis.  In coordinates the
    projected vertex is [pipeline_vertex]. *)
Theorem pipeline_formula (self : LetterApp) :
  let t := transform self in
  let s := Transform.scale t in
  transform_vertices self
  = map (fun v =>
           project
             (add (rotate (scale v s)
                          (Transform.rx t) (Transform.ry t) (Transform.rz t))
                  (Transform.tx t * s, Transform.ty t * s, Transform.tz t * s))
             (cam_angle self))
        (base_verts self)
  /\ (forall v rx ry rz,
         rotate v rx ry rz = rotate_z (rotate_y (rotate_x v rx) ry) rz)
  /\ (forall x y z k, scale (x, y, z) k = (x * k, y * k, z * k))
  /\ (forall x y z dx dy dz,
         add (x, y, z) (dx, dy, dz) = (x + dx, y + dy, z + dz))
  /\ (forall x y z a,
         project (x, y, z) a
         = (x * cos a + z * sin a, y, - x * sin a + z * cos a))
  /\ transform_vertices self
     = map (pipeline_vertex t (cam_angle self)) (base_verts self).
Proof.
  split; [apply transform_vertices_map|].
  split; [apply rotate_sequential|].
  split; [reflexivity|]. split; [reflexivity|]. split; [reflexivity|].
  apply transform_vertices_pipeline.
Qed.

(** C5.  For a positive depth, [build_letter_r] returns 24 vertices and
    16 faces: eight outer side quads, four inner side quads and the four
    caps of 8, 4, 8 and 4 vertices; every index of every face is a
    position of the vertex list. *)
Theorem build_letter_r_counts (depth : R) :
  0 < depth ->
  let '(verts, faces) := build_letter_r depth in
  length verts = 24%nat /\
  length faces = 16%nat /\
  map (@length Z) faces
  = [4; 4; 4; 4; 4; 4; 4; 4; 4; 4; 4; 4; 8; 4; 8; 4]%nat /\
  Forall (Forall (valid_index (length verts))) faces.
Proof.
  intros _. cbv beta iota zeta delta [build_letter_r].
  repeat split.
  repeat constructor; unfold valid_index; cbn; lia.
Qed.

Lemma build_letter_r_counts_app :
  let '(verts, faces) := build_letter_r 1.2 in
  length verts = 24%nat /\
  length faces = 16%nat /\
  map (@length Z) faces
  = [4; 4; 4; 4; 4; 4; 4; 4; 4; 4; 4; 4; 8; 4; 8; 4]%nat /\
  Forall (Forall (valid_index (length verts))) faces.
Proof. apply (build_letter_r_counts 1.2). lra. Defined.

Lemma render_painter_order_app : painter_order (letter_app init_transform 0.6).
Proof.
  apply (render_painter_order (letter_app init_transform 0.6)).
  reflexivity.
Defined.

End Lab5_pipeline.

(* ================================================================== *)
(** * More facts about the Python conventions *)
(* ================================================================== *)

Module PyFacts2.
Import PyFacts.
Local Open Scope Q_scope.

(** [round] stays between integer bounds of its argument. *)
Lemma round_between (x : Q) (a b : Z) :
  inject_Z a <= x <= inject_Z b -> (a <= Py.round x <= b)%Z.
Proof.
  intros [Ha Hb]. unfold Py.round.
  pose proof (Qfloor_le x) as Hf.
  pose proof (Qlt_floor x) as Hf'.
  set (f := Qfloor x) in *.
  assert (Haf : (a <= f)%Z).
  { apply Qfloor_resp_le in Ha. now rewrite Qfloor_Z in Ha. }
  assert (Hfb : (f <= b)%Z).
  { apply Qfloor_resp_le in Hb. now rewrite Qfloor_Z in Hb. }
  assert (Hup : 1 # 2 <= x - inject_Z f -> (f + 1 <= b)%Z).
  { intro Hd.
    assert (inject_Z f < inject_Z b) by lra.
    rewrite <- Zlt_Qlt in H. lia. }
  destruct (Py.Qltb (x - inject_Z f) (1 # 2)) eqn:E1; [lia|].
  apply Qltb_ge in E1.
  destruct (Py.Qltb (1 # 2) (x - inject_Z f)) eqn:E2; [specialize (Hup E1); lia|].
  destruct (Z.even f); [lia|specialize (Hup E1); lia].
Qed.

(** A float remainder by a positive modulus lies in [0, m). *)
Lemma fmod_range (x m : Q) : 0 < m -> 0 <= Py.fmod x m < m.
Proof.
  intro Hm. unfold Py.fmod.
  pose proof (Qfloor_le (x / m)) as Hlo.
  pose proof (Qlt_floor (x / m)) as Hhi.
  set (f := inject_Z (Qfloor (x / m))) in *.
  assert (Hx : x == m * (x / m)) by (field; lra).
  rewrite inject_Z_plus in Hhi. fold f in Hhi.
  split.
  - assert (m * f <= m * (x / m)) by (apply Qmult_le_l; assumption).
    lra.
  - assert (m * (x / m) < m * (f + 1)) by (apply Qmult_lt_l; assumption).
    lra.
Qed.

End PyFacts2.

(* ================================================================== *)
(** * Lab 1: ranges, colour codes and the HLS round trip *)
(* ================================================================== *)

Module Lab1_more.
Import Lab1 Lab1Spec PyFacts PyFacts2 Lab1_proofs.
Local Open Scope Q_scope.

Lemma clamp_bounds (v lo hi : Q) : lo <= hi -> lo <= clamp v lo hi <= hi.
Proof.
  intro Hle. unfold clamp.
  destruct (min_cases hi v) as [[-> Hm]|[-> Hm]];
    [destruct (max_cases lo hi) as [[-> ?]|[-> ?]]
    |destruct (max_cases lo v) as [[-> ?]|[-> ?]]]; lra.
Qed.

(** X1.  [clamp] returns a value of the interval, and a value of the interval
    unchanged. *)
Theorem clamp_in_interval (v lo hi : Q) :
  lo <= hi ->
  lo <= clamp v lo hi <= hi /\
  (lo <= v <= hi -> clamp v lo hi == v) /\
  clamp (clamp v lo hi) lo hi == clamp v lo hi.
Proof.
  intro Hle.
  assert (Hin : forall w, lo <= clamp w lo hi <= hi).
  { intro w. unfold clamp.
    destruct (min_cases hi w) as [[-> Hm]|[-> Hm]];
      [destruct (max_cases lo hi) as [[-> ?]|[-> ?]]
      |destruct (max_cases lo w) as [[-> ?]|[-> ?]]]; lra. }
  assert (Hid : forall w, lo <= w <= hi -> clamp w lo hi == w).
  { intros w Hw. unfold clamp.
    destruct (min_cases hi w) as [[-> Hm]|[-> Hm]];
      [destruct (max_cases lo hi) as [[-> ?]|[-> ?]]
      |destruct (max_cases lo w) as [[-> ?]|[-> ?]]]; lra. }
  split; [apply Hin|]. split; [apply Hid|]. apply Hid, Hin.
Qed.

Lemma clamp_in_interval_percent :
  0 <= clamp 150 0 100 <= 100 /\
  (0 <= 150 <= 100 -> clamp 150 0 100 == 150) /\
  clamp (clamp 150 0 100) 0 100 == clamp 150 0 100.
Proof. apply (clamp_in_interval 150 0 100). lra. Defined.

Lemma unit_clamp (v : Q) : 0 <= clamp v 0 100 / 100 <= 1.
Proof.
  destruct (clamp_bounds v 0 100) as [H0 H1]; [lra|].
  split; [apply Qle_shift_div_l | apply Qle_shift_div_r]; lra.
Qed.

Lemma byte_product (a b : Q) :
  0 <= a <= 1 -> 0 <= b <= 1 ->
  inject_Z 0 <= 255 * (1 - a) * (1 - b) <= inject_Z 255.
Proof.
  intros Ha Hb. change (inject_Z 0) with 0. change (inject_Z 255) with 255.
  split; nra.
Qed.

(** X2.  Whatever the four inputs, [cmyk_to_rgb] returns channels between 0
    and 255. *)
Theorem cmyk_to_rgb_bytes (c m y k : Q) :
  let rgb := cmyk_to_rgb c m y k in
  (0 <= r rgb <= 255)%Z /\ (0 <= g rgb <= 255)%Z /\ (0 <= b rgb <= 255)%Z.
Proof.
  cbv zeta. unfold cmyk_to_rgb. cbn [r g b].
  split; [|split]; apply round_between, byte_product; apply unit_clamp.
Qed.

Lemma unit_of_byte (x : Q) : 0 <= x <= 255 -> 0 <= x / 255 <= 1.
Proof.
  intro H. split; [apply Qle_shift_div_l | apply Qle_shift_div_r]; lra.
Qed.

Lemma min3_bounds (a b c : Q) :
  let mn := Py.min (Py.min a b) c in
  mn <= a /\ mn <= b /\ mn <= c /\ (mn = a \/ mn = b \/ mn = c).
Proof.
  cbv zeta.
  destruct (min_cases a b) as [[-> ?]|[-> ?]];
    [destruct (min_cases a c) as [[-> ?]|[-> ?]]
    |destruct (min_cases b c) as [[-> ?]|[-> ?]]];
    repeat split; auto; lra.
Qed.

Lemma ratio_percent (x mx : Q) :
  0 <= x <= mx -> 0 < mx -> 0 <= (mx - x) / mx * 100 <= 100.
Proof.
  intros Hx Hmx.
  assert (0 <= (mx - x) / mx <= 1).
  { split; [apply Qle_shift_div_l | apply Qle_shift_div_r]; lra. }
  lra.
Qed.

(** X3.  For channels between 0 and 255, every component [rgb_to_cmyk]
    returns lies between 0 and 100. *)
Theorem rgb_to_cmyk_percent (r g b : Q) :
  0 <= r <= 255 -> 0 <= g <= 255 -> 0 <= b <= 255 ->
  let cmyk := rgb_to_cmyk r g b in
  0 <= c cmyk <= 100 /\ 0 <= m cmyk <= 100 /\
  0 <= y cmyk <= 100 /\ 0 <= k cmyk <= 100.
Proof.
  intros Hr Hg Hb. cbv zeta. unfold rgb_to_cmyk.
  apply unit_of_byte in Hr, Hg, Hb.
  set (r1 := r / 255) in *. set (g1 := g / 255) in *.
  set (b1 := b / 255) in *.
  destruct (max3_bounds r1 g1 b1) as (Lr & Lg & Lb & Hmx).
  set (mx := Py.max (Py.max r1 g1) b1) in *.
  assert (Hmx1 : 0 <= mx <= 1)
    by (destruct Hmx as [->|[->| ->]]; assumption).
  destruct (Qeq_bool (1 - mx) 1) eqn:Hk; cbn [c m y k].
  - split; [lra|]. split; [lra|]. split; lra.
  - apply Qeq_bool_neq in Hk.
    assert (Hpos : 0 < mx) by lra.
    assert (Hc : forall x, 0 <= x <= mx ->
               0 <= (1 - x - (1 - mx)) / (1 - (1 - mx)) * 100 <= 100).
    { intros x Hx.
      assert (E : (1 - x - (1 - mx)) / (1 - (1 - mx)) * 100
                  == (mx - x) / mx * 100) by (field; lra).
      rewrite E. now apply ratio_percent. }
    split; [apply Hc; lra|]. split; [apply Hc; lra|].
    split; [apply Hc; lra|]. lra.
Qed.

Lemma rgb_to_cmyk_percent_violet :
  let cmyk := rgb_to_cmyk 127 86 217 in
  0 <= c cmyk <= 100 /\ 0 <= m cmyk <= 100 /\
  0 <= y cmyk <= 100 /\ 0 <= k cmyk <= 100.
Proof. apply (rgb_to_cmyk_percent 127 86 217); lra. Defined.

Lemma divQ_defined (a b : Q) : ~ b == 0 -> Py.divQ a b = Some (a / b).
Proof.
  intro Hb. unfold Py.divQ. destruct (Qeq_bool b 0) eqn:E; [|reflexivity].
  apply Qeq_bool_iff in E. contradiction.
Qed.

Lemma Qabs_cases (x : Q) : (0 <= x /\ Qabs x == x) \/ (x < 0 /\ Qabs x == - x).
Proof.
  destruct (Qlt_le_dec x 0) as [H|H].
  - right. split; [assumption|]. apply Qabs_neg. lra.
  - left. split; [assumption|]. now apply Qabs_pos.
Qed.

(** Over exact rationals: for channels between 0 and 255 [rgb_to_hls]
    divides by no zero, and returns a hue in [0, 360) and lightness and
    saturation in [0, 100]. *)
Lemma rgb_to_hls_in_range (r g b : Q) :
  0 <= r <= 255 -> 0 <= g <= 255 -> 0 <= b <= 255 ->
  exists hls, rgb_to_hls r g b = Some hls /\
              0 <= h hls < 360 /\ 0 <= l hls <= 100 /\ 0 <= s hls <= 100.
Proof.
  intros Hr Hg Hb. unfold rgb_to_hls.
  apply unit_of_byte in Hr, Hg, Hb.
  set (r1 := r / 255) in *. set (g1 := g / 255) in *.
  set (b1 := b / 255) in *.
  destruct (max3_bounds r1 g1 b1) as (Mr & Mg & Mb & Hmx).
  destruct (min3_bounds r1 g1 b1) as (mr & mg & mb & Hmn).
  set (mx := Py.max (Py.max r1 g1) b1) in *.
  set (mn := Py.min (Py.min r1 g1) b1) in *.
  assert (Hmx1 : 0 <= mx <= 1)
    by (destruct Hmx as [->|[->| ->]]; assumption).
  assert (Hmn1 : 0 <= mn <= 1)
    by (destruct Hmn as [->|[->| ->]]; assumption).
  assert (El : (mx + mn) / 2 * 100 == (mx + mn) * 50) by field.
  assert (Hl : 0 <= (mx + mn) / 2 * 100 <= 100) by (rewrite El; lra).
  assert (E2 : 2 * ((mx + mn) / 2) - 1 == mx + mn - 1) by field.
  destruct (Qeq_bool mx mn) eqn:Heq.
  - eexists. split; [reflexivity|]. cbn [h l s].
    split; [lra|]. split; [exact Hl|lra].
  - apply Qeq_bool_neq in Heq.
    assert (Hd : 0 < mx - mn) by lra.
    set (den := 1 - Qabs (2 * ((mx + mn) / 2) - 1)).
    assert (Hden : mx - mn <= den).
    { unfold den.
      destruct (Qabs_cases (2 * ((mx + mn) / 2) - 1)) as [[? ->]|[? ->]];
        rewrite E2 in *; lra. }
    rewrite divQ_defined by lra. cbn [Py.bind].
    assert (Hh : exists hh,
               (if Qeq_bool mx r1
                then q <- Py.divQ (g1 - b1) (mx - mn);;
                     Some (q + (if Py.Qltb g1 b1 then 6 else 0))
                else if Qeq_bool mx g1
                     then q <- Py.divQ (b1 - r1) (mx - mn);; Some (q + 2)
                     else q <- Py.divQ (r1 - g1) (mx - mn);; Some (q + 4))
               = Some hh).
    { destruct (Qeq_bool mx r1); [|destruct (Qeq_bool mx g1)];
        rewrite divQ_defined by lra; cbn [Py.bind]; now eexists. }
    destruct Hh as [hh ->]. cbn [Py.bind].
    eexists. split; [reflexivity|]. cbn [h l s].
    split; [apply fmod_range; lra|]. split; [exact Hl|].
    assert (0 <= (mx - mn) / den <= 1).
    { split; [apply Qle_shift_div_l | apply Qle_shift_div_r]; lra. }
    lra.
Qed.

Lemma byte_channel (n : Z) : (0 <= n <= 255)%Z -> 0 <= inject_Z n <= 255.
Proof.
  intros [Hlo Hhi]. split.
  - change 0 with (inject_Z 0). now rewrite <- Zle_Qle.
  - change 255 with (inject_Z 255). now rewrite <- Zle_Qle.
Qed.

(** X4.  For integer channels between 0 and 255 [rgb_to_hls] divides by no
    zero, and returns a hue in [0, 360), a lightness in [0, 100] and a
    saturation that is not negative. *)
Theorem rgb_to_hls_ranges (r g b : Z) :
  (0 <= r <= 255)%Z -> (0 <= g <= 255)%Z -> (0 <= b <= 255)%Z ->
  exists hls,
    rgb_to_hls (inject_Z r) (inject_Z g) (inject_Z b) = Some hls /\
    0 <= h hls < 360 /\ 0 <= l hls <= 100 /\ 0 <= s hls.
Proof.
  intros Hr Hg Hb.
  destruct (rgb_to_hls_in_range (inject_Z r) (inject_Z g) (inject_Z b))
    as (hls & Hhls & Hh & Hl & Hs); try now apply byte_channel.
  exists hls. split; [exact Hhls|]. split; [exact Hh|]. split; [exact Hl|].
  apply Hs.
Qed.

Lemma rgb_to_hls_ranges_violet :
  exists hls,
    rgb_to_hls (inject_Z 127) (inject_Z 86) (inject_Z 217) = Some hls /\
    0 <= h hls < 360 /\ 0 <= l hls <= 100 /\ 0 <= s hls.
Proof. apply (rgb_to_hls_ranges 127 86 217); lia. Defined.

(** Outside of that range the saturation divides by zero: full red at
    twice the scale has lightness 1. *)
Lemma rgb_to_hls_raises : rgb_to_hls 510 0 0 = None.
Proof. reflexivity. Qed.

(** The wrapped parameter of [hue_to_rgb]. *)
Lemma hue_to_rgb_between (p q t : Q) :
  p <= q -> -1 <= t <= 2 -> p <= hue_to_rgb p q t <= q.
Proof.
  intros Hpq Ht. unfold hue_to_rgb.
  change (1 / 6) with (1 # 6). change (1 / 2) with (1 # 2).
  change (2 / 3) with (2 # 3).
  set (t1 := if Py.Qltb t 0 then t + 1 else t).
  assert (Ht1 : 0 <= t1 <= 2).
  { unfold t1. destruct (Py.Qltb t 0) eqn:E;
      [apply Qltb_lt in E | apply Qltb_ge in E]; lra. }
  set (t2 := if Py.Qltb 1 t1 then t1 - 1 else t1).
  assert (Ht2 : 0 <= t2 <= 1).
  { unfold t2. destruct (Py.Qltb 1 t1) eqn:E;
      [apply Qltb_lt in E | apply Qltb_ge in E]; lra. }
  destruct (Py.Qltb t2 (1 # 6)) eqn:E1;
    [apply Qltb_lt in E1; split; nra | apply Qltb_ge in E1].
  destruct (Py.Qltb t2 (1 # 2)) eqn:E2; [lra | apply Qltb_ge in E2].
  destruct (Py.Qltb t2 (2 # 3)) eqn:E3;
    [apply Qltb_lt in E3; split; nra | lra].
Qed.

(** X5.  Whatever the three inputs, [hls_to_rgb] returns channels between 0
    and 255. *)
Theorem hls_to_rgb_bytes (h l s : Q) :
  let rgb := hls_to_rgb h l s in
  (0 <= r rgb <= 255)%Z /\ (0 <= g rgb <= 255)%Z /\ (0 <= b rgb <= 255)%Z.
Proof.
  cbv zeta. unfold hls_to_rgb.
  pose proof (unit_clamp l) as Hl. pose proof (unit_clamp s) as Hs.
  set (l1 := clamp l 0 100 / 100) in *.
  set (s1 := clamp s 0 100 / 100) in *.
  assert (Hbyte : forall v, 0 <= v <= 1 -> (0 <= Py.round (v * 255) <= 255)%Z).
  { intros v Hv. apply round_between.
    change (inject_Z 0) with 0. change (inject_Z 255) with 255. lra. }
  destruct (Qeq_bool s1 0); cbn [r g b].
  - pose proof (Hbyte l1 Hl). tauto.
  - set (h1 := Py.fmod (Py.fmod h 360 + 360) 360 / 360).
    assert (Hh : 0 <= h1 <= 1).
    { unfold h1.
      destruct (fmod_range (Py.fmod h 360 + 360) 360) as [H0 H1]; [lra|].
      split; [apply Qle_shift_div_l | apply Qle_shift_div_r]; lra. }
    change (1 / 2) with (1 # 2). change (1 / 3) with (1 # 3).
    set (q := if Py.Qltb l1 (1 # 2) then l1 * (1 + s1)
              else l1 + s1 - l1 * s1).
    assert (Hq : 0 <= 2 * l1 - q /\ 2 * l1 - q <= q /\ q <= 1).
    { unfold q. destruct (Py.Qltb l1 (1 # 2)) eqn:E;
        [apply Qltb_lt in E | apply Qltb_ge in E]; repeat split; nra. }
    assert (Hhue : forall t, -1 <= t <= 2 ->
               (0 <= Py.round (hue_to_rgb (2 * l1 - q) q t * 255) <= 255)%Z).
    { intros t Ht. apply Hbyte.
      pose proof (hue_to_rgb_between (2 * l1 - q) q t) as Hb.
      destruct Hb; [tauto|assumption|]. lra. }
    split; [|split]; apply Hhue; lra.
Qed.

Lemma Qfloor_unique (y : Q) (n : Z) :
  inject_Z n <= y < inject_Z n + 1 -> Qfloor y = n.
Proof.
  intros [Hlo Hhi].
  pose proof (Qfloor_le y) as H1. pose proof (Qlt_floor y) as H2.
  rewrite inject_Z_plus in H2. change (inject_Z 1) with 1 in H2.
  assert (A : inject_Z n < inject_Z (Qfloor y) + 1) by lra.
  assert (B : inject_Z (Qfloor y) < inject_Z n + 1) by lra.
  change 1 with (inject_Z 1) in A, B. rewrite <- inject_Z_plus in A, B.
  rewrite <- Zlt_Qlt in A, B. lia.
Qed.

Lemma fmod_small (x m : Q) : 0 <= x < m -> Py.fmod x m == x.
Proof.
  intros [H0 H1]. unfold Py.fmod.
  rewrite (Qfloor_unique (x / m) 0).
  - change (inject_Z 0) with 0. ring.
  - change (inject_Z 0) with 0. split.
    + apply Qle_shift_div_l; lra.
    + apply Qlt_shift_div_r; lra.
Qed.

Lemma fmod_shift (x m : Q) : 0 <= x < m -> Py.fmod (x + m) m == x.
Proof.
  intros [H0 H1]. unfold Py.fmod.
  rewrite (Qfloor_unique ((x + m) / m) 1).
  - change (inject_Z 1) with 1. ring.
  - change (inject_Z 1) with 1. split.
    + apply Qle_shift_div_l; lra.
    + apply Qlt_shift_div_r; lra.
Qed.

(** The hue fraction [h1] of [hls_to_rgb] for a hue already in [0, 360). *)
Lemma hue_fraction (hh : Q) :
  0 <= hh < 6 ->
  Py.fmod (Py.fmod (Py.fmod (hh * 60) 360) 360 + 360) 360 / 360
  == hh * (1 # 6).
Proof.
  intro Hh.
  assert (E1 : Py.fmod (hh * 60) 360 == hh * 60) by (apply fmod_small; lra).
  pose proof (fmod_range (Py.fmod (hh * 60) 360) 360) as R2.
  rewrite fmod_shift by (apply R2; lra).
  rewrite fmod_small by (apply fmod_range; lra).
  rewrite E1. field.
Qed.

(** [hue_to_rgb] by sextant: [x] is the hue position in [0, 6] that the
    parameter [t] stands for, up to one turn. *)
Lemma hue_sextant (p q t x : Q) :
  0 <= x <= 6 ->
  t == x * (1 # 6) \/ t == x * (1 # 6) - 1 \/ t == x * (1 # 6) + 1 ->
  -1 <= t <= 2 ->
  (x <= 1 -> hue_to_rgb p q t == p + (q - p) * x) /\
  (1 <= x <= 3 -> hue_to_rgb p q t == q) /\
  (3 <= x <= 4 -> hue_to_rgb p q t == p + (q - p) * (4 - x)) /\
  (4 <= x -> hue_to_rgb p q t == p).
Proof.
  intros Hx Ht Hrange. unfold hue_to_rgb.
  change (1 / 6) with (1 # 6). change (1 / 2) with (1 # 2).
  change (2 / 3) with (2 # 3).
  assert (Hlin : forall a c : Q, a == c -> p + (q - p) * a == p + (q - p) * c)
    by (intros a c ->; reflexivity).
  destruct (Py.Qltb t 0) eqn:E0;
    [apply Qltb_lt in E0 | apply Qltb_ge in E0];
    (match goal with
     | |- context [Py.Qltb 1 ?u] =>
         destruct (Py.Qltb 1 u) eqn:E1;
         [apply Qltb_lt in E1 | apply Qltb_ge in E1]
     end);
    (match goal with
     | |- context [Py.Qltb ?u (1 # 6)] =>
         destruct (Py.Qltb u (1 # 6)) eqn:E2;
         [apply Qltb_lt in E2 | apply Qltb_ge in E2];
         [|destruct (Py.Qltb u (1 # 2)) eqn:E3;
           [apply Qltb_lt in E3 | apply Qltb_ge in E3];
           [|destruct (Py.Qltb u (2 # 3)) eqn:E4;
             [apply Qltb_lt in E4 | apply Qltb_ge in E4]]]
     end);
    (split; [|split; [|split]]); intro Hs;
    try (exfalso; destruct Ht as [Ht|[Ht|Ht]]; lra);
    (match goal with
     | |- ?L == ?R =>
         let canon e :=
           match e with
           | q => constr:(1)
           | p => constr:(0)
           | p + (q - p) * 6 * ?u => constr:(6 * u)
           | p + (q - p) * ?a * 6 => constr:(a * 6)
           | p + (q - p) * ?a => constr:(a)
           end in
         let A := canon L in
         let B := canon R in
         transitivity (p + (q - p) * A); [ring|];
         transitivity (p + (q - p) * B); [|ring];
         apply Hlin; destruct Ht as [Ht|[Ht|Ht]]; lra
     end).
Qed.

(** What [hls_to_rgb] computes from the lightness and saturation that
    [rgb_to_hls] returns for a colour with largest channel [mx] and
    smallest channel [mn] (both divided by 255). *)
Lemma hls_to_rgb_colour (hh mx mn : Q) :
  0 <= mn -> mn < mx -> mx <= 1 -> 0 <= hh < 6 ->
  exists p q h1,
    hls_to_rgb (Py.fmod (hh * 60) 360) ((mx + mn) / 2 * 100)
               ((mx - mn) / (1 - Qabs (2 * ((mx + mn) / 2) - 1)) * 100)
    = {| r := Py.round (hue_to_rgb p q (h1 + (1 # 3)) * 255);
         g := Py.round (hue_to_rgb p q h1 * 255);
         b := Py.round (hue_to_rgb p q (h1 - (1 # 3)) * 255) |}
    /\ p == mn /\ q == mx /\ h1 == hh * (1 # 6).
Proof.
  intros Hmn Hlt Hmx Hhh. unfold hls_to_rgb.
  change (1 / 3) with (1 # 3). change (1 / 2) with (1 # 2).
  assert (E2 : 2 * ((mx + mn) / 2) - 1 == mx + mn - 1) by field.
  set (den := 1 - Qabs (2 * ((mx + mn) / 2) - 1)).
  assert (Hden : mx - mn <= den /\
                 ((mx + mn < 1 /\ den == mx + mn) \/
                  (1 <= mx + mn /\ den == 2 - mx - mn))).
  { unfold den.
    destruct (Qabs_cases (2 * ((mx + mn) / 2) - 1)) as [[Hc E]|[Hc E]];
      rewrite E2 in Hc; rewrite E, E2.
    - split; [lra|]. right. split; lra.
    - split; [lra|]. left. split; lra. }
  destruct Hden as [Hden Hform].
  assert (Hs01 : 0 < (mx - mn) / den <= 1).
  { split; [apply Qlt_shift_div_l | apply Qle_shift_div_r]; lra. }
  assert (El : clamp ((mx + mn) / 2 * 100) 0 100 / 100 == (mx + mn) * (1 # 2)).
  { assert (E50 : (mx + mn) / 2 * 100 == (mx + mn) * 50) by field.
    rewrite clamp_inside by (rewrite E50; lra). field. }
  assert (Es : clamp ((mx - mn) / den * 100) 0 100 / 100 == (mx - mn) / den).
  { rewrite clamp_inside by lra. field. lra. }
  set (l1 := clamp ((mx + mn) / 2 * 100) 0 100 / 100) in *.
  set (s1 := clamp ((mx - mn) / den * 100) 0 100 / 100) in *.
  assert (Hs1 : Qeq_bool s1 0 = false).
  { destruct (Qeq_bool s1 0) eqn:E; [|reflexivity].
    apply Qeq_bool_iff in E. lra. }
  rewrite Hs1.
  set (q := if Py.Qltb l1 (1 # 2) then l1 * (1 + s1) else l1 + s1 - l1 * s1).
  assert (Hq : q == mx).
  { unfold q. destruct (Py.Qltb l1 (1 # 2)) eqn:E;
      [apply Qltb_lt in E | apply Qltb_ge in E];
      rewrite El, Es; rewrite El in E;
      (destruct Hform as [[Hc ->]|[Hc ->]]; [|]); try lra; field; lra. }
  eexists _, q, _. split; [reflexivity|].
  split; [rewrite Hq, El; ring|]. split; [exact Hq|].
  apply hue_fraction. exact Hhh.
Qed.

Lemma quotient_facts (num d : Q) :
  0 < d -> - d <= num <= d ->
  -1 <= num / d <= 1 /\ (num / d) * d == num /\
  (0 <= num -> 0 <= num / d) /\ (num < 0 -> num / d < 0).
Proof.
  intros Hd Hn. split; [split|split; [|split]].
  - apply Qle_shift_div_l; lra.
  - apply Qle_shift_div_r; lra.
  - field. lra.
  - intro. apply Qle_shift_div_l; lra.
  - intro. apply Qlt_shift_div_r; lra.
Qed.

(** One channel: the hue position [x] picks the sextant, and the value
    there is the channel. *)
Ltac channel p q t x :=
  apply round_integer;
  let S1 := fresh "S1" in let S2 := fresh "S2" in
  let S3 := fresh "S3" in let S4 := fresh "S4" in
  destruct (hue_sextant p q t x) as (S1 & S2 & S3 & S4);
  [ lra
  | first [left; lra | right; left; lra | right; right; lra]
  | lra
  | first [rewrite S2 by lra | rewrite S4 by lra
          | rewrite S1 by lra | rewrite S3 by lra];
    match goal with Hp : p == _, Hq : q == _ |- _ => rewrite ?Hp, ?Hq end;
    first [lra | nra] ].

(** X6.  RGB to HLS and back is the identity on integer channels between 0
    and 255, over exact rationals with Python's rounding. *)
Theorem rgb_hls_roundtrip (r g b : Z) :
  (0 <= r <= 255)%Z -> (0 <= g <= 255)%Z -> (0 <= b <= 255)%Z ->
  exists hls,
    rgb_to_hls (inject_Z r) (inject_Z g) (inject_Z b) = Some hls /\
    hls_to_rgb (h hls) (l hls) (s hls)
    = {| Lab1.r := r; Lab1.g := g; Lab1.b := b |}.
Proof.
  intros Hr Hg Hb. unfold rgb_to_hls.
  pose proof (byte_unit r Hr) as Hr1.
  pose proof (byte_unit g Hg) as Hg1.
  pose proof (byte_unit b Hb) as Hb1.
  assert (Br : inject_Z r == 255 * (inject_Z r / 255)) by field.
  assert (Bg : inject_Z g == 255 * (inject_Z g / 255)) by field.
  assert (Bb : inject_Z b == 255 * (inject_Z b / 255)) by field.
  set (r1 := inject_Z r / 255) in *.
  set (g1 := inject_Z g / 255) in *.
  set (b1 := inject_Z b / 255) in *.
  destruct (max3_bounds r1 g1 b1) as (Mr & Mg & Mb & Hmx).
  destruct (min3_bounds r1 g1 b1) as (mr & mg & mb & Hmn).
  set (mx := Py.max (Py.max r1 g1) b1) in *.
  set (mn := Py.min (Py.min r1 g1) b1) in *.
  assert (Hmx' : mx == r1 \/ mx == g1 \/ mx == b1)
    by (destruct Hmx as [E|[E|E]]; rewrite E; auto using Qeq_refl).
  assert (Hmn' : mn == r1 \/ mn == g1 \/ mn == b1)
    by (destruct Hmn as [E|[E|E]]; rewrite E; auto using Qeq_refl).
  clear Hmx Hmn.
  assert (Hmx1 : 0 <= mx <= 1) by (destruct Hmx' as [E|[E|E]]; lra).
  assert (Hmn1 : 0 <= mn <= 1) by (destruct Hmn' as [E|[E|E]]; lra).
  destruct (Qeq_bool mx mn) eqn:Heq.
  - (* a grey: the three channels are equal *)
    apply Qeq_bool_iff in Heq.
    eexists. split; [reflexivity|]. cbn [h l s]. unfold hls_to_rgb.
    change (Qeq_bool (clamp 0 0 100 / 100) 0) with true. cbv iota.
    assert (E50 : (mx + mn) / 2 * 100 == (mx + mn) * 50) by field.
    assert (El : clamp ((mx + mn) / 2 * 100) 0 100 / 100 * 255 == 255 * mx).
    { rewrite clamp_inside by (rewrite E50; lra). rewrite Heq. field. }
    f_equal; apply round_integer; rewrite El; lra.
  - apply Qeq_bool_neq in Heq.
    assert (Hd : 0 < mx - mn) by lra.
    set (den := 1 - Qabs (2 * ((mx + mn) / 2) - 1)).
    assert (E2 : 2 * ((mx + mn) / 2) - 1 == mx + mn - 1) by field.
    assert (Hden : mx - mn <= den).
    { unfold den.
      destruct (Qabs_cases (2 * ((mx + mn) / 2) - 1)) as [[Hc E]|[Hc E]];
        rewrite E2 in Hc; rewrite E, E2; lra. }
    rewrite divQ_defined by lra. cbn [Py.bind].
    destruct (Qeq_bool mx r1) eqn:Er; [|destruct (Qeq_bool mx g1) eqn:Eg].
    + (* red is the largest channel *)
      apply Qeq_bool_iff in Er.
      rewrite divQ_defined by lra. cbn [Py.bind h l s].
      destruct (quotient_facts (g1 - b1) (mx - mn)) as (Hu & Eu & Upos & Uneg);
        [lra|lra|].
      set (u := (g1 - b1) / (mx - mn)) in *.
      destruct (Py.Qltb g1 b1) eqn:Egb;
        [apply Qltb_lt in Egb | apply Qltb_ge in Egb].
      * assert (Emn : mn == g1) by (destruct Hmn' as [E|[E|E]]; lra).
        assert (Hneg : u < 0) by (apply Uneg; lra).
        eexists. split; [reflexivity|]. cbn [h l s]. subst den.
        destruct (hls_to_rgb_colour (u + 6) mx mn)
          as (p & q & h1 & E & Hp & Hq & Hh); try lra.
        rewrite E. f_equal.
        -- channel p q (h1 + (1 # 3)) (u + 2).
        -- channel p q h1 (u + 6).
        -- channel p q (h1 - (1 # 3)) (u + 4).
      * assert (Emn : mn == b1) by (destruct Hmn' as [E|[E|E]]; lra).
        assert (Hpos : 0 <= u) by (apply Upos; lra).
        eexists. split; [reflexivity|]. cbn [h l s]. subst den.
        destruct (hls_to_rgb_colour (u + 0) mx mn)
          as (p & q & h1 & E & Hp & Hq & Hh); try lra.
        rewrite E. f_equal.
        -- channel p q (h1 + (1 # 3)) (u + 2).
        -- channel p q h1 u.
        -- channel p q (h1 - (1 # 3)) (u + 4).
    + (* green is the largest channel *)
      apply Qeq_bool_iff in Eg. apply Qeq_bool_neq in Er.
      rewrite divQ_defined by lra. cbn [Py.bind h l s].
      destruct (quotient_facts (b1 - r1) (mx - mn)) as (Hu & Eu & Upos & Uneg);
        [lra|lra|].
      set (u := (b1 - r1) / (mx - mn)) in *.
      eexists. split; [reflexivity|]. cbn [h l s]. subst den.
      destruct (hls_to_rgb_colour (u + 2) mx mn)
        as (p & q & h1 & E & Hp & Hq & Hh); try lra.
      rewrite E.
      destruct (Qlt_le_dec (b1 - r1) 0) as [Hsign|Hsign].
      * assert (Emn : mn == b1) by (destruct Hmn' as [E'|[E'|E']]; lra).
        assert (Hneg : u < 0) by (apply Uneg; lra).
        f_equal.
        -- channel p q (h1 + (1 # 3)) (u + 4).
        -- channel p q h1 (u + 2).
        -- channel p q (h1 - (1 # 3)) (u + 6).
      * assert (Emn : mn == r1) by (destruct Hmn' as [E'|[E'|E']]; lra).
        assert (Hpos : 0 <= u) by (apply Upos; lra).
        f_equal.
        -- channel p q (h1 + (1 # 3)) (u + 4).
        -- channel p q h1 (u + 2).
        -- channel p q (h1 - (1 # 3)) u.
    + (* blue is the largest channel *)
      apply Qeq_bool_neq in Er, Eg.
      assert (Eb : mx == b1) by (destruct Hmx' as [E'|[E'|E']]; tauto).
      rewrite divQ_defined by lra. cbn [Py.bind h l s].
      destruct (quotient_facts (r1 - g1) (mx - mn)) as (Hu & Eu & Upos & Uneg);
        [lra|lra|].
      set (u := (r1 - g1) / (mx - mn)) in *.
      eexists. split; [reflexivity|]. cbn [h l s]. subst den.
      destruct (hls_to_rgb_colour (u + 4) mx mn)
        as (p & q & h1 & E & Hp & Hq & Hh); try lra.
      rewrite E.
      destruct (Qlt_le_dec (r1 - g1) 0) as [Hsign|Hsign].
      * assert (Emn : mn == r1) by (destruct Hmn' as [E'|[E'|E']]; lra).
        assert (Hneg : u < 0) by (apply Uneg; lra).
        f_equal.
        -- channel p q (h1 + (1 # 3)) (u + 6).
        -- channel p q h1 (u + 4).
        -- channel p q (h1 - (1 # 3)) (u + 2).
      * assert (Emn : mn == g1) by (destruct Hmn' as [E'|[E'|E']]; lra).
        assert (Hpos : 0 <= u) by (apply Upos; lra).
        f_equal.
        -- channel p q (h1 + (1 # 3)) u.
        -- channel p q h1 (u + 4).
        -- channel p q (h1 - (1 # 3)) (u + 2).
Qed.

Lemma rgb_hls_roundtrip_violet :
  exists hls,
    rgb_to_hls (inject_Z 127) (inject_Z 86) (inject_Z 217) = Some hls /\
    hls_to_rgb (h hls) (l hls) (s hls)
    = {| r := 127; g := 86; b := 217 |}.
Proof. apply (rgb_hls_roundtrip 127 86 217); lia. Defined.

Lemma byte_codes_ok :
  forallb byte_code_ok (map Z.of_nat (seq 0 256)) = true.
Proof. vm_compute. reflexivity. Qed.

Lemma byte_code (n : Z) :
  (0 <= n <= 255)%Z ->
  String.length (format_02X n) = 2%nat /\
  HexString.Raw.to_N (format_02X n) 0%N = Z.to_N n.
Proof.
  intro Hn. pose proof byte_codes_ok as H.
  rewrite forallb_forall in H. specialize (H n).
  assert (Hin : In n (map Z.of_nat (seq 0 256))).
  { apply in_map_iff. exists (Z.to_nat n). split; [lia|].
    apply in_seq. lia. }
  apply H in Hin. unfold byte_code_ok in Hin.
  apply andb_true_iff in Hin as [Hlen Hdec].
  apply Nat.eqb_eq in Hlen. split; [exact Hlen|].
  apply Z.eqb_eq in Hdec. lia.
Qed.

Lemma format_02X_injective (n m : Z) :
  (0 <= n <= 255)%Z -> (0 <= m <= 255)%Z ->
  format_02X n = format_02X m -> n = m.
Proof.
  intros Hn Hm E.
  destruct (byte_code n Hn) as [_ Dn]. destruct (byte_code m Hm) as [_ Dm].
  rewrite E, Dm in Dn. lia.
Qed.

Lemma string_length_append (a b : string) :
  String.length (a ++ b) = (String.length a + String.length b)%nat.
Proof. induction a as [|ch a IH]; cbn; [reflexivity|now rewrite IH]. Qed.

Lemma string_append_inj (a a' b b' : string) :
  String.length a = String.length a' ->
  (a ++ b)%string = (a' ++ b')%string -> a = a' /\ b = b'.
Proof.
  revert a'. induction a as [|ch a IH]; intros [|ch' a'] Hlen E;
    cbn in Hlen; try discriminate.
  - now split.
  - cbn in E. injection E as -> E. injection Hlen as Hlen.
    destruct (IH a' Hlen E) as [-> ->]. now split.
Qed.

Lemma intQ_byte (x : Q) : 0 <= x < 256 ->
  Py.intQ x = Qfloor x /\ (0 <= Qfloor x <= 255)%Z.
Proof.
  intros [H0 H1]. unfold Py.intQ.
  assert (E : Qle_bool 0 x = true) by now apply Qle_bool_iff.
  rewrite E. split; [reflexivity|].
  pose proof (Qfloor_le x) as Hf. apply Qfloor_resp_le in H0.
  change (Qfloor 0) with 0%Z in H0. split; [exact H0|].
  assert (inject_Z (Qfloor x) < inject_Z 256) by (change (inject_Z 256) with 256; lra).
  rewrite <- Zlt_Qlt in H. lia.
Qed.

(** X7.  For channels in [0, 256) the colour code has seven characters, and
    two colours have the same code exactly when their channels have the
    same integer parts. *)
Theorem rgb_to_hex_code (c c' : RGBf) :
  0 <= fr c < 256 -> 0 <= fg c < 256 -> 0 <= fb c < 256 ->
  0 <= fr c' < 256 -> 0 <= fg c' < 256 -> 0 <= fb c' < 256 ->
  String.length (rgb_to_hex c) = 7%nat /\
  (rgb_to_hex c = rgb_to_hex c' <->
   Qfloor (fr c) = Qfloor (fr c') /\ Qfloor (fg c) = Qfloor (fg c')
   /\ Qfloor (fb c) = Qfloor (fb c')).
Proof.
  intros Hr Hg Hb Hr' Hg' Hb'. unfold rgb_to_hex.
  destruct (intQ_byte _ Hr) as [-> Br]. destruct (intQ_byte _ Hg) as [-> Bg].
  destruct (intQ_byte _ Hb) as [-> Bb]. destruct (intQ_byte _ Hr') as [-> Br'].
  destruct (intQ_byte _ Hg') as [-> Bg']. destruct (intQ_byte _ Hb') as [-> Bb'].
  destruct (byte_code _ Br) as [Lr _]. destruct (byte_code _ Bg) as [Lg _].
  destruct (byte_code _ Bb) as [Lb _]. destruct (byte_code _ Br') as [Lr' _].
  destruct (byte_code _ Bg') as [Lg' _].
  split.
  - rewrite !string_length_append, Lr, Lg, Lb. reflexivity.
  - split.
    + intro E. apply string_append_inj in E as [_ E]; [|reflexivity].
      apply string_append_inj in E as [Er E]; [|congruence].
      apply string_append_inj in E as [Eg Eb]; [|congruence].
      repeat split; apply format_02X_injective; assumption.
    + intros (-> & -> & ->). reflexivity.
Qed.

Lemma rgb_to_hex_code_violet :
  String.length (rgb_to_hex {| fr := 127; fg := 86; fb := 217 |}) = 7%nat /\
  (rgb_to_hex {| fr := 127; fg := 86; fb := 217 |}
   = rgb_to_hex {| fr := 255 # 2; fg := 86; fb := 217 |} <->
   Qfloor 127 = Qfloor (255 # 2) /\ Qfloor 86 = Qfloor 86
   /\ Qfloor 217 = Qfloor 217).
Proof.
  apply (rgb_to_hex_code {| fr := 127; fg := 86; fb := 217 |}
                         {| fr := 255 # 2; fg := 86; fb := 217 |});
    cbn [fr fg fb]; lra.
Defined.

End Lab1_more.

(* ================================================================== *)
(** * Lab 3: the shape of the rasterised lines and circles *)
(* ================================================================== *)

Module Lab3_more.
Import Lab3 Lab3Spec PyFacts Lab3_proofs.
Local Open Scope Z_scope.

Lemma range_succ (n : Z) : 0 <= n -> range (n + 1) = range n ++ [n].
Proof.
  intro Hn. unfold range.
  replace (Z.to_nat (n + 1)) with (S (Z.to_nat n)) by lia.
  rewrite seq_S, map_app. cbn [map Nat.add]. now rewrite Z2Nat.id.
Qed.

Lemma in_range (n i : Z) : In i (range n) <-> 0 <= i < n.
Proof.
  unfold range. rewrite in_map_iff. split.
  - intros (k & <- & Hk). apply in_seq in Hk. lia.
  - intro Hi. exists (Z.to_nat i). split; [lia|]. apply in_seq. lia.
Qed.

Lemma is_new_snoc (pts : list Point) (p q : Point) :
  is_new (pts ++ [p]) q = negb (point_eqb p q).
Proof.
  unfold is_new. rewrite rev_app_distr. cbn [rev app].
  destruct p as [px py]. reflexivity.
Qed.

Lemma point_eqb_eq (p q : Point) : point_eqb p q = true <-> p = q.
Proof.
  destruct p as [a b], q as [c d]. unfold point_eqb. cbn [fst snd].
  rewrite andb_true_iff, !Z.eqb_eq. split.
  - now intros [-> ->].
  - intro E. injection E as -> ->. now split.
Qed.

(** Dropping a sample equal to the last point kept changes nothing on a
    list without neighbouring repeats. *)
Lemma keep_new_no_repeat (qs : list Point) :
  forall acc p,
    no_repeat (p :: qs) ->
    fold_left (fun pts q => if is_new pts q then pts ++ [q] else pts)
              qs (acc ++ [p])
    = acc ++ p :: qs.
Proof.
  induction qs as [|q qs IH]; intros acc p Hnr; cbn [fold_left].
  - reflexivity.
  - destruct Hnr as [Hpq Hnr]. rewrite is_new_snoc.
    destruct (point_eqb p q) eqn:E.
    + apply point_eqb_eq in E. contradiction.
    + cbn [negb]. rewrite (IH (acc ++ [p]) q Hnr), <- app_assoc. reflexivity.
Qed.

Lemma NoDup_no_repeat (l : list Point) : NoDup l -> no_repeat l.
Proof.
  induction 1 as [|p l Hp Hl IH]; [exact I|].
  destruct l as [|q l]; [exact I|]. split; [|exact IH].
  intros ->. apply Hp. now left.
Qed.

Lemma NoDup_map_on {A B : Type} (f : A -> B) (l : list A) :
  (forall a b, In a l -> In b l -> f a = f b -> a = b) ->
  NoDup l -> NoDup (map f l).
Proof.
  intros Hinj Hl. induction Hl as [|a l Ha Hl IH]; cbn [map]; constructor.
  - rewrite in_map_iff. intros (b & Hb & Hin).
    apply Ha. rewrite (Hinj a b); auto using in_eq, in_cons.
  - apply IH. intros x z Hx Hz. apply Hinj; now right.
Qed.

Lemma NoDup_range (n : Z) : NoDup (range n).
Proof.
  unfold range. apply NoDup_map_on; [|apply seq_NoDup].
  intros a b _ _. apply Nat2Z.inj.
Qed.

Local Open Scope Q_scope.

Lemma Qltb_proper (a a' b b' : Q) :
  a == a' -> b == b' -> Py.Qltb a b = Py.Qltb a' b'.
Proof.
  intros Ea Eb.
  destruct (Py.Qltb a b) eqn:E1, (Py.Qltb a' b') eqn:E2; try reflexivity.
  - apply Qltb_lt in E1. apply Qltb_ge in E2. lra.
  - apply Qltb_ge in E1. apply Qltb_lt in E2. lra.
Qed.

(** [round] depends on the value of the float only. *)
Lemma round_proper (x x' : Q) : x == x' -> Py.round x = Py.round x'.
Proof.
  intro E. unfold Py.round.
  assert (Ef : Qfloor x = Qfloor x') by now rewrite E.
  rewrite Ef.
  rewrite (Qltb_proper (x - inject_Z (Qfloor x')) (x' - inject_Z (Qfloor x'))
             (1 # 2) (1 # 2)) by (try reflexivity; now rewrite E).
  rewrite (Qltb_proper (1 # 2) (1 # 2) (x - inject_Z (Qfloor x'))
             (x' - inject_Z (Qfloor x'))) by (try reflexivity; now rewrite E).
  reflexivity.
Qed.

Lemma round_offset (a d i steps : Z) (sg : Z) :
  (0 < steps)%Z -> d = (sg * steps)%Z ->
  Py.round (inject_Z a + inject_Z d * (inject_Z i / inject_Z steps))
  = (a + sg * i)%Z.
Proof.
  intros Hs ->. apply round_integer.
  rewrite !inject_Z_plus, !inject_Z_mult.
  assert (~ inject_Z steps == 0).
  { change 0 with (inject_Z 0). rewrite inject_Z_injective. lia. }
  field. assumption.
Qed.


Local Open Scope Z_scope.

(** Along the major axis the samples advance by one per step. *)
Lemma sample_major (x0 y0 dx dy steps i : Z) :
  0 < steps ->
  (Z.abs dx = steps ->
   fst (sample x0 y0 dx dy steps i) = x0 + Z.sgn dx * i) /\
  (Z.abs dy = steps ->
   snd (sample x0 y0 dx dy steps i) = y0 + Z.sgn dy * i).
Proof.
  intros Hs. unfold sample. cbn [fst snd].
  split; intro Ha; apply round_offset; try assumption; lia.
Qed.

Lemma sample_injective (x0 y0 dx dy steps i j : Z) :
  0 < steps -> steps = Z.max (Z.abs dx) (Z.abs dy) ->
  sample x0 y0 dx dy steps i = sample x0 y0 dx dy steps j -> i = j.
Proof.
  intros Hs Hmax E.
  destruct (sample_major x0 y0 dx dy steps i Hs) as [Xi Yi].
  destruct (sample_major x0 y0 dx dy steps j Hs) as [Xj Yj].
  rewrite E in Xi, Yi.
  destruct (Z.max_spec (Z.abs dx) (Z.abs dy)) as [[_ M]|[_ M]];
    rewrite M in Hmax.
  - specialize (Yi (eq_sym Hmax)). specialize (Yj (eq_sym Hmax)). nia.
  - specialize (Xi (eq_sym Hmax)). specialize (Xj (eq_sym Hmax)). nia.
Qed.

Lemma fold_left_over_map {A B C : Type} (g : A -> B) (f : C -> B -> C)
      (l : list A) :
  forall acc, fold_left f (map g l) acc = fold_left (fun a x => f a (g x)) l acc.
Proof. induction l as [|x l IH]; intro acc; cbn; [reflexivity|apply IH]. Qed.

Lemma step_line_samples (x0 y0 x1 y1 : Z) :
  let dx := x1 - x0 in
  let dy := y1 - y0 in
  let steps := Z.max (Z.abs dx) (Z.abs dy) in
  0 < steps ->
  step_line (x0, y0) (x1, y1)
  = map (sample x0 y0 dx dy steps) (range (steps + 1)).
Proof.
  intros dx dy steps Hs. unfold step_line. fold dx dy steps.
  destruct (steps =? 0) eqn:E; [apply Z.eqb_eq in E; lia|].
  change (fun pts i =>
            let t := (inject_Z i / inject_Z steps)%Q in
            let x := Py.round (inject_Z x0 + inject_Z dx * t) in
            let y := Py.round (inject_Z y0 + inject_Z dy * t) in
            if is_new pts (x, y) then pts ++ [(x, y)] else pts)
    with (fun pts i =>
            (fun pts q => if is_new pts q then pts ++ [q] else pts)
              pts (sample x0 y0 dx dy steps i)).
  rewrite <- (fold_left_over_map (sample x0 y0 dx dy steps)
                (fun pts q => if is_new pts q then pts ++ [q] else pts)).
  assert (Hnd : NoDup (map (sample x0 y0 dx dy steps) (range (steps + 1)))).
  { apply NoDup_map_on; [|apply NoDup_range].
    intros a b _ _. now apply sample_injective. }
  destruct (map (sample x0 y0 dx dy steps) (range (steps + 1))) as [|p qs];
    [reflexivity|].
  cbn [fold_left is_new rev app].
  apply (keep_new_no_repeat qs [] p). now apply NoDup_no_repeat.
Qed.

Lemma sample_ends (x0 y0 dx dy steps : Z) :
  0 < steps ->
  sample x0 y0 dx dy steps 0 = (x0, y0) /\
  sample x0 y0 dx dy steps steps = (x0 + dx, y0 + dy).
Proof.
  intro Hs. unfold sample.
  assert (Hne : ~ (inject_Z steps == 0)%Q).
  { change 0%Q with (inject_Z 0). rewrite inject_Z_injective. lia. }
  split; f_equal; apply round_integer;
    rewrite ?inject_Z_plus; change (inject_Z 0) with 0%Q; field; assumption.
Qed.

Lemma step_line_points (p0 p1 : Point) :
  let steps := Z.max (Z.abs (fst p1 - fst p0)) (Z.abs (snd p1 - snd p0)) in
  length (step_line p0 p1) = S (Z.to_nat steps) /\
  (exists rest, step_line p0 p1 = p0 :: rest) /\
  (exists init, step_line p0 p1 = init ++ [p1]) /\
  NoDup (step_line p0 p1).
Proof.
  destruct p0 as [x0 y0], p1 as [x1 y1]. cbn [fst snd]. cbv zeta.
  set (steps := Z.max (Z.abs (x1 - x0)) (Z.abs (y1 - y0))).
  destruct (Z.eq_dec steps 0) as [E0|Hne].
  - assert (x1 = x0 /\ y1 = y0) as [-> ->] by lia.
    unfold step_line. subst steps. rewrite E0. cbn [Z.eqb].
    split; [reflexivity|]. split; [now exists []|].
    split; [now exists []|]. constructor; [intros []|constructor].
  - assert (Hs : 0 < steps) by lia.
    rewrite (step_line_samples x0 y0 x1 y1 Hs). fold steps.
    destruct (sample_ends x0 y0 (x1 - x0) (y1 - y0) steps Hs) as [S0 S1].
    split; [|split; [|split]].
    + rewrite length_map. unfold range. rewrite length_map, length_seq. lia.
    + unfold range. replace (Z.to_nat (steps + 1)) with (S (Z.to_nat steps))
        by lia.
      cbn [seq map]. change (Z.of_nat 0) with 0. rewrite S0. now eexists.
    + rewrite range_succ, map_app by lia. cbn [map]. rewrite S1.
      replace (x0 + (x1 - x0)) with x1 by lia.
      replace (y0 + (y1 - y0)) with y1 by lia. now eexists.
    + apply NoDup_map_on; [|apply NoDup_range].
      intros a b _ _. now apply sample_injective.
Qed.

(** The accumulators of [dda_line] hold the value [step_line] recomputes. *)
Lemma dda_fold (x0 y0 dx dy steps : Z) :
  0 < steps ->
  forall (len start : nat) (x y : Q) (pts : list Point),
    (x == inject_Z x0
          + inject_Z (Z.of_nat start) * (inject_Z dx / inject_Z steps))%Q ->
    (y == inject_Z y0
          + inject_Z (Z.of_nat start) * (inject_Z dy / inject_Z steps))%Q ->
    snd (fold_left
           (fun '(x, y, pts) (_ : Z) =>
              let px := Py.round x in
              let py := Py.round y in
              let pts := if is_new pts (px, py) then pts ++ [(px, py)]
                         else pts in
              ((x + inject_Z dx / inject_Z steps)%Q,
               (y + inject_Z dy / inject_Z steps)%Q, pts))
           (map Z.of_nat (seq start len)) (x, y, pts))
    = fold_left
        (fun pts q => if is_new pts q then pts ++ [q] else pts)
        (map (sample x0 y0 dx dy steps) (map Z.of_nat (seq start len))) pts.
Proof.
  intro Hs.
  assert (Hne : ~ (inject_Z steps == 0)%Q).
  { change 0%Q with (inject_Z 0). rewrite inject_Z_injective. lia. }
  induction len as [|len IH]; intros start x y pts Hx Hy; [reflexivity|].
  cbn [seq map fold_left].
  assert (Ex : Py.round x
               = fst (sample x0 y0 dx dy steps (Z.of_nat start))).
  { unfold sample. cbn [fst]. apply round_proper. rewrite Hx. field.
    exact Hne. }
  assert (Ey : Py.round y
               = snd (sample x0 y0 dx dy steps (Z.of_nat start))).
  { unfold sample. cbn [snd]. apply round_proper. rewrite Hy. field.
    exact Hne. }
  rewrite Ex, Ey, <- surjective_pairing.
  apply IH.
  - rewrite Hx, Nat2Z.inj_succ. unfold Z.succ. rewrite inject_Z_plus.
    change (inject_Z 1) with 1%Q. field. exact Hne.
  - rewrite Hy, Nat2Z.inj_succ. unfold Z.succ. rewrite inject_Z_plus.
    change (inject_Z 1) with 1%Q. field. exact Hne.
Qed.

(** X8.  [step_line] returns max(|dx|, |dy|) + 1 pairwise distinct points,
    the first of which is [p0] and the last [p1]; for [p0 = p1] that is the
    single point [p0]. *)
Theorem step_line_shape (p0 p1 : Point) :
  let steps := Z.max (Z.abs (fst p1 - fst p0)) (Z.abs (snd p1 - snd p0)) in
  length (step_line p0 p1) = S (Z.to_nat steps) /\
  (exists rest, step_line p0 p1 = p0 :: rest) /\
  (exists init, step_line p0 p1 = init ++ [p1]) /\
  NoDup (step_line p0 p1).
Proof. exact (step_line_points p0 p1). Qed.

(** With exact accumulators the points of [dda_line] are the samples of
    [step_line]. *)
Lemma dda_line_exact (p0 p1 : Point) :
  dda_line p0 p1 = step_line p0 p1.
Proof.
  destruct p0 as [x0 y0], p1 as [x1 y1]. unfold dda_line, step_line.
  set (dx := x1 - x0). set (dy := y1 - y0).
  set (steps := Z.max (Z.abs dx) (Z.abs dy)).
  destruct (steps =? 0) eqn:E; [reflexivity|]. apply Z.eqb_neq in E.
  assert (Hs : 0 < steps) by (subst steps; lia).
  unfold range.
  pose proof (dda_fold x0 y0 dx dy steps Hs (Z.to_nat (steps + 1)) 0
                (inject_Z x0) (inject_Z y0) []) as H.
  cbv zeta in H. cbv zeta. rewrite H.
  - rewrite fold_left_over_map. reflexivity.
  - change (inject_Z (Z.of_nat 0)) with 0%Q. ring.
  - change (inject_Z (Z.of_nat 0)) with 0%Q. ring.
Qed.

(** X9.  [dda_line] returns max(|dx|, |dy|) + 1 pairwise distinct points,
    the first of which is [p0] and the last [p1]; for [p0 = p1] that is the
    single point [p0]. *)
Theorem dda_line_shape (p0 p1 : Point) :
  let steps := Z.max (Z.abs (fst p1 - fst p0)) (Z.abs (snd p1 - snd p0)) in
  length (dda_line p0 p1) = S (Z.to_nat steps) /\
  (exists rest, dda_line p0 p1 = p0 :: rest) /\
  (exists init, dda_line p0 p1 = init ++ [p1]) /\
  NoDup (dda_line p0 p1).
Proof.
  rewrite dda_line_exact. apply step_line_points.
Qed.

Section Shape.
Variables x1 y1 dx dy sx sy : Z.
Hypothesis sx_unit : sx = 1 \/ sx = -1.
Hypothesis sy_unit : sy = 1 \/ sy = -1.

(** What the loop appends is a chain of grid neighbours that stays between
    the current point and the endpoint. *)
Lemma bresenham_loop_chain :
  forall (fuel : nat) (rx ry x0 y0 err : Z) (pts out : list Point),
    at_distance x1 y1 dx dy sx sy rx ry x0 y0 err ->
    bresenham_loop fuel x1 y1 dx dy sx sy x0 y0 err pts = Some out ->
    exists mid,
      out = pts ++ (x0, y0) :: mid /\
      chain ((x0, y0) :: mid) /\
      Forall (in_box (x0, y0) (x1, y1)) ((x0, y0) :: mid).
Proof.
  induction fuel as [|fuel IH]; intros rx ry x0 y0 err pts out Hinv Hrun;
    [discriminate|].
  destruct Hinv as (Hrx & Hry & Hx & Hy & Herr).
  cbn [bresenham_loop] in Hrun.
  assert (Hbox0 : in_box (x0, y0) (x1, y1) (x0, y0)).
  { unfold in_box. cbn [fst snd]. lia. }
  destruct ((x0 =? x1) && (y0 =? y1)) eqn:Hend.
  - injection Hrun as <-. exists [].
    split; [reflexivity|]. split; [exact I|].
    constructor; [exact Hbox0|constructor].
  - assert (Hpos : 0 < rx \/ 0 < ry).
    { apply andb_false_iff in Hend as [E|E]; apply Z.eqb_neq in E; nia. }
    assert (Hnext : forall ax ay rx' ry' err',
               (ax = 0 \/ ax = 1) -> (ay = 0 \/ ay = 1) -> 0 < ax + ay ->
               rx' = rx - ax -> ry' = ry - ay -> 0 <= rx' -> 0 <= ry' ->
               err' = dx - dy + rx' * dy - ry' * dx ->
               bresenham_loop fuel x1 y1 dx dy sx sy
                              (x0 + ax * sx) (y0 + ay * sy) err'
                              (pts ++ [(x0, y0)]) = Some out ->
               exists mid,
                 out = pts ++ (x0, y0) :: mid /\
                 chain ((x0, y0) :: mid) /\
                 Forall (in_box (x0, y0) (x1, y1)) ((x0, y0) :: mid)).
    { intros ax ay rx' ry' err' Hax Hay Hmove -> -> Hrx' Hry' -> Hrun'.
      destruct (IH (rx - ax) (ry - ay) (x0 + ax * sx) (y0 + ay * sy) _ _ _
                   ltac:(unfold at_distance; repeat split; try lia; nia) Hrun')
        as (mid & -> & Hchain & Hbox).
      exists ((x0 + ax * sx, y0 + ay * sy) :: mid).
      split; [now rewrite <- app_assoc|]. split.
      - split; [|exact Hchain]. unfold neighbour. cbn [fst snd].
        repeat split; try lia.
        intro E. injection E as E1 E2. nia.
      - constructor; [exact Hbox0|].
        eapply Forall_impl; [|exact Hbox].
        intros [px py]. unfold in_box. cbn [fst snd].
        destruct sx_unit as [-> | ->], sy_unit as [-> | ->]; nia. }
    destruct (2 * err >? - dy) eqn:Hx2; destruct (2 * err <? dx) eqn:Hy2;
      rewrite Z.gtb_ltb in Hx2;
      rewrite ?Z.ltb_lt, ?Z.ltb_ge in Hx2, Hy2.
    + apply (Hnext 1 1 (rx - 1) (ry - 1) (err - dy + dx)); try lia; try nia.
      replace (x0 + 1 * sx) with (x0 + sx) by lia.
      replace (y0 + 1 * sy) with (y0 + sy) by lia. exact Hrun.
    + apply (Hnext 1 0 (rx - 1) ry (err - dy)); try lia; try nia.
      replace (x0 + 1 * sx) with (x0 + sx) by lia.
      replace (y0 + 0 * sy) with y0 by lia. exact Hrun.
    + apply (Hnext 0 1 rx (ry - 1) (err + dx)); try lia; try nia.
      replace (x0 + 0 * sx) with x0 by lia.
      replace (y0 + 1 * sy) with (y0 + sy) by lia. exact Hrun.
    + exfalso. nia.
Qed.

(** When the line is at least as wide as it is high, every iteration
    steps in x. *)
Lemma bresenham_loop_wide :
  dy <= dx ->
  forall (fuel : nat) (rx ry x0 y0 err : Z) (pts out : list Point),
    at_distance x1 y1 dx dy sx sy rx ry x0 y0 err ->
    - dx <= 2 * (rx * dy - ry * dx) <= dx ->
    bresenham_loop fuel x1 y1 dx dy sx sy x0 y0 err pts = Some out ->
    exists mid,
      out = pts ++ (x0, y0) :: mid /\
      length mid = Z.to_nat rx /\
      Forall (fun p => 0 < sx * (fst p - x0)) mid /\
      NoDup ((x0, y0) :: mid).
Proof.
  intro Hwide.
  induction fuel as [|fuel IH]; intros rx ry x0 y0 err pts out Hinv HK Hrun;
    [discriminate|].
  destruct Hinv as (Hrx & Hry & Hx & Hy & Herr).
  cbn [bresenham_loop] in Hrun.
  destruct ((x0 =? x1) && (y0 =? y1)) eqn:Hend.
  - apply andb_true_iff in Hend as [Ex Ey]. apply Z.eqb_eq in Ex, Ey.
    injection Hrun as <-. exists [].
    split; [reflexivity|]. split; [|split; [constructor|]].
    + assert (rx = 0) by nia. subst rx. reflexivity.
    + constructor; [intros []|constructor].
  - assert (Hpos : 0 < rx \/ 0 < ry).
    { apply andb_false_iff in Hend as [E|E]; apply Z.eqb_neq in E; nia. }
    assert (Hxstep : 2 * err > - dy).
    { destruct (Z.eq_dec dx dy) as [E|E]; [|nia].
      subst dy. assert (0 < dx) by lia.
      assert (ry <= rx) by nia. nia. }
    assert (Hrx1 : 0 < rx) by nia.
    assert (Hx2 : (2 * err >? - dy) = true) by (rewrite Z.gtb_ltb; lia).
    rewrite Hx2 in Hrun.
    assert (Hnext : forall ay ry' err',
               (ay = 0 \/ ay = 1) -> ry' = ry - ay -> 0 <= ry' ->
               err' = dx - dy + (rx - 1) * dy - ry' * dx ->
               - dx <= 2 * ((rx - 1) * dy - ry' * dx) <= dx ->
               bresenham_loop fuel x1 y1 dx dy sx sy
                              (x0 + sx) (y0 + ay * sy) err'
                              (pts ++ [(x0, y0)]) = Some out ->
               exists mid,
                 out = pts ++ (x0, y0) :: mid /\
                 length mid = Z.to_nat rx /\
                 Forall (fun p => 0 < sx * (fst p - x0)) mid /\
                 NoDup ((x0, y0) :: mid)).
    { intros ay ry' err' Hay -> Hry' -> HK' Hrun'.
      destruct (IH (rx - 1) (ry - ay) (x0 + sx) (y0 + ay * sy) _ _ _
                   ltac:(unfold at_distance; repeat split; try lia; nia)
                   HK' Hrun')
        as (mid & -> & Hlen & Hahead & Hnd).
      exists ((x0 + sx, y0 + ay * sy) :: mid).
      split; [now rewrite <- app_assoc|]. split; [cbn [Datatypes.length]; lia|].
      assert (Hall : Forall (fun p => 0 < sx * (fst p - x0))
                            ((x0 + sx, y0 + ay * sy) :: mid)).
      { constructor; [cbn [fst]; nia|].
        eapply Forall_impl; [|exact Hahead].
        intros [px py]. cbn [fst]. nia. }
      split; [exact Hall|]. constructor; [|exact Hnd].
      intro Hin. rewrite Forall_forall in Hall.
      specialize (Hall _ Hin). cbn [fst] in Hall. lia. }
    destruct (2 * err <? dx) eqn:Hy2; rewrite ?Z.ltb_lt, ?Z.ltb_ge in Hy2.
    + apply (Hnext 1 (ry - 1) (err - dy + dx)); try lia; try nia.
      replace (y0 + 1 * sy) with (y0 + sy) by lia. exact Hrun.
    + apply (Hnext 0 ry (err - dy)); try lia; try nia.
      replace (y0 + 0 * sy) with y0 by lia. exact Hrun.
Qed.

(** When the line is higher than it is wide, every iteration steps in y. *)
Lemma bresenham_loop_high :
  dx < dy ->
  forall (fuel : nat) (rx ry x0 y0 err : Z) (pts out : list Point),
    at_distance x1 y1 dx dy sx sy rx ry x0 y0 err ->
    - dy <= 2 * (rx * dy - ry * dx) <= dy ->
    bresenham_loop fuel x1 y1 dx dy sx sy x0 y0 err pts = Some out ->
    exists mid,
      out = pts ++ (x0, y0) :: mid /\
      length mid = Z.to_nat ry /\
      Forall (fun p => 0 < sy * (snd p - y0)) mid /\
      NoDup ((x0, y0) :: mid).
Proof.
  intro Hhigh.
  induction fuel as [|fuel IH]; intros rx ry x0 y0 err pts out Hinv HK Hrun;
    [discriminate|].
  destruct Hinv as (Hrx & Hry & Hx & Hy & Herr).
  cbn [bresenham_loop] in Hrun.
  destruct ((x0 =? x1) && (y0 =? y1)) eqn:Hend.
  - apply andb_true_iff in Hend as [Ex Ey]. apply Z.eqb_eq in Ex, Ey.
    injection Hrun as <-. exists [].
    split; [reflexivity|]. split; [|split; [constructor|]].
    + assert (ry = 0) by nia. subst ry. reflexivity.
    + constructor; [intros []|constructor].
  - assert (Hpos : 0 < rx \/ 0 < ry).
    { apply andb_false_iff in Hend as [E|E]; apply Z.eqb_neq in E; nia. }
    assert (Hystep : 2 * err < dx) by nia.
    assert (Hry1 : 0 < ry) by nia.
    assert (Hy2 : (2 * err <? dx) = true) by (apply Z.ltb_lt; lia).
    assert (Hnext : forall ax rx' err',
               (ax = 0 \/ ax = 1) -> rx' = rx - ax -> 0 <= rx' ->
               err' = dx - dy + rx' * dy - (ry - 1) * dx ->
               - dy <= 2 * (rx' * dy - (ry - 1) * dx) <= dy ->
               bresenham_loop fuel x1 y1 dx dy sx sy
                              (x0 + ax * sx) (y0 + sy) err'
                              (pts ++ [(x0, y0)]) = Some out ->
               exists mid,
                 out = pts ++ (x0, y0) :: mid /\
                 length mid = Z.to_nat ry /\
                 Forall (fun p => 0 < sy * (snd p - y0)) mid /\
                 NoDup ((x0, y0) :: mid)).
    { intros ax rx' err' Hax -> Hrx' -> HK' Hrun'.
      destruct (IH (rx - ax) (ry - 1) (x0 + ax * sx) (y0 + sy) _ _ _
                   ltac:(unfold at_distance; repeat split; try lia; nia)
                   HK' Hrun')
        as (mid & -> & Hlen & Hahead & Hnd).
      exists ((x0 + ax * sx, y0 + sy) :: mid).
      split; [now rewrite <- app_assoc|]. split; [cbn [Datatypes.length]; lia|].
      assert (Hall : Forall (fun p => 0 < sy * (snd p - y0))
                            ((x0 + ax * sx, y0 + sy) :: mid)).
      { constructor; [cbn [snd]; nia|].
        eapply Forall_impl; [|exact Hahead].
        intros [px py]. cbn [snd]. nia. }
      split; [exact Hall|]. constructor; [|exact Hnd].
      intro Hin. rewrite Forall_forall in Hall.
      specialize (Hall _ Hin). cbn [snd] in Hall. lia. }
    destruct (2 * err >? - dy) eqn:Hx2; rewrite Hy2 in Hrun;
      rewrite Z.gtb_ltb in Hx2; rewrite ?Z.ltb_lt, ?Z.ltb_ge in Hx2.
    + apply (Hnext 1 (rx - 1) (err - dy + dx)); try lia; try nia.
      replace (x0 + 1 * sx) with (x0 + sx) by lia. exact Hrun.
    + apply (Hnext 0 rx (err + dx)); try lia; try nia.
      replace (x0 + 0 * sx) with x0 by lia. exact Hrun.
Qed.
End Shape.

(** X10.  [bresenham_line] returns max(|dx|, |dy|) + 1 pairwise distinct
    points; each is one of the eight grid neighbours of the one before, and
    all lie in the bounding box of the two endpoints. *)
Theorem bresenham_line_shape (p0 p1 : Point) :
  exists pts,
    bresenham_line (enough_fuel p0 p1) p0 p1 = Some pts /\
    length pts
    = S (Z.to_nat (Z.max (Z.abs (fst p1 - fst p0)) (Z.abs (snd p1 - snd p0))))
    /\ chain pts /\ Forall (in_box p0 p1) pts /\ NoDup pts.
Proof.
  destruct (bresenham_line_reaches p0 p1) as (mid & Hrun & _).
  exists (p0 :: mid). split; [exact Hrun|].
  destruct p0 as [x0 y0], p1 as [x1 y1]. cbn [fst snd].
  unfold bresenham_line in Hrun.
  set (dx := Z.abs (x1 - x0)) in *. set (dy := Z.abs (y1 - y0)) in *.
  set (sx := if x0 <? x1 then 1 else -1) in *.
  set (sy := if y0 <? y1 then 1 else -1) in *.
  assert (Hsx : sx = 1 \/ sx = -1) by (subst sx; destruct (x0 <? x1); auto).
  assert (Hsy : sy = 1 \/ sy = -1) by (subst sy; destruct (y0 <? y1); auto).
  assert (Hinv : at_distance x1 y1 dx dy sx sy dx dy x0 y0 (dx - dy)).
  { unfold at_distance. subst dx dy sx sy.
    destruct (x0 <? x1) eqn:Ex; destruct (y0 <? y1) eqn:Ey;
      rewrite ?Z.ltb_lt, ?Z.ltb_ge in Ex, Ey; repeat split; lia. }
  destruct (bresenham_loop_chain x1 y1 dx dy sx sy Hsx Hsy _ _ _ _ _ _ _ _
              Hinv Hrun) as (mid1 & E1 & Hchain & Hbox).
  cbn [app] in E1. injection E1 as ->.
  assert (Hcount : length mid1 = Z.to_nat (Z.max dx dy) /\
                   NoDup ((x0, y0) :: mid1)).
  { assert (HK0 : 2 * (dx * dy - dy * dx) = 0) by lia.
    assert (Hdx : 0 <= dx) by (subst dx; lia).
    assert (Hdy : 0 <= dy) by (subst dy; lia).
    pose proof Hrun as Hrun2.
    destruct (Z_le_gt_dec dy dx) as [Hw|Hh].
    - eapply bresenham_loop_wide in Hrun2; try eassumption; [|lia].
      destruct Hrun2 as (mid2 & E2 & Hlen & _ & Hnd).
      cbn [app] in E2. injection E2 as <-. split; [|exact Hnd].
      rewrite Hlen. f_equal. lia.
    - eapply bresenham_loop_high in Hrun2; try eassumption; [|lia|lia].
      destruct Hrun2 as (mid2 & E2 & Hlen & _ & Hnd).
      cbn [app] in E2. injection E2 as <-. split; [|exact Hnd].
      rewrite Hlen. f_equal. lia. }
  destruct Hcount as [Hlen Hnd].
  split; [cbn [Datatypes.length]; f_equal; exact Hlen|].
  split; [exact Hchain|]. split; [exact Hbox|exact Hnd].
Qed.

Lemma existsb_point (p : Point) (l : list Point) :
  existsb (point_eqb p) l = true <-> In p l.
Proof.
  rewrite existsb_exists. split.
  - intros (q & Hq & E). apply point_eqb_eq in E. now subst.
  - intro H. exists p. split; [exact H|]. now apply point_eqb_eq.
Qed.

Lemma remove_duplicates_fold (l : list Point) :
  forall seen uniq,
    (forall p, In p seen <-> In p uniq) -> NoDup uniq ->
    let out := snd (fold_left
                      (fun '(seen, uniq) p =>
                         if existsb (point_eqb p) seen then (seen, uniq)
                         else (p :: seen, uniq ++ [p]))
                      l (seen, uniq)) in
    NoDup out /\ forall p, In p out <-> In p uniq \/ In p l.
Proof.
  induction l as [|q l IH]; intros seen uniq Hsame Hnd; cbn [fold_left].
  - cbn [snd]. split; [exact Hnd|]. intro p. cbn [In]. tauto.
  - destruct (existsb (point_eqb q) seen) eqn:E.
    + apply existsb_point in E.
      destruct (IH seen uniq Hsame Hnd) as [Hn Hin]. cbv zeta in *.
      split; [exact Hn|]. intro p. rewrite Hin. cbn [In].
      split; [tauto|]. intros [H|[<-|H]]; auto.
      left. now apply Hsame.
    + assert (Hq : ~ In q uniq).
      { intro H. apply Hsame in H. apply existsb_point in H. congruence. }
      destruct (IH (q :: seen) (uniq ++ [q])) as [Hn Hin].
      * intro p. cbn [In]. rewrite in_app_iff, Hsame. cbn [In]. tauto.
      * apply NoDup_app; [exact Hnd|repeat constructor; intros []|].
        intros p Hp [<-|[]]. contradiction.
      * cbv zeta in *. split; [exact Hn|]. intro p. rewrite Hin.
        rewrite in_app_iff. cbn [In]. tauto.
Qed.

Lemma remove_duplicates_spec (l : list Point) :
  NoDup (remove_duplicates l) /\
  forall p, In p (remove_duplicates l) <-> In p l.
Proof.
  destruct (remove_duplicates_fold l [] []) as [Hn Hin];
    [tauto|constructor|].
  split; [exact Hn|]. intro p. unfold remove_duplicates.
  cbv zeta in Hin. rewrite Hin. cbn [In]. tauto.
Qed.

Lemma in_plot (cx cy x y a b : Z) :
  In (cx + a, cy + b) (plot cx cy x y) <->
  ((a = x \/ a = - x) /\ (b = y \/ b = - y)) \/
  ((a = y \/ a = - y) /\ (b = x \/ b = - x)).
Proof.
  unfold plot. cbn [In]. split.
  - intros H. repeat (destruct H as [H|H]; [injection H as H1 H2; lia|]).
    contradiction.
  - intros [[Ha Hb]|[Ha Hb]]; destruct Ha as [-> | ->], Hb as [-> | ->];
      repeat (first [left; f_equal; lia | right]).
Qed.

(** The loop stops: [y - x] shrinks with every iteration. *)
Lemma circle_loop_stops (x0 y0 : Z) :
  forall (fuel : nat) (x y d : Z) (pts : list Point),
    (Z.to_nat (y - x + 1) < fuel)%nat ->
    exists out, circle_loop fuel x0 y0 x y d pts = Some out.
Proof.
  induction fuel as [|fuel IH]; intros x y d pts Hfuel; [lia|].
  cbn [circle_loop]. destruct (y >=? x) eqn:E; [|now eexists].
  rewrite Z.geb_le in E.
  destruct (d <? 0); apply IH; lia.
Qed.

Lemma circle_loop_fuel (x0 y0 : Z) :
  forall (n m : nat) (x y d : Z) (pts out : list Point),
    circle_loop n x0 y0 x y d pts = Some out -> (n <= m)%nat ->
    circle_loop m x0 y0 x y d pts = Some out.
Proof.
  induction n as [|n IH]; intros m x y d pts out Hrun Hle; [discriminate|].
  destruct m as [|m]; [lia|]. cbn [circle_loop] in *.
  destruct (y >=? x); [|assumption].
  destruct (d <? 0); (apply IH; [assumption|lia]).
Qed.

(** What the loop appends is a union of [plot]s, and every plotted pair
    meets the bound. *)
Lemma circle_loop_points (x0 y0 r : Z) :
  forall (fuel : nat) (x y d : Z) (pts out : list Point),
    circle_state r x y d ->
    circle_loop fuel x0 y0 x y d pts = Some out ->
    exists more,
      out = pts ++ more /\
      Forall (on_circle (x0, y0) r) more /\
      mirrored (x0, y0) more.
Proof.
  induction fuel as [|fuel IH]; intros x y d pts out Hst Hrun; [discriminate|].
  cbn [circle_loop] in Hrun.
  destruct (y >=? x) eqn:E.
  - rewrite Z.geb_le in E.
    destruct Hst as (Hx & Hy & Hd & Hlo & Hhi). specialize (Hhi E).
    assert (Hplot : Forall (on_circle (x0, y0) r) (plot x0 y0 x y)).
    { assert (Herr : Z.abs (x * x + y * y - r * r) <= r) by nia.
      unfold plot.
      repeat (apply Forall_cons;
              [unfold on_circle; cbn [fst snd];
               match goal with
               | |- Z.abs ?e <= r =>
                   replace e with (x * x + y * y - r * r) by ring;
                   exact Herr
               end|]).
      apply Forall_nil. }
    assert (Hnext : forall d' y',
               circle_state r (x + 1) y' d' ->
               circle_loop fuel x0 y0 (x + 1) y' d' (pts ++ plot x0 y0 x y)
               = Some out ->
               exists more,
                 out = pts ++ more /\
                 Forall (on_circle (x0, y0) r) more /\
                 mirrored (x0, y0) more).
    { intros d' y' Hst' Hrun'.
      destruct (IH _ _ _ _ _ Hst' Hrun') as (more & -> & Hon & Hmir).
      exists (plot x0 y0 x y ++ more). split; [now rewrite app_assoc|].
      split; [apply Forall_app; now split|].
      intros a b Hin. cbn [fst snd] in *. rewrite !in_app_iff in *.
      destruct Hin as [Hin|Hin].
      - repeat split; left; apply in_plot in Hin;
          [replace (x0 - a) with (x0 + - a) by lia
          |replace (y0 - b) with (y0 + - b) by lia
          |]; apply in_plot; lia.
      - destruct (Hmir a b Hin) as (H1 & H2 & H3). tauto. }
    destruct (d <? 0) eqn:Ed; [apply Z.ltb_lt in Ed | apply Z.ltb_ge in Ed];
      apply Hnext in Hrun; try exact Hrun;
      unfold circle_state; repeat split; try lia; try nia.
  - injection Hrun as <-. exists []. split; [now rewrite app_nil_r|].
    split; [constructor|]. intros a b [].
Qed.

(** X11.  [bresenham_circle] stops within [radius + 2] evaluations of its
    loop condition.  The points it returns are pairwise distinct; each
    misses the circle by at most [radius] in squared distance; and with
    every point its mirror images in the two axes through the centre and in
    the diagonal are returned too.  A negative radius gives no point, the
    radius 0 the centre alone. *)
Theorem bresenham_circle_points (center : Point) (radius : Z) :
  exists pts,
    (forall fuel, (circle_fuel radius <= fuel)%nat ->
                  bresenham_circle fuel center radius = Some pts) /\
    NoDup pts /\
    Forall (on_circle center radius) pts /\
    mirrored center pts /\
    (radius < 0 -> pts = []) /\
    (radius = 0 -> pts = [center]).
Proof.
  destruct center as [x0 y0].
  destruct (circle_loop_stops x0 y0 (circle_fuel radius) 0 radius
              (3 - 2 * radius) []) as [raw Hraw].
  { unfold circle_fuel. lia. }
  exists (remove_duplicates raw).
  destruct (remove_duplicates_spec raw) as [Hnd Hin].
  assert (Hshape : Forall (on_circle (x0, y0) radius) raw /\
                   mirrored (x0, y0) raw /\
                   (radius < 0 -> raw = []) /\
                   (radius = 0 -> raw = plot x0 y0 0 0)).
  { destruct (Z_lt_le_dec radius 0) as [Hneg|Hpos].
    - assert (raw = []) as ->.
      { unfold circle_fuel in Hraw. cbn [circle_loop] in Hraw.
        destruct (radius >=? 0) eqn:E; [rewrite Z.geb_le in E; lia|].
        now injection Hraw as <-. }
      split; [constructor|]. split; [intros a b []|]. split; [auto|lia].
    - assert (Hst : circle_state radius 0 radius (3 - 2 * radius)).
      { unfold circle_state. repeat split; first [lia | ring]. }
      destruct (circle_loop_points x0 y0 radius _ _ _ _ _ _ Hst Hraw)
        as (more & -> & Hon & Hmir).
      cbn [app]. split; [exact Hon|]. split; [exact Hmir|].
      split; [lia|]. intros ->.
      unfold circle_fuel in Hraw. cbn in Hraw. now injection Hraw as <-. }
  destruct Hshape as (Hon & Hmir & Hneg & Hzero).
  split; [|split; [exact Hnd|split; [|split; [|split]]]].
  - intros fuel Hfuel. unfold bresenham_circle.
    rewrite (circle_loop_fuel x0 y0 _ fuel _ _ _ _ _ Hraw Hfuel).
    reflexivity.
  - rewrite Forall_forall in *. intros p Hp. apply Hon, Hin, Hp.
  - intros a b Hp. apply Hin in Hp. destruct (Hmir a b Hp) as (H1 & H2 & H3).
    repeat split; now apply Hin.
  - intro H. rewrite (Hneg H). reflexivity.
  - intro H.
    assert (Hall : forall p, In p (remove_duplicates raw) <-> p = (x0, y0)).
    { intro p. rewrite Hin, (Hzero H). unfold plot.
      rewrite !Z.add_0_r, !Z.sub_0_r. cbn [In]. split; [|auto].
      intros [E|[E|[E|[E|[E|[E|[E|[E|[]]]]]]]]]; now symmetry. }
    destruct (remove_duplicates raw) as [|p [|q rest]].
    + exfalso. apply (Hall (x0, y0)). reflexivity.
    + f_equal. apply Hall. now left.
    + exfalso. inversion Hnd as [|? ? Hp _]; subst. apply Hp.
      rewrite (proj1 (Hall p) (or_introl eq_refl)).
      rewrite <- (proj1 (Hall q) (or_intror (or_introl eq_refl))).
      now left.
Qed.

(** ** The grid on the canvas *)

Lemma to_canvas_outside (cell cols rows : Z) (p : Point) :
  in_grid cols rows p = false ->
  _to_canvas cell cols rows p = (-1, -1, -1, -1).
Proof.
  destruct p as [x y]. unfold in_grid, _to_canvas. cbn [fst snd]. intro H.
  destruct (x <? 0) eqn:E1, (y <? 0) eqn:E2, (x >=? cols) eqn:E3,
           (y >=? rows) eqn:E4; try reflexivity.
  exfalso. apply Z.ltb_ge in E1, E2. rewrite Z.geb_leb in E3, E4.
  apply Z.leb_gt in E3, E4.
  apply not_true_iff_false in H. apply H.
  rewrite !andb_true_iff, !Z.leb_le, !Z.ltb_lt. lia.
Qed.

Lemma to_canvas_inside (cell cols rows : Z) (p : Point) :
  in_grid cols rows p = true ->
  _to_canvas cell cols rows p
  = (fst p * cell + 1, (rows - 1 - snd p) * cell + 1,
     fst p * cell + 1 + cell - 1, (rows - 1 - snd p) * cell + 1 + cell - 1)
  /\ 0 <= fst p < cols /\ 0 <= snd p < rows.
Proof.
  destruct p as [x y]. unfold in_grid, _to_canvas. cbn [fst snd]. intro H.
  rewrite !andb_true_iff, !Z.leb_le, !Z.ltb_lt in H.
  assert (E1 : (x <? 0) = false) by (apply Z.ltb_ge; lia).
  assert (E2 : (y <? 0) = false) by (apply Z.ltb_ge; lia).
  assert (E3 : (x >=? cols) = false)
    by (rewrite Z.geb_leb; apply Z.leb_gt; lia).
  assert (E4 : (y >=? rows) = false)
    by (rewrite Z.geb_leb; apply Z.leb_gt; lia).
  rewrite E1, E2, E3, E4. cbn [orb]. split; [reflexivity|lia].
Qed.

(** X12.  For a cell size of at least one pixel, [_to_canvas] answers
    (-1,-1,-1,-1) exactly for the points off the grid; a point of the grid
    gets a square of [cell] pixels a side inside the canvas of
    [_canvas_size]; different grid points get squares without a common
    pixel; and a larger [y] is a square higher up. *)
Theorem to_canvas_cells (cell cols rows : Z) :
  1 <= cell ->
  (forall p, in_grid cols rows p = false <->
             _to_canvas cell cols rows p = (-1, -1, -1, -1)) /\
  (forall p, in_grid cols rows p = true ->
             cell_on_canvas cell (_canvas_size cell cols rows)
                            (_to_canvas cell cols rows p)) /\
  (forall p q, in_grid cols rows p = true -> in_grid cols rows q = true ->
               p <> q ->
               apart (_to_canvas cell cols rows p)
                     (_to_canvas cell cols rows q)) /\
  (forall p q, in_grid cols rows p = true -> in_grid cols rows q = true ->
               snd p < snd q ->
               snd (fst (fst (_to_canvas cell cols rows q)))
               < snd (fst (fst (_to_canvas cell cols rows p)))).
Proof.
  intro Hcell. split; [|split; [|split]].
  - intro p. split; [apply to_canvas_outside|].
    intro H. destruct (in_grid cols rows p) eqn:E; [|reflexivity].
    destruct (to_canvas_inside cell cols rows p E) as [Hv [Hx Hy]].
    rewrite Hv in H. injection H as H _ _ _. nia.
  - intros p Hp.
    destruct (to_canvas_inside cell cols rows p Hp) as [-> [Hx Hy]].
    unfold cell_on_canvas, _canvas_size. destruct p as [x y].
    cbn [fst snd] in *.
    split; [nia|]. split; [lia|]. split; [nia|].
    split; [nia|]. split; [lia|]. nia.
  - intros p q Hp Hq Hne.
    destruct (to_canvas_inside cell cols rows p Hp) as [-> [Hx Hy]].
    destruct (to_canvas_inside cell cols rows q Hq) as [-> [Hx' Hy']].
    destruct p as [x y], q as [x' y']. cbn [fst snd] in *. unfold apart.
    assert (Hd : x < x' \/ x' < x \/ y < y' \/ y' < y).
    { destruct (Z.eq_dec x x') as [->|]; [|lia].
      destruct (Z.eq_dec y y') as [->|]; [|lia]. congruence. }
    destruct Hd as [H|[H|[H|H]]];
      [left|right; left|right; right; right|right; right; left]; nia.
  - intros p q Hp Hq Hlt.
    destruct (to_canvas_inside cell cols rows p Hp) as [-> [Hx Hy]].
    destruct (to_canvas_inside cell cols rows q Hq) as [-> [Hx' Hy']].
    cbn [fst snd]. nia.
Qed.

Lemma to_canvas_cells_default :
  (forall p, in_grid 32 24 p = false <->
             _to_canvas 18 32 24 p = (-1, -1, -1, -1)) /\
  (forall p, in_grid 32 24 p = true ->
             cell_on_canvas 18 (_canvas_size 18 32 24)
                            (_to_canvas 18 32 24 p)) /\
  (forall p q, in_grid 32 24 p = true -> in_grid 32 24 q = true ->
               p <> q ->
               apart (_to_canvas 18 32 24 p) (_to_canvas 18 32 24 q)) /\
  (forall p q, in_grid 32 24 p = true -> in_grid 32 24 q = true ->
               snd p < snd q ->
               snd (fst (fst (_to_canvas 18 32 24 q)))
               < snd (fst (fst (_to_canvas 18 32 24 p)))).
Proof. apply (to_canvas_cells 18 32 24). lia. Defined.

Lemma draw_points_fold (cell cols rows : Z) (pts : list Point) :
  0 <= cell ->
  forall canvas,
    fold_left
      (fun canvas p =>
         let '(x1, y1, x2, y2) := _to_canvas cell cols rows p in
         if x1 =? -1 then canvas
         else canvas ++ [(x1, y1, x2, y2)])
      pts canvas
    = canvas ++ map (_to_canvas cell cols rows)
                    (filter (in_grid cols rows) pts).
Proof.
  intro Hcell. induction pts as [|p pts IH]; intro canvas;
    cbn [fold_left filter map].
  - now rewrite app_nil_r.
  - rewrite IH. destruct (in_grid cols rows p) eqn:E.
    + destruct (to_canvas_inside cell cols rows p E) as [Hv [Hx Hy]].
      cbn [map]. rewrite Hv.
      assert (Hn : (fst p * cell + 1 =? -1) = false).
      { apply Z.eqb_neq.
        pose proof (Z.mul_nonneg_nonneg (fst p) cell). lia. }
      rewrite Hn. cbn [map]. now rewrite <- app_assoc.
    + rewrite (to_canvas_outside cell cols rows p E). reflexivity.
Qed.

(** X13.  For a cell size that is not negative, [_draw_points] creates one
    rectangle for each point of the list that lies on the grid, in the
    order of the list, and none for the others. *)
Theorem draw_points_on_grid (cell cols rows : Z) (pts : list Point) :
  0 <= cell ->
  _draw_points cell cols rows pts
  = map (_to_canvas cell cols rows) (filter (in_grid cols rows) pts).
Proof.
  intro Hcell. unfold _draw_points.
  now rewrite draw_points_fold.
Qed.

Lemma draw_points_on_grid_default :
  _draw_points 18 32 24 [(2, 2); (-1, 5); (31, 23); (32, 0)]
  = map (_to_canvas 18 32 24)
        (filter (in_grid 32 24) [(2, 2); (-1, 5); (31, 23); (32, 0)]).
Proof.
  apply (draw_points_on_grid 18 32 24 [(2, 2); (-1, 5); (31, 23); (32, 0)]).
  lia.
Defined.

End Lab3_more.

(* ================================================================== *)
(** * Lab 4: what the two clippers return *)
(* ================================================================== *)

Module Lab4_more.
Import Lab4 Lab4Spec PyFacts Lab4_proofs.
Local Open Scope Q_scope.

(** ** Liang-Barsky *)

Lemma Qeq_bool_false (a b : Q) : ~ a == b -> Qeq_bool a b = false.
Proof.
  intro H. destruct (Qeq_bool a b) eqn:E; [|reflexivity].
  apply Qeq_bool_iff in E. contradiction.
Qed.

Lemma Qeq_bool_true (a b : Q) : a == b -> Qeq_bool a b = true.
Proof. apply Qeq_bool_iff. Qed.

Lemma product_negative (a b d : Q) : d < 0 -> (b - a) * d < 0 -> a < b.
Proof. intros Hd H. nra. Qed.

(** An edge the segment runs parallel to only tests the side. *)
Lemma liang_barsky_loop_parallel (p q : Q) (rest : list (Q * Q)) (u1 u2 : Q) :
  p == 0 ->
  liang_barsky_loop ((p, q) :: rest) u1 u2
  = if Py.Qltb q 0 then None else liang_barsky_loop rest u1 u2.
Proof. intro Hp. cbn [liang_barsky_loop]. now rewrite Qeq_bool_true. Qed.

(** One pair of opposite edges: a segment that moves across them is
    rejected by the second of the two at the latest. *)
Lemma liang_barsky_loop_pair (d x lo hi : Q) (rest : list (Q * Q))
      (u1 u2 : Q) :
  lo < hi -> ~ d == 0 ->
  liang_barsky_loop ((- d, x - lo) :: (d, hi - x) :: rest) u1 u2 = None.
Proof.
  intros Hrect Hd. cbn [liang_barsky_loop].
  assert (Hd' : ~ - d == 0) by (intro; apply Hd; lra).
  rewrite (Qeq_bool_false (- d) 0) by assumption.
  rewrite (Qeq_bool_false d 0) by assumption.
  destruct (Py.Qltb (- d) 0) eqn:Hdir;
    [apply Qltb_lt in Hdir | apply Qltb_ge in Hdir].
  - (* moving towards larger coordinates *)
    destruct (Py.Qltb u2 (Py.max u1 (- (x - lo) / - d))); [reflexivity|].
    assert (Hneg : Py.Qltb d 0 = false) by (apply Qltb_ge; lra).
    rewrite Hneg.
    assert (Hcut : Py.Qltb (Py.min u2 (- (hi - x) / d))
                           (Py.max u1 (- (x - lo) / - d)) = true).
    { apply Qltb_lt.
      assert (- (hi - x) / d < - (x - lo) / - d).
      { apply Qlt_shift_div_r; [lra|].
        assert (E : - (x - lo) / - d * d == x - lo) by (field; lra).
        rewrite E. lra. }
      destruct (min_cases u2 (- (hi - x) / d)) as [[-> ?]|[-> ?]];
        destruct (max_cases u1 (- (x - lo) / - d)) as [[-> ?]|[-> ?]]; lra. }
    now rewrite Hcut.
  - (* moving towards smaller coordinates *)
    assert (Hpos : Py.Qltb d 0 = true) by (apply Qltb_lt; lra).
    destruct (Py.Qltb (Py.min u2 (- (x - lo) / - d)) u1); [reflexivity|].
    rewrite Hpos.
    assert (Hcut : Py.Qltb (Py.min u2 (- (x - lo) / - d))
                           (Py.max u1 (- (hi - x) / d)) = true).
    { apply Qltb_lt.
      assert (- (x - lo) / - d < - (hi - x) / d).
      { assert (E1 : - (x - lo) / - d * d == x - lo) by (field; assumption).
        assert (E2 : - (hi - x) / d * d == x - hi) by (field; assumption).
        apply (product_negative _ _ d); [lra|].
        setoid_replace ((- (hi - x) / d - - (x - lo) / - d) * d)
          with (- (hi - x) / d * d - - (x - lo) / - d * d) by ring.
        rewrite E1, E2. lra. }
      destruct (min_cases u2 (- (x - lo) / - d)) as [[-> ?]|[-> ?]];
        destruct (max_cases u1 (- (hi - x) / d)) as [[-> ?]|[-> ?]]; lra. }
    now rewrite Hcut.
Qed.

(** Over exact rationals: against a rectangle of positive width and
    height, whenever the two endpoints differ the result is [None]. *)
Lemma liang_barsky_rejects_exact (rect : Rect) (seg : Segment) :
  proper rect ->
  let '(x0, y0, x1, y1) := seg in
  ~ (x1 == x0 /\ y1 == y0) ->
  liang_barsky rect seg = None.
Proof.
  destruct rect as [[[xmin ymin] xmax] ymax], seg as [[[x0 y0] x1] y1].
  intros [Hx Hy] Hseg. unfold liang_barsky. cbn [combine].
  destruct (Qeq_dec (x1 - x0) 0) as [Ex|Ex].
  - assert (Ey : ~ y1 - y0 == 0) by (intro; apply Hseg; split; lra).
    rewrite liang_barsky_loop_parallel by lra.
    destruct (Py.Qltb (x0 - xmin) 0); [reflexivity|].
    rewrite liang_barsky_loop_parallel by lra.
    destruct (Py.Qltb (xmax - x0) 0); [reflexivity|].
    now rewrite liang_barsky_loop_pair.
  - now rewrite liang_barsky_loop_pair.
Qed.

(** X14.  Against a rectangle of positive width and height, for integer
    coordinates of at most a million in absolute value, [liang_barsky]
    returns no segment of positive length: whenever the two endpoints
    differ the result is [None]. *)
Theorem liang_barsky_rejects_segments
        (xmin ymin xmax ymax x0 y0 x1 y1 : Z) :
  grid_coordinates [xmin; ymin; xmax; ymax; x0; y0; x1; y1] ->
  (xmin < xmax)%Z -> (ymin < ymax)%Z -> (x0, y0) <> (x1, y1) ->
  liang_barsky (rect_of xmin ymin xmax ymax) (segment_of x0 y0 x1 y1) = None.
Proof.
  intros _ Hx Hy Hne.
  apply (liang_barsky_rejects_exact
           (rect_of xmin ymin xmax ymax) (segment_of x0 y0 x1 y1)).
  - split; now rewrite <- Zlt_Qlt.
  - intros [E1 E2]. apply Hne.
    f_equal; symmetry; now apply inject_Z_injective.
Qed.

Lemma liang_barsky_rejects_diagonal :
  liang_barsky (rect_of 2 2 14 10) (segment_of 0 0 18 12) = None.
Proof.
  apply (liang_barsky_rejects_segments 2 2 14 10 0 0 18 12).
  - repeat constructor; cbn; lia.
  - lia.
  - lia.
  - discriminate.
Defined.

(** X15.  A segment of length zero is returned as it is when its point lies
    in the closed rectangle, and rejected when it does not. *)
Theorem liang_barsky_point (rect : Rect) (x0 y0 x1 y1 : Q) :
  x1 == x0 -> y1 == y0 ->
  let '(xmin, ymin, xmax, ymax) := rect in
  (xmin <= x0 <= xmax /\ ymin <= y0 <= ymax ->
   exists s, liang_barsky rect (x0, y0, x1, y1) = Some s
             /\ seg_eq s (x0, y0, x1, y1)) /\
  (~ (xmin <= x0 <= xmax /\ ymin <= y0 <= ymax) ->
   liang_barsky rect (x0, y0, x1, y1) = None).
Proof.
  destruct rect as [[[xmin ymin] xmax] ymax]. intros Ex Ey.
  unfold liang_barsky. cbn [combine liang_barsky_loop].
  rewrite (Qeq_bool_true (- (x1 - x0)) 0) by lra.
  rewrite (Qeq_bool_true (x1 - x0) 0) by lra.
  rewrite (Qeq_bool_true (- (y1 - y0)) 0) by lra.
  rewrite (Qeq_bool_true (y1 - y0) 0) by lra.
  split.
  - intros [[H1 H2] [H3 H4]].
    rewrite (proj2 (Qltb_ge (x0 - xmin) 0)) by lra.
    rewrite (proj2 (Qltb_ge (xmax - x0) 0)) by lra.
    rewrite (proj2 (Qltb_ge (y0 - ymin) 0)) by lra.
    rewrite (proj2 (Qltb_ge (ymax - y0) 0)) by lra.
    eexists. split; [reflexivity|]. cbn [seg_eq]. repeat split; lra.
  - intro Hout.
    destruct (Py.Qltb (x0 - xmin) 0) eqn:E1; [reflexivity|].
    destruct (Py.Qltb (xmax - x0) 0) eqn:E2; [reflexivity|].
    destruct (Py.Qltb (y0 - ymin) 0) eqn:E3; [reflexivity|].
    destruct (Py.Qltb (ymax - y0) 0) eqn:E4; [reflexivity|].
    apply Qltb_ge in E1, E2, E3, E4. exfalso. apply Hout. split; lra.
Qed.

Lemma liang_barsky_point_inside :
  exists s, liang_barsky (2, 2, 14, 10) (5, 5, 5, 5) = Some s
            /\ seg_eq s (5, 5, 5, 5).
Proof.
  apply (liang_barsky_point (2, 2, 14, 10) 5 5 5 5);
    [reflexivity|reflexivity|].
  repeat split; discriminate.
Defined.

(** ** Sutherland-Hodgman *)













Lemma firstn_snoc {A : Type} (l : list A) (k : nat) (x : A) :
  nth_error l k = Some x -> firstn (S k) l = firstn k l ++ [x].
Proof.
  revert k. induction l as [|a l IH]; intros [|k] H; try discriminate.
  - now injection H as ->.
  - cbn [firstn app]. f_equal. now apply IH.
Qed.

(** A pass that finds every vertex inside its edge returns the polygon. *)
Lemma clip_all_inside (rect : Rect) (poly : list Point) (edge : Edge) :
  (forall p, In p poly -> inside rect p edge = true) ->
  clip rect poly edge = Some poly.
Proof.
  intro Hin. unfold clip. destruct poly as [|p0 poly0] eqn:Epoly; [reflexivity|].
  rewrite <- Epoly in *. clear Epoly p0 poly0.
  assert (Hgen : forall m k, (k + m <= length poly)%nat ->
             Py.for_each (seq k m) (clip_step rect poly edge) (firstn k poly)
             = Some (firstn (k + m) poly)).
  { induction m as [|m IH]; intros k Hk; cbn [seq Py.for_each].
    - now rewrite Nat.add_0_r.
    - unfold clip_step at 1.
      rewrite index_nonneg, index_pred by lia.
      set (j := if Nat.eqb k 0 then _ else _).
      assert (Hj : (j < length poly)%nat)
        by (subst j; destruct (Nat.eqb k 0); lia).
      destruct (nth_error poly k) as [cur|] eqn:Ecur;
        [|apply nth_error_None in Ecur; lia].
      destruct (nth_error poly j) as [prev|] eqn:Eprev;
        [|apply nth_error_None in Eprev; lia].
      cbn [Py.bind].
      rewrite (Hin cur) by (eapply nth_error_In; eassumption).
      rewrite (Hin prev) by (eapply nth_error_In; eassumption).
      cbn [negb Py.bind].
      rewrite <- (firstn_snoc _ _ _ Ecur).
      rewrite IH by lia. f_equal. f_equal. lia. }
  specialize (Hgen (length poly) 0%nat (Nat.le_refl _)).
  cbn [firstn Nat.add] in Hgen. now rewrite firstn_all in Hgen.
Qed.

(** X17.  A polygon whose vertices all lie in the closed rectangle is
    returned unchanged: same vertices, same order, same start. *)
Theorem sutherland_hodgman_keeps_inner (subject : list Point) (rect : Rect) :
  Forall (in_rect rect) subject ->
  sutherland_hodgman subject rect = Some subject.
Proof.
  intro Hin. rewrite Forall_forall in Hin.
  unfold sutherland_hodgman. cbn [Py.for_each].
  assert (Hpass : forall edge, clip rect subject edge = Some subject)
    by (intro edge; apply clip_all_inside; intros p Hp; now apply Hin).
  rewrite (Hpass left). cbn [Py.bind].
  rewrite (Hpass right). cbn [Py.bind].
  rewrite (Hpass bottom). cbn [Py.bind].
  rewrite (Hpass top). reflexivity.
Qed.

Lemma sutherland_hodgman_keeps_inner_triangle :
  sutherland_hodgman [(3, 3); (12, 4); (5, 9)] (2, 2, 14, 10)
  = Some [(3, 3); (12, 4); (5, 9)].
Proof.
  apply (sutherland_hodgman_keeps_inner [(3, 3); (12, 4); (5, 9)] (2, 2, 14, 10)).
  repeat constructor; intros []; reflexivity.
Defined.

End Lab4_more.

(* ================================================================== *)
(** * Lab 5: vectors, shading, centring and drawing *)
(* ================================================================== *)

Module Lab5_more.
Import Lab5 Lab5Spec PyFacts Lab5_vectors Lab5_sort Lab5_pipeline.
Local Open Scope R_scope.

(** ** Rotations and normals *)

Lemma rotate_x_norm (v : Vec3) (a : R) : norm (rotate_x v a) = norm v.
Proof.
  destruct v as [[x y] z]. cbn [rotate_x norm].
  f_equal. pose proof (sin2_cos2 a) as H. unfold Rsqr in H.
  replace (x * x + y * y + z * z)
    with ((y * y + z * z) * (sin a * sin a + cos a * cos a) + x * x)
    by (rewrite H; ring).
  ring.
Qed.

Lemma rotate_y_norm (v : Vec3) (a : R) : norm (rotate_y v a) = norm v.
Proof.
  destruct v as [[x y] z]. cbn [rotate_y norm].
  f_equal. pose proof (sin2_cos2 a) as H. unfold Rsqr in H.
  replace (x * x + y * y + z * z)
    with ((x * x + z * z) * (sin a * sin a + cos a * cos a) + y * y)
    by (rewrite H; ring).
  ring.
Qed.

Lemma rotate_z_norm (v : Vec3) (a : R) : norm (rotate_z v a) = norm v.
Proof.
  destruct v as [[x y] z]. cbn [rotate_z norm].
  f_equal. pose proof (sin2_cos2 a) as H. unfold Rsqr in H.
  replace (x * x + y * y + z * z)
    with ((x * x + y * y) * (sin a * sin a + cos a * cos a) + z * z)
    by (rewrite H; ring).
  ring.
Qed.

(** X18.  [rotate] keeps the Euclidean length of every vector for all three
    angles, and with all three angles zero it returns the vector. *)
Theorem rotate_rigid (v : Vec3) (rx ry rz : R) :
  norm (rotate v rx ry rz) = norm v /\ rotate v 0 0 0 = v.
Proof.
  split.
  - rewrite rotate_sequential.
    now rewrite rotate_z_norm, rotate_y_norm, rotate_x_norm.
  - destruct v as [[x y] z]. unfold rotate. rewrite cos_0, sin_0.
    apply vec3_eq; ring.
Qed.

(** X19.  Turning the camera by [a] and then by [b] is turning it by
    [a + b]; angle zero changes nothing, so the opposite angle undoes a
    turn. *)
Theorem project_composes (v : Vec3) (a b : R) :
  project (project v a) b = project v (a + b) /\
  project v 0 = v /\
  project (project v a) (- a) = v.
Proof.
  assert (Hadd : forall u p q, project (project u p) q = project u (p + q)).
  { intros [[x y] z] p q. cbn [project]. rewrite cos_plus, sin_plus.
    apply vec3_eq; ring. }
  assert (Hzero : forall u, project u 0 = u).
  { intros [[x y] z]. cbn [project]. rewrite cos_0, sin_0.
    apply vec3_eq; ring. }
  split; [apply Hadd|]. split; [apply Hzero|].
  rewrite Hadd. replace (a + - a) with 0 by ring. apply Hzero.
Qed.

Lemma edge_cross_translate (a b c t : Vec3) :
  edge_cross (add a t) (add b t) (add c t) = edge_cross a b c.
Proof.
  destruct a as [[a0 a1] a2], b as [[b0 b1] b2], c as [[c0 c1] c2],
           t as [[t0 t1] t2].
  cbn [add edge_cross]. apply vec3_eq; ring.
Qed.

Lemma edge_cross_cycle (a b c : Vec3) :
  edge_cross b c a = edge_cross a b c.
Proof.
  destruct a as [[a0 a1] a2], b as [[b0 b1] b2], c as [[c0 c1] c2].
  cbn [edge_cross]. apply vec3_eq; ring.
Qed.

Lemma edge_cross_swap (a b c : Vec3) :
  edge_cross a c b = opposite (edge_cross a b c).
Proof.
  destruct a as [[a0 a1] a2], b as [[b0 b1] b2], c as [[c0 c1] c2].
  cbn [edge_cross opposite scale]. apply vec3_eq; ring.
Qed.

Lemma norm_opposite (v : Vec3) : norm (opposite v) = norm v.
Proof.
  destruct v as [[x y] z]. cbn [opposite scale norm]. f_equal. ring.
Qed.

(** [normal] depends on its points through their cross product only. *)
Lemma normal_of_edge_cross (a b c a' b' c' : Vec3) :
  edge_cross a' b' c' = edge_cross a b c -> normal a' b' c' = normal a b c.
Proof.
  intro E. pose proof (normal_closed_form a' b' c') as H'.
  pose proof (normal_closed_form a b c) as H. rewrite E in H'.
  destruct (edge_cross a b c) as [[nx ny] nz]. cbv zeta in H, H'.
  now rewrite H, H'.
Qed.

(** X20.  The normal of a triangle does not change when the three points
    are moved by the same vector or relabelled cyclically, and it is the
    opposite vector when two points are exchanged. *)
Theorem normal_symmetries (a b c t : Vec3) :
  normal (add a t) (add b t) (add c t) = normal a b c /\
  normal b c a = normal a b c /\
  normal a c b = option_map opposite (normal a b c).
Proof.
  split; [apply normal_of_edge_cross, edge_cross_translate|].
  split; [apply normal_of_edge_cross, edge_cross_cycle|].
  pose proof (normal_closed_form a c b) as HL.
  pose proof (normal_closed_form a b c) as HR.
  rewrite edge_cross_swap, norm_opposite in HL.
  destruct (edge_cross a b c) as [[nx ny] nz].
  cbn [opposite scale] in HL. cbv zeta in HL, HR. rewrite HL, HR.
  cbn [option_map opposite scale].
  set (len := if Req_dec_T _ 0 then 1 else _).
  assert (Hlen : len <> 0) by (subst len; destruct (Req_dec_T _ 0); lra).
  apply f_equal. apply vec3_eq; field; exact Hlen.
Qed.

(** ** shade *)

Lemma light_factor (d : R) : 0.2 <= Py.maxR 0.2 (Py.minR 1.0 d) <= 1.0.
Proof.
  unfold Py.maxR, Py.minR.
  destruct (Rlt_dec d 1.0); destruct (Rlt_dec 0.2 _); lra.
Qed.

Lemma shade_channel (c : Z) (dot : R) :
  (0 <= c <= 255)%Z -> 0.2 <= dot <= 1.0 ->
  (c / 5 <= Z.min 255 (Py.int (IZR c * dot)) <= c)%Z.
Proof.
  intros Hc Hdot.
  assert (Hc0 : 0 <= IZR c) by (apply IZR_le; lia).
  assert (Hx : 0 <= IZR c * dot) by nra.
  unfold Py.int. destruct (Rle_dec 0 (IZR c * dot)) as [_|Hn]; [|lra].
  destruct (base_Int_part (IZR c * dot)) as [Hlo Hhi].
  set (k := Int_part (IZR c * dot)) in *.
  assert (Hk : (k <= c)%Z) by (apply le_IZR; nra).
  assert (Hq : IZR (c / 5) * 5 <= IZR c).
  { rewrite <- mult_IZR. apply IZR_le.
    pose proof (Z.mul_div_le c 5). lia. }
  assert (Hk' : (c / 5 < k + 1)%Z).
  { apply lt_IZR. rewrite plus_IZR. nra. }
  lia.
Qed.

Lemma format_02x_lengths :
  forallb (fun n => (String.length (format_02x n) =? 2)%nat)
          (map Z.of_nat (seq 0 256)) = true.
Proof. vm_compute. reflexivity. Qed.

Lemma format_02x_length (n : Z) :
  (0 <= n <= 255)%Z -> String.length (format_02x n) = 2%nat.
Proof.
  intro Hn. pose proof format_02x_lengths as H.
  rewrite forallb_forall in H. apply Nat.eqb_eq, H.
  apply in_map_iff. exists (Z.to_nat n). split; [lia|]. apply in_seq. lia.
Qed.

(** X21.  For a colour with channels in 0..255, [shade] returns [#] and
    three two-digit codes, seven characters in all, of channels that are
    at most the colour's and at least a fifth of them, whatever the normal
    and the light. *)
Theorem shade_channels (c0 c1 c2 : Z) (n light : Vec3) :
  (0 <= c0 <= 255)%Z -> (0 <= c1 <= 255)%Z -> (0 <= c2 <= 255)%Z ->
  exists r g b : Z,
    shade (c0, c1, c2) n light
    = ("#" ++ format_02x r ++ format_02x g ++ format_02x b)%string /\
    (c0 / 5 <= r <= c0)%Z /\ (c1 / 5 <= g <= c1)%Z /\ (c2 / 5 <= b <= c2)%Z /\
    String.length (shade (c0, c1, c2) n light) = 7%nat.
Proof.
  intros H0 H1 H2. destruct n as [[n0 n1] n2], light as [[l0 l1] l2].
  unfold shade.
  pose proof (light_factor (n0 * l0 + n1 * l1 + n2 * l2)) as Hdot.
  set (dot := Py.maxR 0.2 _) in *.
  pose proof (shade_channel c0 dot H0 Hdot) as K0.
  pose proof (shade_channel c1 dot H1 Hdot) as K1.
  pose proof (shade_channel c2 dot H2 Hdot) as K2.
  set (r := Z.min 255 (Py.int (IZR c0 * dot))) in *.
  set (g := Z.min 255 (Py.int (IZR c1 * dot))) in *.
  set (b := Z.min 255 (Py.int (IZR c2 * dot))) in *.
  assert (R0 : (0 <= c0 / 5)%Z) by (apply Z.div_pos; lia).
  assert (R1 : (0 <= c1 / 5)%Z) by (apply Z.div_pos; lia).
  assert (R2 : (0 <= c2 / 5)%Z) by (apply Z.div_pos; lia).
  exists r, g, b. split; [reflexivity|].
  split; [exact K0|]. split; [exact K1|]. split; [exact K2|].
  rewrite !Lab1_more.string_length_append.
  rewrite !format_02x_length by lia. reflexivity.
Qed.

Lemma shade_channels_orange :
  exists r g b : Z,
    shade (228, 87, 46)%Z (0, 0, 1) (0.5, 0.7, 1.0)
    = ("#" ++ format_02x r ++ format_02x g ++ format_02x b)%string /\
    (228 / 5 <= r <= 228)%Z /\ (87 / 5 <= g <= 87)%Z /\
    (46 / 5 <= b <= 46)%Z /\
    String.length (shade (228, 87, 46)%Z (0, 0, 1) (0.5, 0.7, 1.0)) = 7%nat.
Proof.
  apply (shade_channels 228 87 46 (0, 0, 1) (0.5, 0.7, 1.0)); lia.
Defined.

(** ** _center_model *)

Lemma fold_minR_shift (c : R) (rest : list R) :
  forall acc,
    fold_left Py.minR (map (fun x => x - c) rest) (acc - c)
    = fold_left Py.minR rest acc - c.
Proof.
  induction rest as [|x rest IH]; intro acc; cbn [map fold_left];
    [reflexivity|].
  rewrite <- IH. f_equal. unfold Py.minR.
  destruct (Rlt_dec (x - c) (acc - c)), (Rlt_dec x acc); lra || reflexivity.
Qed.

Lemma fold_maxR_shift (c : R) (rest : list R) :
  forall acc,
    fold_left Py.maxR (map (fun x => x - c) rest) (acc - c)
    = fold_left Py.maxR rest acc - c.
Proof.
  induction rest as [|x rest IH]; intro acc; cbn [map fold_left];
    [reflexivity|].
  rewrite <- IH. f_equal. unfold Py.maxR.
  destruct (Rlt_dec (acc - c) (x - c)), (Rlt_dec acc x); lra || reflexivity.
Qed.

Lemma min_list_shift (c : R) (xs : list R) :
  min_list (map (fun x => x - c) xs)
  = option_map (fun m => m - c) (min_list xs).
Proof.
  destruct xs as [|x rest]; [reflexivity|].
  cbn [map min_list option_map]. now rewrite fold_minR_shift.
Qed.

Lemma max_list_shift (c : R) (xs : list R) :
  max_list (map (fun x => x - c) xs)
  = option_map (fun m => m - c) (max_list xs).
Proof.
  destruct xs as [|x rest]; [reflexivity|].
  cbn [map max_list option_map]. now rewrite fold_maxR_shift.
Qed.

Lemma min_list_defined (xs : list R) :
  xs <> [] -> exists m, min_list xs = Some m.
Proof. destruct xs; [congruence|]. intros _. now eexists. Qed.

Lemma max_list_defined (xs : list R) :
  xs <> [] -> exists m, max_list xs = Some m.
Proof. destruct xs; [congruence|]. intros _. now eexists. Qed.

(** The value of [_center_model] on a list that is not empty. *)
Lemma center_model_value (verts : list Vec3) :
  verts <> [] ->
  exists xlo xhi ylo yhi zlo zhi,
    min_list (map coord_x verts) = Some xlo /\
    max_list (map coord_x verts) = Some xhi /\
    min_list (map coord_y verts) = Some ylo /\
    max_list (map coord_y verts) = Some yhi /\
    min_list (map coord_z verts) = Some zlo /\
    max_list (map coord_z verts) = Some zhi /\
    _center_model verts
    = Some (map (fun '(x, y, z) => (x - (xlo + xhi) / 2,
                                    y - (ylo + yhi) / 2,
                                    z - (zlo + zhi) / 2)) verts).
Proof.
  intro Hne.
  assert (Hmap : forall f : Vec3 -> R, map f verts <> [])
    by (intros f E; apply map_eq_nil in E; contradiction).
  destruct (min_list_defined _ (Hmap coord_x)) as [xlo Hxlo].
  destruct (max_list_defined _ (Hmap coord_x)) as [xhi Hxhi].
  destruct (min_list_defined _ (Hmap coord_y)) as [ylo Hylo].
  destruct (max_list_defined _ (Hmap coord_y)) as [yhi Hyhi].
  destruct (min_list_defined _ (Hmap coord_z)) as [zlo Hzlo].
  destruct (max_list_defined _ (Hmap coord_z)) as [zhi Hzhi].
  exists xlo, xhi, ylo, yhi, zlo, zhi.
  do 6 (split; [assumption|]).
  unfold _center_model. cbv zeta.
  unfold coord_x, coord_y, coord_z, Vec3 in Hxlo, Hxhi, Hylo, Hyhi, Hzlo, Hzhi.
  rewrite Hxlo, Hxhi, Hylo, Hyhi, Hzlo, Hzhi. reflexivity.
Qed.

Lemma centred_after_shift (coord : Vec3 -> R) (verts out : list Vec3)
      (lo hi : R) :
  min_list (map coord verts) = Some lo ->
  max_list (map coord verts) = Some hi ->
  map coord out = map (fun x => x - (lo + hi) / 2) (map coord verts) ->
  centred coord out.
Proof.
  intros Hlo Hhi Hout. unfold centred.
  rewrite Hout, min_list_shift, max_list_shift, Hlo, Hhi.
  cbn [option_map]. do 2 eexists. split; [reflexivity|].
  split; [reflexivity|]. field.
Qed.

(** X22.  [_center_model] raises on an empty vertex list; on any other
    list it returns as many vertices, moved so that on each axis the
    smallest and the largest coordinate are opposite numbers, and
    centring the result again returns it unchanged. *)
Theorem center_model_centres (verts : list Vec3) :
  _center_model [] = None /\
  (verts <> [] ->
   exists out, _center_model verts = Some out /\
               length out = length verts /\
               centred coord_x out /\ centred coord_y out /\
               centred coord_z out /\
               _center_model out = Some out).
Proof.
  split; [reflexivity|]. intro Hne.
  destruct (center_model_value verts Hne)
    as (xlo & xhi & ylo & yhi & zlo & zhi
        & Hxlo & Hxhi & Hylo & Hyhi & Hzlo & Hzhi & Hout).
  set (out := map (fun '(x, y, z) => (x - (xlo + xhi) / 2,
                                      y - (ylo + yhi) / 2,
                                      z - (zlo + zhi) / 2)) verts) in Hout.
  assert (Hx : centred coord_x out).
  { apply (centred_after_shift _ verts out xlo xhi); try assumption.
    subst out. rewrite !map_map. apply map_ext. now intros [[x y] z]. }
  assert (Hy : centred coord_y out).
  { apply (centred_after_shift _ verts out ylo yhi); try assumption.
    subst out. rewrite !map_map. apply map_ext. now intros [[x y] z]. }
  assert (Hz : centred coord_z out).
  { apply (centred_after_shift _ verts out zlo zhi); try assumption.
    subst out. rewrite !map_map. apply map_ext. now intros [[x y] z]. }
  exists out. split; [exact Hout|].
  split; [subst out; apply length_map|].
  split; [exact Hx|]. split; [exact Hy|]. split; [exact Hz|].
  assert (Hne' : out <> []).
  { subst out. intro E. apply map_eq_nil in E. contradiction. }
  destruct (center_model_value out Hne')
    as (xlo' & xhi' & ylo' & yhi' & zlo' & zhi'
        & Hxlo' & Hxhi' & Hylo' & Hyhi' & Hzlo' & Hzhi' & Hout').
  clearbody out. rewrite Hout'. apply f_equal.
  destruct Hx as (a & b & Ha & Hb & Hab).
  destruct Hy as (a1 & b1 & Ha1 & Hb1 & Hab1).
  destruct Hz as (a2 & b2 & Ha2 & Hb2 & Hab2).
  rewrite Ha in Hxlo'. rewrite Hb in Hxhi'.
  rewrite Ha1 in Hylo'. rewrite Hb1 in Hyhi'.
  rewrite Ha2 in Hzlo'. rewrite Hb2 in Hzhi'.
  injection Hxlo' as <-. injection Hxhi' as <-.
  injection Hylo' as <-. injection Hyhi' as <-.
  injection Hzlo' as <-. injection Hzhi' as <-.
  transitivity (map (fun v : Vec3 => v) out); [|apply map_id].
  apply map_ext.
  intros [[x y] z]. rewrite Hab, Hab1, Hab2. apply vec3_eq; field.
Qed.

Lemma center_model_centres_pair :
  exists out, _center_model [(0, 0, 0); (2, 4, 6)] = Some out /\
              length out = 2%nat /\
              centred coord_x out /\ centred coord_y out /\
              centred coord_z out /\
              _center_model out = Some out.
Proof.
  apply (center_model_centres [(0, 0, 0); (2, 4, 6)]). discriminate.
Defined.

(** ** render *)

Lemma index_defined_iff {A : Type} (l : list A) (i : Z) :
  (exists v, Py.index l i = Some v) <-> indexable (length l) i.
Proof.
  unfold Py.index, indexable.
  assert (Hnth : forall k, (exists v, nth_error l k = Some v)
                           <-> (k < length l)%nat).
  { intro k. rewrite <- nth_error_Some.
    destruct (nth_error l k); split; intro H;
      try congruence; try (now eexists); now destruct H. }
  destruct (0 <=? i)%Z eqn:E0.
  - apply Z.leb_le in E0. rewrite Hnth. lia.
  - apply Z.leb_gt in E0.
    destruct (- Z.of_nat (length l) <=? i)%Z eqn:E1.
    + apply Z.leb_le in E1. rewrite Hnth. lia.
    + apply Z.leb_gt in E1. split; [now intros [v Hv]|lia].
Qed.

Lemma map_opt_each {A B : Type} (f : A -> option B) (xs : list A)
      (ys : list B) :
  Py.map_opt f xs = Some ys ->
  forall x, In x xs -> exists y, f x = Some y /\ In y ys.
Proof.
  intro H. apply map_opt_Forall2 in H.
  induction H as [|x y xs ys Hxy _ IH]; intros z Hz; [contradiction|].
  destruct Hz as [<-|Hz].
  - exists y. split; [assumption|now left].
  - destruct (IH z Hz) as (w & Hw & Hin). exists w. split; [assumption|].
    now right.
Qed.

Lemma map_opt_source {A B : Type} (f : A -> option B) (xs : list A)
      (ys : list B) :
  Py.map_opt f xs = Some ys ->
  forall y, In y ys -> exists x, In x xs /\ f x = Some y.
Proof.
  intro H. apply map_opt_Forall2 in H.
  induction H as [|x y xs ys Hxy _ IH]; intros z Hz; [contradiction|].
  destruct Hz as [<-|Hz].
  - exists x. split; [now left|assumption].
  - destruct (IH z Hz) as (w & Hin & Hw). exists w. split; [now right|].
    assumption.
Qed.

Lemma face_depth_iff (verts : list Vec3) (face : Face) :
  (exists d, face_depth verts face = Some d)
  <-> drawable (length verts) face.
Proof.
  unfold face_depth, drawable. split.
  - intros [d Hd].
    destruct (Py.map_opt _ face) as [zs|] eqn:Hzs; [|discriminate].
    cbn [Py.bind] in Hd. split.
    + intros ->. cbn [Py.map_opt] in Hzs. injection Hzs as <-.
      unfold div in Hd. cbn [length INR] in Hd.
      destruct (Req_dec_T 0 0); [discriminate|lra].
    + apply Forall_forall. intros idx Hin.
      destruct (map_opt_each _ _ _ Hzs idx Hin) as (z & Hz & _).
      apply index_defined_iff.
      destruct (Py.index verts idx) as [v|]; [now eexists|discriminate].
  - intros [Hne Hidx].
    destruct (map_opt_defined
                (fun idx => v <- Py.index verts idx ;; Some (snd v)) face)
      as [zs Hzs].
    { intros idx Hin. rewrite Forall_forall in Hidx.
      destruct (proj2 (index_defined_iff verts idx) (Hidx idx Hin))
        as [v ->].
      now eexists. }
    rewrite Hzs. cbn [Py.bind].
    apply map_opt_Forall2, Forall2_length in Hzs.
    rewrite rdiv_defined; [now eexists|].
    apply not_0_INR. destruct face; [congruence|]. cbn [length] in Hzs. lia.
Qed.

Lemma draw_face_indexable (cx cy : R) (verts : list Vec3) (face : Face) :
  Forall (indexable (length verts)) face ->
  exists poly, draw_face cx cy verts face = Some poly.
Proof.
  intro Hidx. unfold draw_face. rewrite Forall_forall in Hidx.
  assert (Hget : forall idx, In idx face ->
                             exists v, Py.index verts idx = Some v)
    by (intros idx Hin; apply index_defined_iff, Hidx, Hin).
  destruct (map_opt_defined
              (fun idx => v <- Py.index verts idx ;;
                          let '(x, y, z) := v in Some (cx + x, cy - y)) face)
    as [pts Hpts].
  { intros idx Hin. destruct (Hget idx Hin) as [[[x y] z] ->]. now eexists. }
  rewrite Hpts. cbn [Py.bind].
  assert (Hfill : exists s, face_fill verts face = Some s).
  { unfold face_fill, face_normal.
    destruct (3 <=? length face)%nat eqn:Hlen; [|now eexists].
    apply Nat.leb_le in Hlen.
    assert (Hnth : forall k, (k < 3)%nat ->
               exists v, Py.index verts (nth k face 0%Z) = Some v).
    { intros k Hk. apply Hget, nth_In. lia. }
    destruct (Hnth 0%nat) as [a ->]; [lia|].
    destruct (Hnth 1%nat) as [b ->]; [lia|].
    destruct (Hnth 2%nat) as [c ->]; [lia|].
    cbn [Py.bind]. destruct (normal_defined a b c) as [n ->]. now eexists. }
  destruct Hfill as [s ->]. now eexists.
Qed.

(** A mesh [render] can draw is drawn. *)
Lemma render_drawable (self : LetterApp) :
  Forall (drawable (length (base_verts self))) (faces self) ->
  exists drawn, render self = Some drawn.
Proof.
  unfold render. set (verts := transform_vertices self).
  assert (Hlen : length verts = length (base_verts self)).
  { subst verts. rewrite transform_vertices_map. apply length_map. }
  rewrite <- Hlen. unfold faces_sorted.
  intro Hall. rewrite Forall_forall in Hall.
  destruct (map_opt_defined
              (fun face => d <- face_depth verts face ;; Some (d, face))
              (faces self)) as [keyed Hkeyed].
  { intros face Hin.
    destruct (proj2 (face_depth_iff verts face) (Hall face Hin)) as [d ->].
    now eexists. }
  rewrite Hkeyed. cbn [Py.bind].
  apply map_opt_defined. intros [d face] Hin.
  apply (Permutation_in _ (sort_reverse_perm fst keyed)) in Hin.
  destruct (map_opt_source _ _ _ Hkeyed _ Hin) as (face' & Hin' & Hface').
  destruct (face_depth verts face') as [d'|]; [|discriminate].
  cbn [Py.bind] in Hface'. injection Hface' as -> ->.
  apply draw_face_indexable, Hall, Hin'.
Qed.

(** Any other mesh makes it raise. *)
Lemma render_needs_drawable (self : LetterApp) (drawn : list Polygon) :
  render self = Some drawn ->
  Forall (drawable (length (base_verts self))) (faces self).
Proof.
  unfold render. set (verts := transform_vertices self).
  assert (Hlen : length verts = length (base_verts self)).
  { subst verts. rewrite transform_vertices_map. apply length_map. }
  rewrite <- Hlen. unfold faces_sorted. intro Hdrawn.
  destruct (Py.map_opt _ (faces self)) as [keyed|] eqn:Hkeyed;
    [|discriminate].
  apply Forall_forall. intros face Hin.
  destruct (map_opt_each _ _ _ Hkeyed face Hin) as (y & Hy & _).
  apply face_depth_iff.
  destruct (face_depth verts face) as [d|]; [now eexists|discriminate].
Qed.

(** X23.  [render] draws, rather than raises, exactly when no face is
    empty and every index of every face lies in [-n, n) for the [n]
    vertices of the model; negative indices count from the end. *)
Theorem render_draws_iff (self : LetterApp) :
  (exists drawn, render self = Some drawn)
  <-> Forall (drawable (length (base_verts self))) (faces self).
Proof.
  split.
  - intros [drawn Hdrawn]. exact (render_needs_drawable self drawn Hdrawn).
  - apply render_drawable.
Qed.

Lemma letter_faces_drawable :
  Forall (drawable 24) (snd (build_letter_r 1.2)).
Proof.
  cbv beta iota zeta delta [build_letter_r snd].
  repeat (apply Forall_cons; [split; [discriminate|];
    repeat (apply Forall_cons; [unfold indexable; cbn; lia|]);
    apply Forall_nil|]).
  apply Forall_nil.
Qed.

Lemma render_length (self : LetterApp) (drawn : list Polygon) :
  render self = Some drawn -> length drawn = length (faces self).
Proof.
  unfold render, faces_sorted.
  destruct (Py.map_opt _ (faces self)) as [keyed|] eqn:Hkeyed; [|discriminate].
  cbn [Py.bind]. intro Hdrawn.
  apply map_opt_Forall2, Forall2_length in Hkeyed, Hdrawn.
  rewrite <- Hdrawn, Hkeyed.
  apply Permutation_length, sort_reverse_perm.
Qed.

(** X24.  The application starts without raising, and from then on, for
    every transform, camera angle and canvas size, [render] draws the 16
    faces of the letter: no slider position makes it raise. *)
Theorem letter_always_drawn (t : Transform.t) (cam : R) (w h w' h' : Z) :
  exists app drawn,
    init w h = Some app /\
    render {| transform := t; cam_angle := cam;
              base_verts := base_verts app; faces := faces app;
              width := w'; height := h' |} = Some drawn /\
    length drawn = 16%nat.
Proof.
  rewrite init_state. eexists. 
  set (self := {| transform := t; cam_angle := cam;
                  base_verts := centered_letter;
                  faces := snd (build_letter_r 1.2);
                  width := w'; height := h' |}).
  destruct (render_drawable self) as [drawn Hdrawn].
  { exact letter_faces_drawable. }
  exists drawn. split; [reflexivity|]. cbn [base_verts faces]. fold self.
  split; [exact Hdrawn|].
  rewrite (render_length self drawn Hdrawn). reflexivity.
Qed.

End Lab5_more.

(* ================================================================== *)
(** * Lab 2: the window size *)
(* ================================================================== *)

Module Lab2_proofs.
Import Lab2.
Local Open Scope Z_scope.

(** [b | 1] sets the lowest bit: the next odd number from [b] upwards. *)
Lemma lor_one (b : Z) : Z.lor b 1 = 2 * (b / 2) + 1.
Proof.
  apply Z.bits_inj'. intros n Hn.
  destruct (Z.eq_dec n 0) as [->|Hpos].
  - rewrite Z.lor_spec, Z.testbit_odd_0. cbn. apply orb_true_r.
  - replace n with (Z.succ (n - 1)) by lia.
    rewrite Z.lor_spec, Z.testbit_odd_succ by lia.
    rewrite Z.div2_bits by lia.
    replace (Z.testbit 1 (Z.succ (n - 1))) with false; [apply orb_false_r|].
    symmetry. apply Z.bits_above_log2; cbn; lia.
Qed.

Lemma blk_cases (block_size : Z) :
  Z.odd (blk block_size) = true /\ 3 <= blk block_size /\
  (3 <= block_size -> Z.odd block_size = true ->
   blk block_size = block_size) /\
  (2 <= block_size -> Z.even block_size = true ->
   blk block_size = block_size + 1) /\
  (block_size < 2 -> blk block_size = 3).
Proof.
  unfold blk. rewrite lor_one.
  pose proof (Z.div_mod block_size 2 ltac:(lia)) as Hdm.
  pose proof (Z.mod_pos_bound block_size 2 ltac:(lia)) as Hm.
  assert (Hodd : forall q, Z.odd (2 * q + 1) = true).
  { intro q. rewrite Z.add_comm, Z.odd_add_mul_2. reflexivity. }
  split; [|split; [lia|split; [|split]]].
  - destruct (Z.max_spec 3 (2 * (block_size / 2) + 1)) as [[_ ->]|[_ ->]];
      [apply Hodd|reflexivity].
  - intros H3 Ho. apply Z.odd_spec in Ho as [q ->]. lia.
  - intros H2 He. apply Z.even_spec in He as [q ->]. lia.
  - intro H. lia.
Qed.

(** X25.  For every integer block size, also zero and negative ones, the
    window size is odd and at least 3; it is the block size itself when
    that is odd and at least 3, the next integer when it is even and at
    least 2, and 3 below that.  Computing it from a window size, as
    [apply_methods] and then [sauvola] do, changes nothing. *)
Theorem blk_odd_at_least_3 (block_size : Z) :
  Z.odd (blk block_size) = true /\ 3 <= blk block_size /\
  (3 <= block_size -> Z.odd block_size = true ->
   blk block_size = block_size) /\
  (2 <= block_size -> Z.even block_size = true ->
   blk block_size = block_size + 1) /\
  (block_size < 2 -> blk block_size = 3) /\
  blk (blk block_size) = blk block_size.
Proof.
  destruct (blk_cases block_size) as (Ho & H3 & Hsame & Hnext & Hlow).
  repeat (split; [assumption|]).
  destruct (blk_cases (blk block_size)) as (_ & _ & Hfix & _).
  now apply Hfix.
Qed.

End Lab2_proofs.
